(** * Calendar to Notes: the ICS materialization core

    A shallow embedding of [main.ts] (the plugin class [MeetingNotesPlugin]
    and the day query of [CalendarView]) together with the properties the
    design document states about it, followed by the settings object, the
    labels of the day view and the creation of notes, with further
    properties of the code.

    Conventions.
    - A JavaScript [Date] is a time value: an integer number of milliseconds
      since the epoch, at most [maxTime] in absolute value, or the invalid
      date (NaN).
    - In the day query and in the name of a note the host time zone is
      taken to have a constant UTC offset [tz] (milliseconds east of UTC);
      local wall-clock time is [t + tz]. The refresh window and
      [isMultiDayEvent] are given for any zone, through the offset function
      [LocalTZA] of the host.
    - [ICAL.parse], [ICAL.Event] and [ICAL.RecurExpansion] belong to the
      ical.js library; an event is represented by what the plugin reads
      from it, and a recurrence expansion by the sequence of values its
      [next()] returns.
    - A loop that the source does not bound is run with a fuel argument;
      [None] means that the fuel ran out. *)

From Stdlib Require Import Ascii.
From Stdlib Require QArith.
From stdpp Require Import base option list strings pretty gmap sorting.

Open Scope Z_scope.

(** ** JavaScript dates *)

Inductive JSDate : Type :=
  | ValidDate (ms : Z)
  | InvalidDate.

Global Instance JSDate_eq_dec : EqDecision JSDate.
Proof. solve_decision. Defined.

Definition maxTime : Z := 8640000000000000.

(** ECMAScript [TimeClip]: what [new Date(number)] and [setTime] store. *)
Definition TimeClip (t : Z) : JSDate :=
  if bool_decide (Z.abs t ≤ maxTime) then ValidDate t else InvalidDate.

(** [d.getTime()]; [None] stands for NaN. *)
Definition getTime (d : JSDate) : option Z :=
  match d with ValidDate t => Some t | InvalidDate => None end.

(** Relational operators on numbers where NaN compares false. *)
Definition num_lt (a b : option Z) : bool :=
  match a, b with Some x, Some y => bool_decide (x < y) | _, _ => false end.
Definition num_le (a b : option Z) : bool :=
  match a, b with Some x, Some y => bool_decide (x ≤ y) | _, _ => false end.

(** [a < b], [a <= b], [a > b], [a >= b] on [Date] objects. *)
Definition date_lt (a b : JSDate) : bool := num_lt (getTime a) (getTime b).
Definition date_le (a b : JSDate) : bool := num_le (getTime a) (getTime b).
Definition date_gt (a b : JSDate) : bool := num_lt (getTime b) (getTime a).
Definition date_ge (a b : JSDate) : bool := num_le (getTime b) (getTime a).

(** [new Date(n)] for a number [n], and [n + k] for an integer [k]. *)
Definition new_Date (n : option Z) : JSDate :=
  match n with Some t => TimeClip t | None => InvalidDate end.
Definition number_add (n : option Z) (k : Z) : option Z := (λ t, t + k) <$> n.

(** String conversion of a number that is an integer below 1e21, or NaN. *)
Definition number_to_string (n : option Z) : string :=
  match n with Some z => pretty z | None => "NaN" end.

(** Truthiness of a string value. *)
Definition truthy (s : string) : bool := negb (bool_decide (s = "")).

(** [v || dflt] for a string-valued property that may be absent. *)
Definition or_default (v : option string) (dflt : string) : string :=
  match v with
  | Some s => if truthy s then s else dflt
  | None => dflt
  end.

(** ** Time values and calendar fields (ECMAScript, UTC) *)

Definition msPerSecond : Z := 1000.
Definition msPerMinute : Z := 60000.
Definition msPerHour : Z := 3600000.
Definition msPerDay : Z := 86400000.

Definition Day (t : Z) : Z := t `div` msPerDay.
Definition TimeWithinDay (t : Z) : Z := t `mod` msPerDay.

Definition DaysInYear (y : Z) : Z :=
  if bool_decide (y `mod` 4 ≠ 0) then 365
  else if bool_decide (y `mod` 100 ≠ 0) then 366
  else if bool_decide (y `mod` 400 ≠ 0) then 365
  else 366.

Definition DayFromYear (y : Z) : Z :=
  365 * (y - 1970) + (y - 1969) `div` 4 - (y - 1901) `div` 100
  + (y - 1601) `div` 400.

(** The largest year whose first day is not after day [d]: an estimate
    from the mean year length, corrected by at most one. *)
Definition year_of_day (d : Z) : Z :=
  let y := 1970 + (d * 400) `div` 146097 in
  if bool_decide (DayFromYear (y + 1) ≤ d) then y + 1
  else if bool_decide (DayFromYear y ≤ d) then y
  else y - 1.

Definition YearFromTime (t : Z) : Z := year_of_day (Day t).

Definition leap_days (y : Z) : Z :=
  if bool_decide (DaysInYear y = 366) then 1 else 0.

Definition InLeapYear (t : Z) : Z := leap_days (YearFromTime t).

Definition DayWithinYear (t : Z) : Z := Day t - DayFromYear (YearFromTime t).

Definition MonthFromTime (t : Z) : Z :=
  let d := DayWithinYear t in
  let l := InLeapYear t in
  if bool_decide (d < 31) then 0
  else if bool_decide (d < 59 + l) then 1
  else if bool_decide (d < 90 + l) then 2
  else if bool_decide (d < 120 + l) then 3
  else if bool_decide (d < 151 + l) then 4
  else if bool_decide (d < 181 + l) then 5
  else if bool_decide (d < 212 + l) then 6
  else if bool_decide (d < 243 + l) then 7
  else if bool_decide (d < 273 + l) then 8
  else if bool_decide (d < 304 + l) then 9
  else if bool_decide (d < 334 + l) then 10
  else 11.

Definition DateFromTime (t : Z) : Z :=
  let d := DayWithinYear t in
  let l := InLeapYear t in
  match MonthFromTime t with
  | 0 => d + 1
  | 1 => d - 30
  | 2 => d - 58 - l
  | 3 => d - 89 - l
  | 4 => d - 119 - l
  | 5 => d - 150 - l
  | 6 => d - 180 - l
  | 7 => d - 211 - l
  | 8 => d - 242 - l
  | 9 => d - 272 - l
  | 10 => d - 303 - l
  | _ => d - 333 - l
  end.

Definition HourFromTime (t : Z) : Z := (t `div` msPerHour) `mod` 24.
Definition MinFromTime (t : Z) : Z := (t `div` msPerMinute) `mod` 60.
Definition SecFromTime (t : Z) : Z := (t `div` msPerSecond) `mod` 60.
Definition msFromTime (t : Z) : Z := t `mod` msPerSecond.

Definition MakeTime (hour min sec ms : Z) : Z :=
  hour * msPerHour + min * msPerMinute + sec * msPerSecond + ms.

(** Day number, within its year, of the first day of month [m] (from 0);
    [l] is 1 in a leap year. *)
Definition month_offset (l m : Z) : Z :=
  match m with
  | 0 => 0
  | 1 => 31
  | 2 => 59 + l
  | 3 => 90 + l
  | 4 => 120 + l
  | 5 => 151 + l
  | 6 => 181 + l
  | 7 => 212 + l
  | 8 => 243 + l
  | 9 => 273 + l
  | 10 => 304 + l
  | 11 => 334 + l
  | _ => 365 + l
  end.

Definition MakeDay (year month date : Z) : Z :=
  let ym := year + month `div` 12 in
  let mn := month `mod` 12 in
  DayFromYear ym + month_offset (leap_days ym) mn + date - 1.

Definition MakeDate (day time : Z) : Z := day * msPerDay + time.

Definition DaysInMonth (year month : Z) : Z :=
  month_offset (leap_days year) (month + 1) - month_offset (leap_days year) month.

(** ** ISO-8601 strings: [toISOString] and [new Date(string)] *)

(** Decimal digits are the characters with codes 48 to 57. *)
Definition digit_char (d : Z) : ascii := ascii_of_N (48 + Z.to_N d).

Definition digit_value (c : ascii) : option Z :=
  let code := Z.of_N (N_of_ascii c) in
  if bool_decide (48 ≤ code ≤ 57) then Some (code - 48) else None.

(** The last [width] decimal digits of [n], written in front of [rest]. *)
Fixpoint pad_digits (width : nat) (n : Z) (rest : string) : string :=
  match width with
  | O => rest
  | S w => pad_digits w (n `div` 10) (String (digit_char (n `mod` 10)) rest)
  end.

Definition iso_year (y : Z) (rest : string) : string :=
  if bool_decide (0 ≤ y ≤ 9999) then pad_digits 4 y rest
  else if bool_decide (y < 0) then String "-" (pad_digits 6 (- y) rest)
  else String "+" (pad_digits 6 y rest).

(** [YYYY-MM-DDTHH:mm:ss.sssZ] of a time value. *)
Definition iso_string (t : Z) : string :=
  iso_year (YearFromTime t)
    (String "-" (pad_digits 2 (MonthFromTime t + 1)
    (String "-" (pad_digits 2 (DateFromTime t)
    (String "T" (pad_digits 2 (HourFromTime t)
    (String ":" (pad_digits 2 (MinFromTime t)
    (String ":" (pad_digits 2 (SecFromTime t)
    (String "." (pad_digits 3 (msFromTime t) "Z")))))))))))).

(** [d.toISOString()]; [None] is the RangeError thrown on an invalid date. *)
Definition toISOString (d : JSDate) : option string :=
  match d with
  | ValidDate t => Some (iso_string t)
  | InvalidDate => None
  end.

Fixpoint read_digits (width : nat) (acc : Z) (s : string) : option (Z * string) :=
  match width with
  | O => Some (acc, s)
  | S w =>
    match s with
    | String c s' => d ← digit_value c; read_digits w (10 * acc + d) s'
    | EmptyString => None
    end
  end.

Definition read_char (c : ascii) (s : string) : option string :=
  match s with
  | String c' s' => if decide (c = c') then Some s' else None
  | EmptyString => None
  end.

Definition read_year (s : string) : option (Z * string) :=
  match s with
  | String "+" s' => read_digits 6 0 s'
  | String "-" s' =>
    '(y, rest) ← read_digits 6 0 s';
    if decide (y = 0) then None else Some (- y, rest)
  | _ => read_digits 4 0 s
  end.

(** The time value of a string in the full date-time format with legal
    field values; [None] for every other string. *)
Definition parse_iso (s : string) : option Z :=
  '(y, s) ← read_year s;
  s ← read_char "-" s;
  '(mo, s) ← read_digits 2 0 s;
  s ← read_char "-" s;
  '(d, s) ← read_digits 2 0 s;
  s ← read_char "T" s;
  '(h, s) ← read_digits 2 0 s;
  s ← read_char ":" s;
  '(mi, s) ← read_digits 2 0 s;
  s ← read_char ":" s;
  '(sec, s) ← read_digits 2 0 s;
  s ← read_char "." s;
  '(ms, s) ← read_digits 3 0 s;
  s ← read_char "Z" s;
  if bool_decide (s = "" ∧ 1 ≤ mo ≤ 12 ∧ 1 ≤ d ≤ DaysInMonth y (mo - 1)
                  ∧ h ≤ 23 ∧ mi ≤ 59 ∧ sec ≤ 59)
  then Some (MakeDate (MakeDay y (mo - 1) d) (MakeTime h mi sec ms))
  else None.

(** [new Date(s)] for a string [s]. Outside the date-time format the result
    is implementation-defined: [fallback] stands for what the engine does. *)
Definition Date_parse (fallback : string → JSDate) (s : string) : JSDate :=
  match parse_iso s with
  | Some t => TimeClip t
  | None => fallback s
  end.

(** ** The canonical event *)

Record CalendarEvent : Type := mkCalendarEvent {
  uid : string;
  summary : string;
  description : string;
  location : string;
  start : JSDate;
  end_ : JSDate;
  attendees : list string
}.

Global Instance CalendarEvent_eq_dec : EqDecision CalendarEvent.
Proof. solve_decision. Defined.

(** ** What the plugin reads from ical.js *)

Module ICAL.

(** The [cn] parameter of one attendee property. *)
Inductive CnParam : Type :=
  | CnAbsent
  | CnText (s : string)
  | CnList (l : list string).

(** One VEVENT seen through [ICAL.Event]. [occurrences i] is the date of
    the value returned by the [i]-th call of [expand.next()], [None] once
    the expansion is exhausted. [throws] tells that reading the event
    throws: [event.startDate] is [null] for a VEVENT without DTSTART, which
    neither [new ICAL.RecurExpansion] nor [toJSDate()] accepts, and a value
    may fail to decode. *)
Record Event : Type := mkEvent {
  throws : bool;
  uid : string;
  summary : option string;
  description : option string;
  location : option string;
  isRecurring : bool;
  startDate : JSDate;
  endDate : JSDate;
  durationSeconds : Z;
  occurrences : nat → option JSDate;
  attendeeCn : list CnParam
}.

End ICAL.

(** ** parseICSData: materialization *)

Definition push_cn (attendees : list string) (cn : ICAL.CnParam) : list string :=
  match cn with
  | ICAL.CnAbsent => attendees
  | ICAL.CnText s => if truthy s then attendees ++ [s] else attendees
  | ICAL.CnList l => attendees ++ l
  end.

Definition extract_attendees (props : list ICAL.CnParam) : list string :=
  foldl push_cn [] props.

Definition occurrence_event (event : ICAL.Event) (atts : list string)
    (occurrence : JSDate) : CalendarEvent :=
  let duration := ICAL.durationSeconds event * 1000 in
  let endDate := new_Date (number_add (getTime occurrence) duration) in
  {| uid := ICAL.uid event +:+ "-" +:+ number_to_string (getTime occurrence);
     summary := or_default (ICAL.summary event) "Untitled Event";
     description := or_default (ICAL.description event) "";
     location := or_default (ICAL.location event) "";
     start := occurrence;
     end_ := endDate;
     attendees := atts |}.

Definition single_event (event : ICAL.Event) (atts : list string) : CalendarEvent :=
  {| uid := ICAL.uid event;
     summary := or_default (ICAL.summary event) "Untitled Event";
     description := or_default (ICAL.description event) "";
     location := or_default (ICAL.location event) "";
     start := ICAL.startDate event;
     end_ := ICAL.endDate event;
     attendees := atts |}.

(** The [while ((next = expand.next()))] loop, from the [i]-th call on. *)
Fixpoint expand_loop (fuel : nat) (fourWeeksAgo sixWeeksLater : JSDate)
    (event : ICAL.Event) (atts : list string) (i : nat)
    (allEvents : list CalendarEvent) : option (list CalendarEvent) :=
  match fuel with
  | O => None
  | S fuel' =>
    match ICAL.occurrences event i with
    | None => Some allEvents
    | Some occurrence =>
      if date_gt occurrence sixWeeksLater then Some allEvents
      else if date_ge occurrence fourWeeksAgo && date_le occurrence sixWeeksLater then
        expand_loop fuel' fourWeeksAgo sixWeeksLater event atts (S i)
          (allEvents ++ [occurrence_event event atts occurrence])
      else expand_loop fuel' fourWeeksAgo sixWeeksLater event atts (S i) allEvents
    end
  end.

(** The body of [vevents.forEach]. *)
Definition process_vevent (fuel : nat) (fourWeeksAgo sixWeeksLater : JSDate)
    (allEvents : list CalendarEvent) (event : ICAL.Event)
    : option (list CalendarEvent) :=
  let atts := extract_attendees (ICAL.attendeeCn event) in
  if ICAL.isRecurring event then
    expand_loop fuel fourWeeksAgo sixWeeksLater event atts 0 allEvents
  else
    let startDate := ICAL.startDate event in
    if date_ge startDate fourWeeksAgo && date_le startDate sixWeeksLater then
      Some (allEvents ++ [single_event event atts])
    else Some allEvents.

Fixpoint forEach_vevent (fuel : nat) (fourWeeksAgo sixWeeksLater : JSDate)
    (vevents : list ICAL.Event) (allEvents : list CalendarEvent)
    : option (list CalendarEvent) :=
  match vevents with
  | [] => Some allEvents
  | vevent :: rest =>
    allEvents' ← process_vevent fuel fourWeeksAgo sixWeeksLater allEvents vevent;
    forEach_vevent fuel fourWeeksAgo sixWeeksLater rest allEvents'
  end.

(** The deduplication [Map]: keys in insertion order. *)
Definition event_key (event : CalendarEvent) : string :=
  summary event +:+ "-" +:+ number_to_string (getTime (start event)).

Definition map_has (key : string) (m : list (string * CalendarEvent)) : bool :=
  bool_decide (key ∈ m.*1).

Definition dedup_step (uniqueEvents : list (string * CalendarEvent))
    (event : CalendarEvent) : list (string * CalendarEvent) :=
  let key := event_key event in
  if map_has key uniqueEvents then uniqueEvents
  else uniqueEvents ++ [(key, event)].

Definition deduplicate (allEvents : list CalendarEvent) : list CalendarEvent :=
  (foldl dedup_step [] allEvents).*2.

(** [Array.prototype.sort] is stable; with a comparator [cmp] it is the
    insertion of each element before the first later element that it does
    not follow. A NaN comparator result counts as 0. *)
Section sort.
Context {A : Type} (cmp : A → A → Z).

Fixpoint sort_insert (x : A) (l : list A) : list A :=
  match l with
  | [] => [x]
  | y :: l' => if bool_decide (cmp x y ≤ 0) then x :: l else y :: sort_insert x l'
  end.

Definition array_sort (l : list A) : list A := foldr sort_insert [] l.
End sort.

Definition number_sub (a b : option Z) : Z :=
  match a, b with Some x, Some y => x - y | _, _ => 0 end.

Definition by_start (a b : CalendarEvent) : Z :=
  number_sub (getTime (start a)) (getTime (start b)).

(** The event list [parseICSData] assigns to [this.events]. *)
Definition materialize (fuel : nat) (fourWeeksAgo sixWeeksLater : JSDate)
    (vevents : list ICAL.Event) : option (list CalendarEvent) :=
  allEvents ← forEach_vevent fuel fourWeeksAgo sixWeeksLater vevents [];
  Some (array_sort by_start (deduplicate allEvents)).

(** ** Settings, persisted data and the plugin's world *)

Record MeetingNotesSettings : Type := mkSettings {
  icsUrl : string;
  templatePath : string;
  notesFolder : string;
  trimTeamsLinks : bool;
  hideAllDayEvents : bool
}.

Definition DEFAULT_SETTINGS : MeetingNotesSettings :=
  {| icsUrl := "";
     templatePath := "Templates/Meeting";
     notesFolder := "Notes";
     trimTeamsLinks := true;
     hideAllDayEvents := false |}.

(** An element of [data.cachedEvents]: an event whose dates are strings. *)
Record CachedEvent : Type := mkCachedEvent {
  c_uid : string;
  c_summary : string;
  c_description : string;
  c_location : string;
  c_start : string;
  c_end : string;
  c_attendees : list string
}.

(** A value stored under a key of [data.json], as far as the plugin tells
    values apart: the scalars, an array whose elements are event objects
    (with the seven fields, as [saveEvents] writes them, whatever their
    date strings hold) or [null], and any other object that is not an
    array. An array with an element of another shape (a number, a string,
    an object that lacks a field) is not represented: [map] does not throw
    on it and makes entries that are no [CalendarEvent], with an invalid
    date where the element has no [start] or [end]. *)
Inductive JsonValue : Type :=
  | JNull
  | JBool (b : bool)
  | JNumber (n : Z)
  | JString (s : string)
  | JEvents (items : list (option CachedEvent))
  | JOther.

Definition json_truthy (v : JsonValue) : bool :=
  match v with
  | JNull => false
  | JBool b => b
  | JNumber n => negb (bool_decide (n = 0))
  | JString s => truthy s
  | JEvents _ => true
  | JOther => true
  end.

(** The plugin's data file: absent, not parseable, or a record. *)
Inductive Disk : Type :=
  | NoData
  | Unreadable
  | Data (data : gmap string JsonValue).

(** What the plugin shows or logs; a logged text that depends on the locale
    is cut down to its fixed part. *)
Inductive Effect : Type :=
  | Notice (msg : string)
  | ConsoleLog (msg : string)
  | ConsoleError (msg : string)
  | RefreshViews.

Record Plugin : Type := mkPlugin {
  settings : MeetingNotesSettings;
  events : list CalendarEvent
}.

Record World : Type := mkWorld {
  plugin : Plugin;
  disk : Disk;
  effects : list Effect
}.

(** What the plugin's surroundings decide: the clock read by [new Date()],
    the offset of the local time zone at a time value (ECMAScript's
    [LocalTZA]: [isUTC] tells whether the time value is UTC or local), what
    the engine makes of a date string outside the ISO format, what
    [ICAL.parse] returns for a feed text ([None]: it throws), what
    [requestUrl] answers for an address, as status and text ([None]: it
    rejects), and whether [saveData] succeeds. *)
Record Host : Type := mkHost {
  now : Z;
  LocalTZA : Z → bool → Z;
  legacy_parse : string → JSDate;
  ICAL_parse : string → option (list ICAL.Event);
  requestUrl : string → option (Z * string);
  disk_write_ok : bool
}.

(** ** Computations that change the world and may throw *)

Inductive Outcome (A : Type) : Type :=
  | Returned (a : A) (w : World)
  | Thrown (w : World)
  | OutOfFuel.
Global Arguments Returned {A} a w.
Global Arguments Thrown {A} w.
Global Arguments OutOfFuel {A}.

Definition Run (A : Type) : Type := World → Outcome A.

Global Instance Run_ret : MRet Run := λ A a w, Returned a w.
Global Instance Run_bind : MBind Run := λ A B f m w,
  match m w with
  | Returned a w' => f a w'
  | Thrown w' => Thrown w'
  | OutOfFuel => OutOfFuel
  end.

Definition throw {A} : Run A := λ w, Thrown w.

Definition try_catch {A} (body handler : Run A) : Run A := λ w,
  match body w with
  | Thrown w' => handler w'
  | o => o
  end.

(** A value that an external call returns, or the exception it throws. *)
Definition or_throw {A} (r : option A) : Run A :=
  match r with Some a => mret a | None => throw end.

(** The result of a fuelled loop. *)
Definition or_diverge {A} (r : option A) : Run A :=
  match r with Some a => mret a | None => λ _, OutOfFuel end.

Definition when (b : bool) (m : Run ()) : Run () := if b then m else mret ().

Definition emit (e : Effect) : Run () := λ w,
  Returned () {| plugin := plugin w; disk := disk w; effects := effects w ++ [e] |}.

Definition get_settings : Run MeetingNotesSettings := λ w, Returned (settings (plugin w)) w.
Definition get_events : Run (list CalendarEvent) := λ w, Returned (events (plugin w)) w.
Definition set_events (evs : list CalendarEvent) : Run () := λ w,
  Returned () {| plugin := {| settings := settings (plugin w); events := evs |};
                 disk := disk w; effects := effects w |}.

Definition loadData : Run (option (gmap string JsonValue)) := λ w,
  match disk w with
  | NoData => Returned None w
  | Unreadable => Thrown w
  | Data data => Returned (Some data) w
  end.

Definition saveData (host : Host) (data : gmap string JsonValue) : Run () := λ w,
  if disk_write_ok host
  then Returned () {| plugin := plugin w; disk := Data data; effects := effects w |}
  else Thrown w.

(** ** The event store: loadCachedEvents and saveEvents *)

Definition revive (host : Host) (event : CachedEvent) : CalendarEvent :=
  {| uid := c_uid event;
     summary := c_summary event;
     description := c_description event;
     location := c_location event;
     start := Date_parse (legacy_parse host) (c_start event);
     end_ := Date_parse (legacy_parse host) (c_end event);
     attendees := c_attendees event |}.

(** [data.cachedEvents.map(...)]: [None] is the TypeError raised when the
    value has no [map] or an element is [null]. *)
Definition map_revive (host : Host) (v : JsonValue) : option (list CalendarEvent) :=
  match v with
  | JEvents items => mapM (fmap (revive host)) items
  | _ => None
  end.

Definition loadCachedEvents (host : Host) : Run () :=
  try_catch
    (data ← loadData;
     match data ≫= (.!! "cachedEvents") with
     | Some cachedEvents =>
       if json_truthy cachedEvents then
         evs ← or_throw (map_revive host cachedEvents);
         set_events evs;;
         emit (ConsoleLog ("Loaded " +:+ pretty (length evs) +:+ " cached events"));;
         emit RefreshViews
       else mret ()
     | None => mret ()
     end)
    (emit (ConsoleError "Error loading cached events:")).

Definition serialize (event : CalendarEvent) : option CachedEvent :=
  s ← toISOString (start event);
  e ← toISOString (end_ event);
  Some {| c_uid := uid event;
          c_summary := summary event;
          c_description := description event;
          c_location := location event;
          c_start := s;
          c_end := e;
          c_attendees := attendees event |}.

Definition saveEvents (host : Host) : Run () :=
  try_catch
    (loaded ← loadData;
     let data := default ∅ loaded in
     evs ← get_events;
     cachedEvents ← or_throw (mapM serialize evs);
     saveData host (<["cachedEvents" := JEvents (Some <$> cachedEvents)]> data);;
     emit (ConsoleLog ("Cached " +:+ pretty (length evs) +:+ " events")))
    (emit (ConsoleError "Error saving events:")).

(** ** The refresh pipeline: fetchCalendarEvents and parseICSData *)

(** Local time in the zone of the host, as ECMAScript defines it. *)
Definition LocalTime (zone : Z → bool → Z) (t : Z) : Z := t + zone t true.
Definition UTC (zone : Z → bool → Z) (t : Z) : Z := t - zone t false.

(** The methods of [Date] that work on local time, for any zone. *)
Module Local.
Section zone.
Context (zone : Z → bool → Z).

Definition getDate (d : JSDate) : option Z :=
  (λ t, DateFromTime (LocalTime zone t)) <$> getTime d.
Definition getHours (d : JSDate) : option Z :=
  (λ t, HourFromTime (LocalTime zone t)) <$> getTime d.
Definition getMinutes (d : JSDate) : option Z :=
  (λ t, MinFromTime (LocalTime zone t)) <$> getTime d.

(** [d.setDate(date)]: the same local month and time of day. *)
Definition setDate (d : JSDate) (date : option Z) : JSDate :=
  new_Date
    (t ← getTime d;
     dt ← date;
     let t := LocalTime zone t in
     let newDate :=
       MakeDate (MakeDay (YearFromTime t) (MonthFromTime t) dt) (TimeWithinDay t) in
     Some (UTC zone newDate)).

(** [d.setHours(hour, min, sec, ms)]: the same local day. *)
Definition setHours (d : JSDate) (hour min sec ms : Z) : JSDate :=
  new_Date
    ((λ t, UTC zone (MakeDate (Day (LocalTime zone t)) (MakeTime hour min sec ms)))
       <$> getTime d).

End zone.
End Local.

(** The window of [parseICSData]: four weeks before and six weeks after
    the local date of today, at today's local time of day. *)
Definition fourWeeksAgo (host : Host) : JSDate :=
  let today := TimeClip (now host) in
  Local.setDate (LocalTZA host) today
    (number_add (Local.getDate (LocalTZA host) today) (-28)).

Definition sixWeeksLater (host : Host) : JSDate :=
  let today := TimeClip (now host) in
  Local.setDate (LocalTZA host) today
    (number_add (Local.getDate (LocalTZA host) today) 42).

(** The events that [vevents.forEach] gets through before one throws. *)
Fixpoint before_throw (vevents : list ICAL.Event) : list ICAL.Event :=
  match vevents with
  | [] => []
  | vevent :: rest =>
    if ICAL.throws vevent then [] else vevent :: before_throw rest
  end.

Definition parseICSData (host : Host) (fuel : nat) (icsData : string) : Run () :=
  try_catch
    (vevents ← or_throw (ICAL_parse host icsData);
     emit (ConsoleLog "Filtering events");;
     if existsb ICAL.throws vevents then
       or_diverge (forEach_vevent fuel (fourWeeksAgo host) (sixWeeksLater host)
                     (before_throw vevents) []);;
       throw
     else
       evs ← or_diverge (materialize fuel (fourWeeksAgo host) (sixWeeksLater host)
                           vevents);
       set_events evs;;
       saveEvents host;;
       emit RefreshViews)
    (emit (ConsoleError "Error parsing ICS data:");;
     emit (Notice "Error parsing calendar data")).

Definition fetchCalendarEvents (host : Host) (fuel : nat) (isManual : bool) : Run () :=
  st ← get_settings;
  if negb (truthy (icsUrl st)) then
    when isManual (emit (Notice "Please configure ICS URL in settings"))
  else
    try_catch
      (when isManual (emit (Notice "Fetching calendar events..."));;
       response ← or_throw (requestUrl host (icsUrl st));
       (if bool_decide (response.1 ≠ 200) then throw else mret ());;
       parseICSData host fuel response.2;;
       evs ← get_events;
       when isManual
         (emit (Notice ("Loaded " +:+ pretty (length evs) +:+ " calendar events")));;
       emit (ConsoleLog "Calendar events loaded:");;
       mapM (λ event, emit (ConsoleLog ("- " +:+ summary event))) evs;;
       mret ())
      (emit (ConsoleError "Error fetching calendar:");;
       when isManual
         (emit (Notice "Error fetching calendar events. Check console for details."))).

(** ** The day query: getEventsForDate *)

Definition number_eq (a : option Z) (k : Z) : bool :=
  match a with Some x => bool_decide (x = k) | None => false end.

Definition getHours (tz : Z) (d : JSDate) : option Z :=
  (λ t, HourFromTime (t + tz)) <$> getTime d.
Definition getMinutes (tz : Z) (d : JSDate) : option Z :=
  (λ t, MinFromTime (t + tz)) <$> getTime d.

(** [d.setHours(hour, min, sec, ms)]: same local day, given local time. *)
Definition setHours (tz : Z) (d : JSDate) (hour min sec ms : Z) : JSDate :=
  new_Date ((λ t, MakeDate (Day (t + tz)) (MakeTime hour min sec ms) - tz) <$> getTime d).

Definition isAllDayEvent (tz : Z) (event : CalendarEvent) : bool :=
  let startHours := getHours tz (start event) in
  let startMinutes := getMinutes tz (start event) in
  let endHours := getHours tz (end_ event) in
  let endMinutes := getMinutes tz (end_ event) in
  number_eq startHours 0 && number_eq startMinutes 0
  && number_eq endHours 0 && number_eq endMinutes 0.

(** The day-overlap test [matches] of the filter. *)
Definition matches (dayStart dayEnd eventStart eventEnd : JSDate) : bool :=
  (date_ge eventStart dayStart && date_le eventStart dayEnd)
  || (date_ge eventEnd dayStart && date_le eventEnd dayEnd)
  || (date_lt eventStart dayStart && date_gt eventEnd dayEnd).

(** The predicate of [this.plugin.events.filter]. *)
Definition overlaps_day (tz : Z) (hide : bool) (dayStart dayEnd : JSDate)
    (event : CalendarEvent) : bool :=
  let eventStart := start event in
  let isAllDay := isAllDayEvent tz event in
  if hide && isAllDay then false
  else
    let eventEnd :=
      if isAllDay then new_Date (number_add (getTime (end_ event)) (-1))
      else end_ event in
    matches dayStart dayEnd eventStart eventEnd.

Definition display_order (tz : Z) (a b : CalendarEvent) : Z :=
  let aIsAllDay := isAllDayEvent tz a in
  let bIsAllDay := isAllDayEvent tz b in
  if aIsAllDay && negb bIsAllDay then -1
  else if negb aIsAllDay && bIsAllDay then 1
  else number_sub (getTime (start a)) (getTime (start b)).

Definition getEventsForDate (tz : Z) (pl : Plugin) (date : JSDate)
    : list CalendarEvent :=
  let dayStart := setHours tz date 0 0 0 0 in
  let dayEnd := setHours tz date 23 59 59 999 in
  let filtered :=
    List.filter (overlaps_day tz (hideAllDayEvents (settings pl)) dayStart dayEnd)
      (events pl) in
  array_sort (display_order tz) filtered.

(** ** Vocabulary of the statements *)

(** [made_from ws we event ev]: [ev] is what [parseICSData] pushes for the
    descriptor [event] under the window from [ws] to [we]. *)
Definition made_from (ws we : JSDate) (event : ICAL.Event) (ev : CalendarEvent) : Prop :=
  let atts := extract_attendees (ICAL.attendeeCn event) in
  if ICAL.isRecurring event then
    ∃ i occurrence,
      ICAL.occurrences event i = Some occurrence
      ∧ date_ge occurrence ws && date_le occurrence we = true
      ∧ ev = occurrence_event event atts occurrence
  else
    date_ge (ICAL.startDate event) ws && date_le (ICAL.startDate event) we = true
    ∧ ev = single_event event atts.

(** Deduplication as a scan that remembers the keys already seen. *)
Fixpoint dedup_from (seen : list string) (l : list CalendarEvent) : list CalendarEvent :=
  match l with
  | [] => []
  | event :: l' =>
    if bool_decide (event_key event ∈ seen) then dedup_from seen l'
    else event :: dedup_from (seen ++ [event_key event]) l'
  end.


(** A minus sign occurs in the string. *)
Fixpoint has_dash (s : string) : bool :=
  match s with
  | EmptyString => false
  | String c s' => bool_decide (c = "-"%char) || has_dash s'
  end.

(** The decoded times of a descriptor do not run backwards: a recurring
    event has a non-negative duration that keeps every occurrence starting
    by [e] representable, a single event does not end before it starts. *)
Definition forward_times (e : Z) (event : ICAL.Event) : Prop :=
  if ICAL.isRecurring event then
    0 ≤ ICAL.durationSeconds event
    ∧ e + ICAL.durationSeconds event * 1000 ≤ maxTime
  else date_ge (ICAL.endDate event) (ICAL.startDate event) = true.

(** The uid of a single event cannot be mistaken for the uid of an
    occurrence of a recurring event of the same feed. *)
Definition uids_apart (vevents : list ICAL.Event) : Prop :=
  ∀ single recurring (t : Z),
    single ∈ vevents → recurring ∈ vevents →
    ICAL.isRecurring single = false → ICAL.isRecurring recurring = true →
    ICAL.uid single ≠ ICAL.uid recurring +:+ "-" +:+ pretty t.

(** The order of the candidates a recurrence rule generates. *)
Definition non_decreasing (event : ICAL.Event) : Prop :=
  ∀ i j a b, (i ≤ j)%nat →
    ICAL.occurrences event i = Some a → ICAL.occurrences event j = Some b →
    date_le a b = true.

(** The rule ends, or its candidates pass every time: an expansion
    without end does not stay below a bound for ever. An expansion of
    ical.js steps its rule by a positive interval and merges finitely many
    listed dates, so that no start comes more than a bounded number of
    times. *)
Definition ends_or_passes (event : ICAL.Event) : Prop :=
  ∀ bound : Z, ∃ n,
    match ICAL.occurrences event n with
    | Some d => date_gt d (ValidDate bound) = true
    | None => True
    end.

Definition increasing (event : ICAL.Event) : Prop :=
  ∀ i j a b, (i < j)%nat →
    ICAL.occurrences event i = Some a → ICAL.occurrences event j = Some b →
    date_lt a b = true.

(** The loop is left at the [i]-th call of [next()]: the expansion is
    exhausted or the candidate is past the end of the window. *)
Definition stops_at (sixWeeksLater : JSDate) (event : ICAL.Event) (i : nat) : bool :=
  match ICAL.occurrences event i with
  | None => true
  | Some occurrence => date_gt occurrence sixWeeksLater
  end.

(** The events pushed for the [n] candidates from the [i]-th on. *)
Definition pushed (fourWeeksAgo sixWeeksLater : JSDate) (event : ICAL.Event)
    (atts : list string) (i n : nat) : list CalendarEvent :=
  occurrence_event event atts <$>
    List.filter (λ d, date_ge d fourWeeksAgo && date_le d sixWeeksLater)
      (omap (ICAL.occurrences event) (seq i n)).

(** The record a data file holds; an absent or unreadable file holds none. *)
Definition disk_record (d : Disk) : gmap string JsonValue :=
  match d with Data data => data | _ => ∅ end.

(** The cached events a data file offers: its [cachedEvents] entry when
    that is an array of event objects, none of them [null]. *)
Definition usable_cache (d : Disk) : option (list CachedEvent) :=
  match disk_record d !! "cachedEvents" with
  | Some (JEvents items) => mapM id items
  | _ => None
  end.

(** The world in which [onload] calls [loadCachedEvents]: no event yet. *)
Definition startup (st : MeetingNotesSettings) (d : Disk) : World :=
  {| plugin := {| settings := st; events := [] |}; disk := d; effects := [] |}.

(** The notifications among the effects. *)
Definition notices (l : list Effect) : list string :=
  omap (λ e, match e with Notice msg => Some msg | _ => None end) l.

(** Two worlds with the same plugin state and data file, whatever was
    shown or logged on the way; two outcomes that agree up to that. *)
Definition same_state (w1 w2 : World) : Prop :=
  plugin w1 = plugin w2 ∧ disk w1 = disk w2.

Definition agree {A} (o1 o2 : Outcome A) : Prop :=
  match o1, o2 with
  | Returned a1 w1, Returned a2 w2 => a1 = a2 ∧ same_state w1 w2
  | Thrown w1, Thrown w2 => same_state w1 w2
  | OutOfFuel, OutOfFuel => True
  | _, _ => False
  end.

Definition alike {A} (m1 m2 : Run A) : Prop :=
  ∀ w1 w2, same_state w1 w2 → agree (m1 w1) (m2 w2).

(** The feed text is one that [parseICSData] fails on: [ICAL.parse]
    rejects it, or reading one of its events throws. *)
Definition unreadable_feed (host : Host) (text : string) : bool :=
  match ICAL_parse host text with
  | Some vevents => existsb ICAL.throws vevents
  | None => true
  end.

(** The refresh reaches [parseICSData], which fails on the feed text. *)
Definition parse_fails (host : Host) (st : MeetingNotesSettings) : bool :=
  truthy (icsUrl st) &&
  match requestUrl host (icsUrl st) with
  | Some (status, text) => bool_decide (status = 200) && unreadable_feed host text
  | None => false
  end.

(** Both dates of the event are valid and representable. *)
Definition valid_times (event : CalendarEvent) : Prop :=
  ∃ s e, start event = ValidDate s ∧ end_ event = ValidDate e
    ∧ Z.abs s ≤ maxTime ∧ Z.abs e ≤ maxTime.

(** The world after the application is started again over the same data
    file: the settings as they were, no event in memory. *)
Definition restart (w : World) : World := startup (settings (plugin w)) (disk w).

(** ** Sample feeds *)

Definition daily_rule (first : Z) : nat → option JSDate :=
  λ i, Some (ValidDate (first + Z.of_nat i * msPerDay)).

Definition no_rule : nat → option JSDate := λ _, None.

(** Midnight UTC of 2025-01-01, 2025-06-01, 2025-06-03. *)
Definition jan01 : Z := 1735689600000.
Definition jun01 : Z := 1748736000000.
Definition jun03 : Z := 1748908800000.

(** A daily one-hour event from 2025-01-01 on, without end. *)
Definition standup : ICAL.Event :=
  {| ICAL.throws := false;
     ICAL.uid := "standup";
     ICAL.summary := Some "Standup";
     ICAL.description := None;
     ICAL.location := Some "Room 1";
     ICAL.isRecurring := true;
     ICAL.startDate := ValidDate jan01;
     ICAL.endDate := ValidDate (jan01 + msPerHour);
     ICAL.durationSeconds := 3600;
     ICAL.occurrences := daily_rule jan01;
     ICAL.attendeeCn := [ICAL.CnText "Ann"; ICAL.CnAbsent; ICAL.CnList ["Bob"; "Cy"]] |}.

(** A single event on 2025-06-02 with the given uid, title and end. *)
Definition single (uid title : string) (ends : Z) : ICAL.Event :=
  {| ICAL.throws := false;
     ICAL.uid := uid;
     ICAL.summary := Some title;
     ICAL.description := None;
     ICAL.location := None;
     ICAL.isRecurring := false;
     ICAL.startDate := ValidDate (jun01 + msPerDay);
     ICAL.endDate := ValidDate ends;
     ICAL.durationSeconds := (ends - (jun01 + msPerDay)) `div` 1000;
     ICAL.occurrences := no_rule;
     ICAL.attendeeCn := [] |}.

(** A daily rule without end that yields every start twice, as a rule
    does beside a list of the same dates. *)
Definition paired_rule (first : Z) : nat → option JSDate :=
  λ i, Some (ValidDate (first + Z.of_nat (i `div` 2) * msPerDay)).

Definition rounds : ICAL.Event :=
  {| ICAL.throws := false;
     ICAL.uid := "rounds";
     ICAL.summary := Some "Rounds";
     ICAL.description := None;
     ICAL.location := None;
     ICAL.isRecurring := true;
     ICAL.startDate := ValidDate jun01;
     ICAL.endDate := ValidDate (jun01 + msPerHour);
     ICAL.durationSeconds := 3600;
     ICAL.occurrences := paired_rule jun01;
     ICAL.attendeeCn := [] |}.

(** A single event of no length at the time [t], with the given uid and
    title. *)
Definition at_time (uid title : string) (t : Z) : ICAL.Event :=
  {| ICAL.throws := false;
     ICAL.uid := uid;
     ICAL.summary := Some title;
     ICAL.description := None;
     ICAL.location := None;
     ICAL.isRecurring := false;
     ICAL.startDate := ValidDate t;
     ICAL.endDate := ValidDate t;
     ICAL.durationSeconds := 0;
     ICAL.occurrences := no_rule;
     ICAL.attendeeCn := [] |}.


(** A VEVENT without DTSTART: reading it throws. *)
Definition no_dtstart : ICAL.Event :=
  {| ICAL.throws := true;
     ICAL.uid := "broken";
     ICAL.summary := Some "Broken";
     ICAL.description := None;
     ICAL.location := None;
     ICAL.isRecurring := false;
     ICAL.startDate := InvalidDate;
     ICAL.endDate := InvalidDate;
     ICAL.durationSeconds := 0;
     ICAL.occurrences := no_rule;
     ICAL.attendeeCn := [] |}.

(** A recurring event that ends a minute before it starts. *)
Definition rewinding : ICAL.Event :=
  {| ICAL.throws := false;
     ICAL.uid := "rewinding";
     ICAL.summary := Some "Rewind";
     ICAL.description := None;
     ICAL.location := None;
     ICAL.isRecurring := true;
     ICAL.startDate := ValidDate jun01;
     ICAL.endDate := ValidDate (jun01 - msPerMinute);
     ICAL.durationSeconds := -60;
     ICAL.occurrences := daily_rule jun01;
     ICAL.attendeeCn := [] |}.

(** Midnight UTC of 2025-06-10, 2025-06-11 and 2025-06-12. *)
Definition jun10 : Z := 1749513600000.
Definition jun11 : Z := 1749600000000.
Definition jun12 : Z := 1749686400000.

(** An all-day event on 2025-06-10 in the time zone of offset [tz]. *)
Definition holiday (tz : Z) : CalendarEvent :=
  {| uid := "holiday";
     summary := "Holiday";
     description := "";
     location := "";
     start := ValidDate (jun10 - tz);
     end_ := ValidDate (jun11 - tz);
     attendees := [] |}.

Definition hiding : MeetingNotesSettings :=
  {| icsUrl := "https://example.com/calendar.ics";
     templatePath := "Templates/Meeting";
     notesFolder := "Notes";
     trimTeamsLinks := true;
     hideAllDayEvents := true |}.

Definition showing : MeetingNotesSettings :=
  {| icsUrl := "https://example.com/calendar.ics";
     templatePath := "Templates/Meeting";
     notesFolder := "Notes";
     trimTeamsLinks := true;
     hideAllDayEvents := false |}.

(** A host whose calendar server answers every request with the same
    text, which [ICAL.parse] reads as [feed] ([None]: it rejects the text). *)
Definition sample_host (feed : option (list ICAL.Event)) : Host :=
  {| now := jun01 + 28 * msPerDay;
     LocalTZA := λ _ _, 0;
     legacy_parse := λ _, InvalidDate;
     ICAL_parse := λ _, feed;
     requestUrl := λ _, Some (200, "BEGIN:VCALENDAR");
     disk_write_ok := true |}.


(** A world with two events in memory and a data file that holds the
    calendar address only. *)
Definition two_events : World :=
  {| plugin :=
       {| settings := showing;
          events := [holiday 7200000;
                     occurrence_event standup ["Ann"; "Bob"; "Cy"] (ValidDate jun10)] |};
     disk := Data {[ "icsUrl" := JString "https://example.com/calendar.ics" ]};
     effects := [] |}.

(** A timed event from 22:00 on 2025-06-10 to 01:00 on 2025-06-11, UTC. *)
Definition late_call : CalendarEvent :=
  {| uid := "call";
     summary := "Late call";
     description := "";
     location := "";
     start := ValidDate (jun10 + 22 * msPerHour);
     end_ := ValidDate (jun11 + msPerHour);
     attendees := ["Ann"] |}.

(** A rule whose candidates are out of order: a start after the window
    comes before one inside it. *)
Definition unordered_rule : ICAL.Event :=
  {| ICAL.throws := false;
     ICAL.uid := "unordered";
     ICAL.summary := Some "Unordered";
     ICAL.description := None;
     ICAL.location := None;
     ICAL.isRecurring := true;
     ICAL.startDate := ValidDate jun01;
     ICAL.endDate := ValidDate jun01;
     ICAL.durationSeconds := 0;
     ICAL.occurrences :=
       λ i, match i with
            | O => Some (ValidDate (jun03 + msPerDay))
            | 1%nat => Some (ValidDate jun01)
            | _ => None
            end;
     ICAL.attendeeCn := [] |}.

(** An event whose end is not a date, as [loadCachedEvents] makes it from
    a cache entry with an unreadable end. *)
Definition endless : CalendarEvent :=
  {| uid := "endless";
     summary := "Endless";
     description := "";
     location := "";
     start := ValidDate jun10;
     end_ := InvalidDate;
     attendees := [] |}.

(** A world that holds it beside a sound event. *)
Definition with_endless : World :=
  {| plugin := {| settings := showing; events := [late_call; endless] |};
     disk := Data {[ "icsUrl" := JString "https://example.com/calendar.ics" ]};
     effects := [] |}.

(** A host whose calendar server cannot be reached, and one whose server
    answers with status 404. *)
Definition offline_host : Host :=
  {| now := jun01 + 28 * msPerDay;
     LocalTZA := λ _ _, 0;
     legacy_parse := λ _, InvalidDate;
     ICAL_parse := λ _, Some [];
     requestUrl := λ _, None;
     disk_write_ok := true |}.

Definition not_found_host : Host :=
  {| now := jun01 + 28 * msPerDay;
     LocalTZA := λ _ _, 0;
     legacy_parse := λ _, InvalidDate;
     ICAL_parse := λ _, Some [];
     requestUrl := λ _, Some (404, "Not Found");
     disk_write_ok := true |}.

(** ** The settings object: loadSettings, saveSettings, the settings tab *)

(** [this.settings] as the object it is at run time. [Object.assign] copies
    every own property of a source over the target, whatever its name;
    a source that is [null] is skipped. *)
Definition DEFAULT_SETTINGS_object : gmap string JsonValue :=
  list_to_map
    [("icsUrl", JString (icsUrl DEFAULT_SETTINGS));
     ("templatePath", JString (templatePath DEFAULT_SETTINGS));
     ("notesFolder", JString (notesFolder DEFAULT_SETTINGS));
     ("trimTeamsLinks", JBool (trimTeamsLinks DEFAULT_SETTINGS));
     ("hideAllDayEvents", JBool (hideAllDayEvents DEFAULT_SETTINGS))].

Definition Object_assign (target : gmap string JsonValue)
    (sources : list (option (gmap string JsonValue))) : gmap string JsonValue :=
  foldl (λ target source, default ∅ source ∪ target) target sources.

(** [loadSettings] returns the object it assigns to [this.settings]. *)
Definition loadSettings : Run (gmap string JsonValue) :=
  data ← loadData;
  mret (Object_assign ∅ [Some DEFAULT_SETTINGS_object; data]).

Definition saveSettings (host : Host) (settings_object : gmap string JsonValue)
    : Run () :=
  saveData host settings_object.

(** The [onChange] handler of a control of the settings tab: it sets one
    property of [this.plugin.settings] and saves; the result is the
    settings object after the assignment. *)
Definition onChange (host : Host) (key : string) (value : JsonValue)
    (settings_object : gmap string JsonValue) : Run (gmap string JsonValue) :=
  let settings_object := <[key := value]> settings_object in
  saveSettings host settings_object;;
  mret settings_object.

(** A data file whose cache holds one event with garbled dates. *)
Definition garbled_cache : Disk :=
  Data {[ "cachedEvents" :=
            JEvents [Some {| c_uid := "call"; c_summary := "Late call";
                             c_description := ""; c_location := "";
                             c_start := "yesterday"; c_end := "";
                             c_attendees := ["Ann"] |}] ]}.

(** A world whose data file holds a cache of one event. *)
Definition cached_call : World :=
  {| plugin := {| settings := showing; events := [late_call] |};
     disk := Data (<["cachedEvents" :=
                      JEvents [Some {| c_uid := "call"; c_summary := "Late call";
                                       c_description := ""; c_location := "";
                                       c_start := "2025-06-10T22:00:00.000Z";
                                       c_end := "2025-06-11T01:00:00.000Z";
                                       c_attendees := ["Ann"] |}]]>
                    {[ "icsUrl" := JString "https://example.com/calendar.ics" ]});
     effects := [] |}.

(** ** Labels of the day view: isMultiDayEvent *)

(** [a - b] and [a / k] on numbers, NaN included. The quotient is kept
    exact: its operands are integers below 2^54, for which the rounding of
    the difference and of the quotient to a double does not change their
    order relative to an integer. *)
Definition number_minus (a b : option Z) : option Z :=
  x ← a; y ← b; Some (x - y).

Definition number_div (a : option Z) (k : positive) : option QArith_base.Q :=
  (λ x, QArith_base.Qmake x k) <$> a.

Definition quotient_gt (a : option QArith_base.Q) (k : Z) : bool :=
  match a with
  | Some q => negb (QArith_base.Qle_bool q (QArith_base.inject_Z k))
  | None => false
  end.

(** [isAllDayEvent] for any zone. *)
Definition isAllDayEvent_in (zone : Z → bool → Z) (event : CalendarEvent) : bool :=
  let startHours := Local.getHours zone (start event) in
  let startMinutes := Local.getMinutes zone (start event) in
  let endHours := Local.getHours zone (end_ event) in
  let endMinutes := Local.getMinutes zone (end_ event) in
  number_eq startHours 0 && number_eq startMinutes 0
  && number_eq endHours 0 && number_eq endMinutes 0.

Definition isMultiDayEvent (zone : Z → bool → Z) (event : CalendarEvent) : bool :=
  let isAllDay := isAllDayEvent_in zone event in
  let startDate := Local.setHours zone (start event) 0 0 0 0 in
  let endDate := Local.setHours zone (end_ event) 0 0 0 0 in
  let daysDiff :=
    number_div (number_minus (getTime endDate) (getTime startDate))
      (1000 * 60 * 60 * 24) in
  if isAllDay then quotient_gt daysDiff 1
  else num_lt (getTime startDate) (getTime endDate).

(** The offset that [zone] gives for the local midnight that opens the local
    day of [t]: what [setHours(0, 0, 0, 0)] subtracts from that midnight. *)
Definition midnight_offset (zone : Z → bool → Z) (t : Z) : Z :=
  zone (Day (LocalTime zone t) * msPerDay) false.

(** A zone three hours east of UTC until 2025-10-26T01:00Z and two hours
    east from then on, as Helsinki has it in 2025; a local time that occurs
    twice counts as the earlier one. *)
Definition autumn_change : Z := 1761440400000.

Definition helsinki : Z → bool → Z := λ t isUTC,
  if isUTC then
    if bool_decide (t < autumn_change) then 3 * msPerHour else 2 * msPerHour
  else
    if bool_decide (t < autumn_change + 3 * msPerHour) then 3 * msPerHour
    else 2 * msPerHour.

(** The all-day event of 2025-10-26 in that zone: from local midnight to
    the next local midnight, 25 hours later. *)
Definition long_sunday : CalendarEvent :=
  {| uid := "sunday";
     summary := "Long Sunday";
     description := "";
     location := "";
     start := ValidDate (autumn_change - 4 * msPerHour);
     end_ := ValidDate (autumn_change + 21 * msPerHour);
     attendees := [] |}.

(** Two events six weeks after 2025-10-01: at 11:30 and at 12:30, local
    time. *)
Definition november_feed : list ICAL.Event :=
  [at_time "in" "Inside"
     (autumn_change + 17 * msPerDay + 8 * msPerHour + 30 * msPerMinute);
   at_time "out" "Outside"
     (autumn_change + 17 * msPerDay + 8 * msPerHour + 90 * msPerMinute)].

(** A host in that zone on 2025-10-01 at noon, local time. *)
Definition helsinki_host (feed : option (list ICAL.Event)) : Host :=
  {| now := autumn_change - 25 * msPerDay + 8 * msPerHour;
     LocalTZA := helsinki;
     legacy_parse := λ _, InvalidDate;
     ICAL_parse := λ _, feed;
     requestUrl := λ _, Some (200, "BEGIN:VCALENDAR");
     disk_write_ok := true |}.

(** A whole-day entry whose end carries seconds, and an entry of no
    length at midnight, 2025-06-10 UTC. *)
Definition loose_day : CalendarEvent :=
  {| uid := "loose";
     summary := "Loose day";
     description := "";
     location := "";
     start := ValidDate jun10;
     end_ := ValidDate (jun11 + 30 * msPerSecond);
     attendees := [] |}.

Definition midnight_mark : CalendarEvent :=
  {| uid := "mark";
     summary := "Midnight";
     description := "";
     location := "";
     start := ValidDate jun10;
     end_ := ValidDate jun10;
     attendees := [] |}.

(** ** Strings as the note code handles them

    A string stands for its UTF-8 encoding, one [ascii] for every byte, so
    that any text of a feed or a template is covered. Searching, cutting at
    a match, splitting at a line feed and joining are the same on the bytes
    as on the code units of the string; the characters that [trim] and the
    dot of a regular expression single out are recognized by their byte
    sequences. *)

Definition byte (c : ascii) : N := N_of_ascii c.

Definition LF : ascii := ascii_of_N 10.
Definition double_quote : ascii := ascii_of_N 34.

(** The number of bytes of the ECMAScript LineTerminator at the head of
    the string (LF, CR, U+2028, U+2029), 0 when there is none. *)
Definition terminator_length (s : string) : nat :=
  match s with
  | String c1 r1 =>
    if bool_decide (byte c1 = 10 ∨ byte c1 = 13)%N then 1%nat
    else
      match r1 with
      | String c2 (String c3 _) =>
        if bool_decide (byte c1 = 226 ∧ byte c2 = 128
                        ∧ (byte c3 = 168 ∨ byte c3 = 169))%N
        then 3%nat else 0%nat
      | _ => 0%nat
      end
  | EmptyString => 0%nat
  end.

(** White space and line terminators of one, two and three bytes: TAB, LF,
    VT, FF, CR, SP; U+00A0; U+1680, U+2000 to U+200A, U+2028, U+2029,
    U+202F, U+205F, U+3000, U+FEFF. *)
Definition space1 (c1 : ascii) : bool :=
  bool_decide (9 ≤ byte c1 ≤ 13 ∨ byte c1 = 32)%N.

Definition space2 (c1 c2 : ascii) : bool :=
  bool_decide (byte c1 = 194 ∧ byte c2 = 160)%N.

Definition space3 (c1 c2 c3 : ascii) : bool :=
  bool_decide
    ((byte c1 = 225 ∧ byte c2 = 154 ∧ byte c3 = 128)
     ∨ (byte c1 = 226 ∧ byte c2 = 128
        ∧ (128 ≤ byte c3 ≤ 138 ∨ byte c3 = 168 ∨ byte c3 = 169 ∨ byte c3 = 175))
     ∨ (byte c1 = 226 ∧ byte c2 = 129 ∧ byte c3 = 159)
     ∨ (byte c1 = 227 ∧ byte c2 = 128 ∧ byte c3 = 128)
     ∨ (byte c1 = 239 ∧ byte c2 = 187 ∧ byte c3 = 191))%N.

Fixpoint trimStart (s : string) : string :=
  match s with
  | String c1 r1 =>
    if space1 c1 then trimStart r1
    else
      match r1 with
      | String c2 r2 =>
        if space2 c1 c2 then trimStart r2
        else
          match r2 with
          | String c3 r3 => if space3 c1 c2 c3 then trimStart r3 else s
          | EmptyString => s
          end
      | EmptyString => s
      end
  | EmptyString => EmptyString
  end.

(** The string is cut where nothing but white space follows. *)
Fixpoint trimEnd (s : string) : string :=
  match s with
  | String c r =>
    if bool_decide (trimStart s = EmptyString) then EmptyString
    else String c (trimEnd r)
  | EmptyString => EmptyString
  end.

Definition trim (s : string) : string := trimEnd (trimStart s).

(** [s.substring(0, s.indexOf(marker))]; [None] when [indexOf] is -1. *)
Fixpoint before_first (marker s : string) : option string :=
  if String.prefix marker s then Some EmptyString
  else
    match s with
    | String c r => String c <$> before_first marker r
    | EmptyString => None
    end.

(** [s.split(sep)] for a separator of one character. *)
Fixpoint split (sep : ascii) (s : string) : list string :=
  match s with
  | String c r =>
    if bool_decide (c = sep) then EmptyString :: split sep r
    else
      match split sep r with
      | line :: lines => String c line :: lines
      | [] => [String c EmptyString]
      end
  | EmptyString => [EmptyString]
  end.

Definition join (sep : string) (l : list string) : string := String.concat sep l.

(** [String(n).padStart(targetLength, fill)] *)
Fixpoint fill_string (n : nat) (fill : ascii) (s : string) : string :=
  match n with
  | O => s
  | S n' => String fill (fill_string n' fill s)
  end.

Definition padStart (targetLength : nat) (fill : ascii) (s : string) : string :=
  fill_string (targetLength - String.length s) fill s.

(** The replacement text of [String.prototype.replace] for a pattern
    without capture groups: [$$] is a dollar sign, [$&] the match, [$`]
    what precedes the match in the whole string and [$'] what follows it;
    any other dollar sign stands for itself. *)
Fixpoint GetSubstitution (matched before after replacement : string) : string :=
  match replacement with
  | String c r =>
    if bool_decide (byte c = 36)%N then
      match r with
      | String c' r' =>
        if bool_decide (byte c' = 36)%N
        then String c (GetSubstitution matched before after r')
        else if bool_decide (byte c' = 38)%N
        then matched +:+ GetSubstitution matched before after r'
        else if bool_decide (byte c' = 96)%N
        then before +:+ GetSubstitution matched before after r'
        else if bool_decide (byte c' = 39)%N
        then after +:+ GetSubstitution matched before after r'
        else String c (GetSubstitution matched before after r)
      | EmptyString => String c EmptyString
      end
    else String c (GetSubstitution matched before after r)
  | EmptyString => EmptyString
  end.

(** The line at the head of the string, up to its terminator, and what
    follows the line. *)
Fixpoint line_of (s : string) : string :=
  match s with
  | String c r =>
    if bool_decide (terminator_length s = 0%nat) then String c (line_of r)
    else EmptyString
  | EmptyString => EmptyString
  end.

Fixpoint after_line (s : string) : string :=
  match s with
  | String c r =>
    if bool_decide (terminator_length s = 0%nat) then after_line r else s
  | EmptyString => EmptyString
  end.

(** [s.replace(/^key.*$/gm, replacement)] for a non-empty literal [key]
    that holds no line terminator: every line that starts with [key] is
    replaced as a whole. The scan is at the start of a line, inside a line
    it keeps, inside a line it has replaced, or inside a line terminator of
    several bytes; [before] is the part of the string already scanned. *)
Inductive Scan : Type :=
  | LineStart
  | Keeping
  | Replaced
  | Terminator (more : nat).

Fixpoint replace_scan (key replacement : string) (scan : Scan) (before s : string)
    : string :=
  match s with
  | String c r =>
    let next := replace_scan key replacement in
    let before' := before +:+ String c EmptyString in
    match scan with
    | Terminator (S more) =>
      String c (next (match more with O => LineStart | _ => Terminator more end)
                  before' r)
    | _ =>
      match terminator_length s with
      | O =>
        match scan with
        | LineStart =>
          if String.prefix key s
          then GetSubstitution (line_of s) before (after_line s) replacement
               +:+ next Replaced before' r
          else String c (next Keeping before' r)
        | Replaced => next Replaced before' r
        | _ => String c (next Keeping before' r)
        end
      | S more =>
        String c (next (match more with O => LineStart | _ => Terminator more end)
                    before' r)
      end
    end
  | EmptyString => EmptyString
  end.

Definition replace_lines (key replacement s : string) : string :=
  replace_scan key replacement LineStart EmptyString s.

(** ** Creating a note: sanitizeFilename and createNoteFromEvent *)

Definition getFullYear (tz : Z) (d : JSDate) : option Z :=
  (λ t, YearFromTime (t + tz)) <$> getTime d.
Definition getMonth (tz : Z) (d : JSDate) : option Z :=
  (λ t, MonthFromTime (t + tz)) <$> getTime d.
Definition getDate (tz : Z) (d : JSDate) : option Z :=
  (λ t, DateFromTime (t + tz)) <$> getTime d.

(** The characters of the class that the pattern removes, by their codes:
    slash, backslash, colon, asterisk, question mark, double quote, angle
    brackets and vertical bar. *)
Definition illegal (c : ascii) : bool :=
  bool_decide (byte c ∈ [47; 92; 58; 42; 63; 34; 60; 62; 124]%N).

Fixpoint sanitizeFilename (filename : string) : string :=
  match filename with
  | String c r =>
    if illegal c then sanitizeFilename r else String c (sanitizeFilename r)
  | EmptyString => EmptyString
  end.

Definition teamsMarker : string := fill_string 80 "_" EmptyString.

(** The constants [dateStr], [timeStr], [noteContent] and [fileName] of
    [createNoteFromEvent]. *)
Definition dateStr (tz : Z) (event : CalendarEvent) : string :=
  let year := getFullYear tz (start event) in
  let month := padStart 2 "0" (number_to_string (number_add (getMonth tz (start event)) 1)) in
  let day := padStart 2 "0" (number_to_string (getDate tz (start event))) in
  number_to_string year +:+ "-" +:+ month +:+ "-" +:+ day.

Definition timeStr (tz : Z) (event : CalendarEvent) : string :=
  let hours := padStart 2 "0" (number_to_string (getHours tz (start event))) in
  let minutes := padStart 2 "0" (number_to_string (getMinutes tz (start event))) in
  hours +:+ ":" +:+ minutes.

Definition noteContent (tz : Z) (st : MeetingNotesSettings) (event : CalendarEvent)
    (templateContent : string) : string :=
  let noteContent := templateContent in
  let noteContent := replace_lines "date:" ("date: " +:+ dateStr tz event) noteContent in
  let noteContent := replace_lines "time:" ("time: " +:+ timeStr tz event) noteContent in
  let noteContent :=
    if bool_decide (0 < length (attendees event))%nat then
      let attendeesList :=
        join (String LF EmptyString)
          ((λ a, "  - " +:+ String double_quote ("[[" +:+ a +:+ "]]"
                                +:+ String double_quote EmptyString))
             <$> attendees event) in
      replace_lines "attendees:"
        ("attendees:" +:+ String LF attendeesList) noteContent
    else replace_lines "attendees:" "attendees:" noteContent in
  let noteContent := replace_lines "description:" EmptyString noteContent in
  if truthy (description event) && truthy (trim (description event)) then
    let description :=
      if trimTeamsLinks st then
        match before_first teamsMarker (description event) with
        | Some kept => trim kept
        | None => description event
        end
      else description event in
    if truthy description then
      let quotedDescription :=
        join (String LF EmptyString)
          ((λ line, "> " +:+ line) <$> split LF description) in
      noteContent +:+ String LF (String LF ("## Meeting invite"
        +:+ String LF (String LF quotedDescription)))
    else noteContent
  else noteContent.

Definition fileName (tz : Z) (event : CalendarEvent) : string :=
  let sanitizedSummary := sanitizeFilename (summary event) in
  dateStr tz event +:+ " - " +:+ sanitizedSummary +:+ ".md".

Module CalendarView.

(** What the vault holds under a path. *)
Inductive AbstractFile : Type :=
  | TFile (content : string)
  | TFolder.

Inductive Effect : Type :=
  | Notice (msg : string)
  | ConsoleLog (msg : string)
  | ConsoleError (msg : string)
  | OpenLinkText (linktext : string).

(** What Obsidian decides: the form in which it stores a path, whether a
    file can be read, the folders it makes for [createFolder] (the folder
    and the missing ones above it; [None]: it throws), whether a file can be
    written and whether a link can be opened. *)
Record Obsidian : Type := mkObsidian {
  normalizePath : string → string;
  read_ok : string → bool;
  createFolder_makes : string → option (list string);
  create_ok : string → bool;
  openLinkText_ok : string → bool
}.

Record State : Type := mkState {
  vault : gmap string AbstractFile;
  effects : list Effect
}.

(** A computation on the vault; [None] is a thrown exception. *)
Definition Act (A : Type) : Type := State → option A * State.

Global Instance Act_ret : MRet Act := λ A a s, (Some a, s).
Global Instance Act_bind : MBind Act := λ A B f m s,
  match m s with
  | (Some a, s') => f a s'
  | (None, s') => (None, s')
  end.

Definition throw {A} : Act A := λ s, (None, s).

Definition try_catch {A} (body handler : Act A) : Act A := λ s,
  match body s with
  | (None, s') => handler s'
  | o => o
  end.

Definition emit (e : Effect) : Act () := λ s,
  (Some (), {| vault := vault s; effects := effects s ++ [e] |}).

Definition getAbstractFileByPath (path : string) : Act (option AbstractFile) := λ s,
  (Some (vault s !! path), s).

(** [vault.read]: reading a folder fails. *)
Definition read (host : Obsidian) (path : string) (file : AbstractFile) : Act string :=
  match file with
  | TFile content => if read_ok host path then mret content else throw
  | TFolder => throw
  end.

Definition add_folder (path : string) (files : gmap string AbstractFile)
    : gmap string AbstractFile :=
  match files !! path with
  | Some _ => files
  | None => <[path := TFolder]> files
  end.

(** [vault.createFolder] and [vault.create] refuse a path that exists. *)
Definition createFolder (host : Obsidian) (path : string) : Act () := λ s,
  match vault s !! normalizePath host path, createFolder_makes host path with
  | None, Some made =>
    (Some (), {| vault := foldr add_folder (vault s) made; effects := effects s |})
  | _, _ => (None, s)
  end.

Definition create (host : Obsidian) (path data : string) : Act () := λ s,
  match vault s !! normalizePath host path with
  | None =>
    if create_ok host path
    then (Some (), {| vault := <[normalizePath host path := TFile data]> (vault s);
                      effects := effects s |})
    else (None, s)
  | Some _ => (None, s)
  end.

Definition openLinkText (host : Obsidian) (linktext : string) : Act () :=
  if openLinkText_ok host linktext then emit (OpenLinkText linktext) else throw.

Definition createNoteFromEvent (host : Obsidian) (tz : Z) (st : MeetingNotesSettings)
    (event : CalendarEvent) : Act () :=
  try_catch
    (let templatePath := templatePath st +:+ ".md" in
     templateFile ← getAbstractFileByPath templatePath;
     match templateFile with
     | None => emit (Notice ("Template not found: " +:+ templatePath))
     | Some templateFile =>
       templateContent ← read host templatePath templateFile;
       emit (ConsoleLog "Attendees found:");;
       let noteContent := noteContent tz st event templateContent in
       emit (ConsoleLog "Event details:");;
       let fileName := fileName tz event in
       let folderPath := notesFolder st in
       folder ← getAbstractFileByPath folderPath;
       match folder with
       | None => createFolder host folderPath
       | Some _ => mret ()
       end;;
       let filePath := folderPath +:+ "/" +:+ fileName in
       existingFile ← getAbstractFileByPath filePath;
       match existingFile with
       | Some _ =>
         emit (Notice ("Note already exists: " +:+ fileName));;
         openLinkText host filePath
       | None =>
         create host filePath noteContent;;
         emit (Notice ("Created note: " +:+ fileName));;
         openLinkText host filePath
       end
     end)
    (emit (ConsoleError "Error creating note:");;
     emit (Notice "Error creating note. Check console for details.")).

End CalendarView.

(** Every character of the string passes the test. *)
Fixpoint all_chars (P : ascii → bool) (s : string) : bool :=
  match s with
  | String c r => P c && all_chars P r
  | EmptyString => true
  end.

(** The characters of a number written out: digits and the minus sign. *)
Definition numeric (c : ascii) : bool :=
  bool_decide (48 ≤ byte c ≤ 57 ∨ byte c = 45)%N.

(** The character is not in the string. *)
Definition without (c : ascii) (s : string) : bool :=
  all_chars (λ c', negb (bool_decide (c' = c))) s.

(** A weekly review at 09:05 UTC on 2025-06-10 whose title and attendee
    names hold characters that matter to file names and replacements. *)
Definition review : CalendarEvent :=
  {| uid := "review";
     summary := "Q3/Q4: plan?";
     description := "";
     location := "";
     start := ValidDate (jun10 + 9 * msPerHour + 5 * msPerMinute);
     end_ := ValidDate (jun10 + 10 * msPerHour);
     attendees := ["Ann"; "Bob"] |}.

(** An event later the same day whose title differs in those characters
    only. *)
Definition review_again : CalendarEvent :=
  {| uid := "review-2";
     summary := "Q3Q4 plan";
     description := "";
     location := "";
     start := ValidDate (jun10 + 15 * msPerHour);
     end_ := ValidDate (jun10 + 16 * msPerHour);
     attendees := [] |}.

(** An Obsidian that stores paths as they are given, makes the one folder
    asked for and fails at nothing. *)
Definition plain_obsidian : CalendarView.Obsidian :=
  {| CalendarView.normalizePath := λ path, path;
     CalendarView.read_ok := λ _, true;
     CalendarView.createFolder_makes := λ path, Some [path];
     CalendarView.create_ok := λ _, true;
     CalendarView.openLinkText_ok := λ _, true |}.

(** A template with the four fields in its front matter. *)
Definition meeting_template : string :=
  "---" +:+ String LF ("date:" +:+ String LF ("time:" +:+ String LF
  ("attendees:" +:+ String LF ("description: none" +:+ String LF
  ("---" +:+ String LF "# Notes"))))).

(** A vault that holds the template and the notes folder. *)
Definition fresh_vault : CalendarView.State :=
  {| CalendarView.vault :=
       {[ "Templates/Meeting.md" := CalendarView.TFile meeting_template;
          "Notes" := CalendarView.TFolder ]};
     CalendarView.effects := [] |}.

(** The notifications among the effects of the view. *)
Definition shown (l : list CalendarView.Effect) : list string :=
  omap (λ e, match e with CalendarView.Notice msg => Some msg | _ => None end) l.

(** A vault without template. *)
Definition empty_vault : CalendarView.State :=
  {| CalendarView.vault := ∅; CalendarView.effects := [] |}.

(** The event with another description. *)
Definition with_description (event : CalendarEvent) (text : string) : CalendarEvent :=
  {| uid := uid event;
     summary := summary event;
     description := text;
     location := location event;
     start := start event;
     end_ := end_ event;
     attendees := attendees event |}.

(** An invitation text with the footer of a Teams meeting. *)
Definition teams_invite (footer : string) : string :=
  "Agenda:" +:+ String LF ("1. Budget" +:+ String LF (String LF
  (teamsMarker +:+ String LF footer))).

(** * Properties *)

(** ** Dates and numbers *)

Lemma date_le_valid a b : date_le (ValidDate a) (ValidDate b) = true ↔ a ≤ b.
Proof. unfold date_le; simpl. by rewrite bool_decide_eq_true. Qed.

Lemma date_ge_valid a b : date_ge (ValidDate a) (ValidDate b) = true ↔ b ≤ a.
Proof. unfold date_ge; simpl. by rewrite bool_decide_eq_true. Qed.

Lemma date_lt_valid a b : date_lt (ValidDate a) (ValidDate b) = true ↔ a < b.
Proof. unfold date_lt; simpl. by rewrite bool_decide_eq_true. Qed.

Lemma date_gt_valid a b : date_gt (ValidDate a) (ValidDate b) = true ↔ b < a.
Proof. unfold date_gt; simpl. by rewrite bool_decide_eq_true. Qed.

Lemma TimeClip_valid t : Z.abs t ≤ maxTime → TimeClip t = ValidDate t.
Proof. intros. unfold TimeClip. by rewrite bool_decide_eq_true_2. Qed.

(** A date inside a window of valid dates is valid and between its ends. *)
Lemma in_window_inv d s e :
  date_ge d (ValidDate s) && date_le d (ValidDate e) = true →
  ∃ t, d = ValidDate t ∧ s ≤ t ≤ e.
Proof.
  destruct d as [t|]; [|done].
  rewrite andb_true_iff, date_ge_valid, date_le_valid. eauto.
Qed.

(** ** Where materialized events come from *)

Lemma expand_loop_origin fuel ws we event atts i acc out :
  expand_loop fuel ws we event atts i acc = Some out →
  ∃ new, out = acc ++ new ∧
    Forall (λ ev, ∃ j occurrence,
      ICAL.occurrences event j = Some occurrence
      ∧ date_ge occurrence ws && date_le occurrence we = true
      ∧ ev = occurrence_event event atts occurrence) new.
Proof.
  revert i acc. induction fuel as [|fuel IH]; intros i acc; simpl; [done|].
  destruct (ICAL.occurrences event i) as [occurrence|] eqn:Hocc.
  - destruct (date_gt occurrence we).
    { intros [= <-]. exists []. by rewrite app_nil_r. }
    destruct (date_ge occurrence ws && date_le occurrence we) eqn:Hin.
    + intros (new & -> & Hnew)%IH.
      exists (occurrence_event event atts occurrence :: new).
      split; [by rewrite <-app_assoc|].
      constructor; [|done]. eauto.
    + apply IH.
  - intros [= <-]. exists []. by rewrite app_nil_r.
Qed.

Lemma process_vevent_origin fuel ws we acc event out :
  process_vevent fuel ws we acc event = Some out →
  ∃ new, out = acc ++ new ∧ Forall (made_from ws we event) new.
Proof.
  unfold process_vevent, made_from.
  destruct (ICAL.isRecurring event).
  - apply expand_loop_origin.
  - destruct (_ && _) eqn:Hin; intros [= <-].
    + eexists; split; [done|]. by repeat constructor.
    + exists []. by rewrite app_nil_r.
Qed.

Lemma forEach_vevent_origin fuel ws we vevents acc out :
  forEach_vevent fuel ws we vevents acc = Some out →
  ∃ new, out = acc ++ new ∧
    Forall (λ ev, ∃ event, event ∈ vevents ∧ made_from ws we event ev) new.
Proof.
  revert acc. induction vevents as [|event rest IH]; intros acc; simpl.
  - intros [= <-]. exists []. by rewrite app_nil_r.
  - destruct (process_vevent _ _ _ _ _) as [acc'|] eqn:Hp; [|done]; simpl.
    apply process_vevent_origin in Hp as (new1 & -> & Hnew1).
    intros (new2 & -> & Hnew2)%IH.
    exists (new1 ++ new2). split; [by rewrite app_assoc|].
    apply Forall_app; split.
    + eapply Forall_impl; [done|]. intros ev ?. exists event. split; [left|done].
    + eapply Forall_impl; [done|]. intros ev (e' & ? & ?). exists e'. split; [by right|done].
Qed.

(** ** Sorting *)

Section sort_facts.
Context {A : Type} (cmp : A → A → Z).

Lemma sort_insert_perm x l : sort_insert cmp x l ≡ₚ x :: l.
Proof.
  induction l as [|y l IH]; simpl; [done|].
  case_bool_decide; [done|]. rewrite IH. apply Permutation_swap.
Qed.

Lemma array_sort_perm l : array_sort cmp l ≡ₚ l.
Proof.
  induction l as [|x l IH]; simpl; [done|].
  by rewrite sort_insert_perm, IH.
Qed.

Lemma array_sort_elem x l : x ∈ array_sort cmp l ↔ x ∈ l.
Proof. by rewrite array_sort_perm. Qed.

Lemma array_sort_Forall (P : A → Prop) l : Forall P (array_sort cmp l) ↔ Forall P l.
Proof. by rewrite array_sort_perm. Qed.

End sort_facts.

(** ** Deduplication *)

Lemma dedup_fold m l :
  (foldl dedup_step m l).*2 = m.*2 ++ dedup_from (m.*1) l.
Proof.
  revert m. induction l as [|event l IH]; intros m; simpl.
  - by rewrite app_nil_r.
  - rewrite IH. unfold dedup_step, map_has.
    case_bool_decide; [done|].
    rewrite !fmap_app; simpl. by rewrite <-app_assoc.
Qed.

Lemma deduplicate_scan l : deduplicate l = dedup_from [] l.
Proof. unfold deduplicate. by rewrite dedup_fold. Qed.

Lemma dedup_from_sub seen l : dedup_from seen l ⊆ l.
Proof.
  revert seen. induction l as [|event l IH]; intros seen; simpl; [done|].
  case_bool_decide.
  - etrans; [apply IH|]. set_solver.
  - apply list_subseteq_skip, IH.
Qed.

Lemma dedup_from_fresh seen l ev :
  ev ∈ dedup_from seen l → event_key ev ∉ seen.
Proof.
  revert seen. induction l as [|event l IH]; intros seen; simpl; [by intros ?%elem_of_nil|].
  case_bool_decide as Hseen.
  - apply IH.
  - intros [->|Hin]%elem_of_cons; [done|].
    apply IH in Hin. set_solver.
Qed.

Lemma dedup_from_NoDup seen l : NoDup (event_key <$> dedup_from seen l).
Proof.
  revert seen. induction l as [|event l IH]; intros seen; simpl; [constructor|].
  case_bool_decide; [done|].
  rewrite fmap_cons. constructor; [|done].
  intros (ev & Hkey & Hin)%list_elem_of_fmap.
  apply dedup_from_fresh in Hin. set_solver.
Qed.



(** ** Keys: [text-number] determines both parts for a number without sign *)

Lemma has_dash_app s d : has_dash (s +:+ String "-" d) = true.
Proof. induction s as [|c s IH]; simpl; [done|]. rewrite IH. apply orb_true_r. Qed.

Lemma dash_split_inj s1 s2 d1 d2 :
  has_dash d1 = false → has_dash d2 = false →
  s1 +:+ String "-" d1 = s2 +:+ String "-" d2 → s1 = s2 ∧ d1 = d2.
Proof.
  intros H1 H2. revert s2.
  induction s1 as [|c1 s1 IH]; intros [|c2 s2]; simpl.
  - by intros [= ->].
  - intros [= <- ->]. by rewrite has_dash_app in H1.
  - intros [= -> <-]. by rewrite has_dash_app in H2.
  - intros [= -> Heq]. by destruct (IH _ Heq) as [-> ->].
Qed.

Lemma pretty_N_go_dash x s : has_dash (pretty_N_go x s) = has_dash s.
Proof.
  revert s. induction (N.lt_wf_0 x) as [x _ IH]; intros s.
  assert (x = 0 ∨ 0 < x)%N as [->|?] by lia.
  - by rewrite pretty_N_go_0.
  - rewrite pretty_N_go_step by done.
    rewrite IH by (by apply N.div_lt). simpl.
    unfold pretty_N_char. by repeat case_match.
Qed.

Lemma pretty_nonneg_dash (t : Z) : 0 ≤ t → has_dash (pretty t) = false.
Proof.
  destruct t as [|p|p]; [done| |lia]. intros _.
  unfold pretty, pretty_Z, pretty, pretty_positive, pretty, pretty_N.
  case_decide; [done|]. by rewrite pretty_N_go_dash.
Qed.

Lemma dashed_inj s1 s2 (t1 t2 : Z) :
  0 ≤ t1 → 0 ≤ t2 →
  s1 +:+ "-" +:+ pretty t1 = s2 +:+ "-" +:+ pretty t2 → s1 = s2 ∧ t1 = t2.
Proof.
  intros H1 H2 Heq.
  apply dash_split_inj in Heq as [-> Hp]; [|by apply pretty_nonneg_dash..].
  split; [done|]. by apply (inj pretty).
Qed.





(** ** List facts *)





Lemma NoDup_fmap_through {A B C} (f : A → B) (g : A → C) l :
  NoDup (f <$> l) →
  (∀ x y, x ∈ l → y ∈ l → g x = g y → f x = f y) →
  NoDup (g <$> l).
Proof.
  induction l as [|a l IH]; [constructor|].
  rewrite !fmap_cons, !NoDup_cons. intros [Ha Hnd] Hfg. split.
  - intros (b & Hgb & Hb)%list_elem_of_fmap. apply Ha.
    rewrite (Hfg a b); [by apply list_elem_of_fmap_2|by left|by right|done].
  - apply IH; [done|]. intros x y ??. apply Hfg; by right.
Qed.

Lemma NoDup_fmap_eq {A B} (f : A → B) l x y :
  NoDup (f <$> l) → x ∈ l → y ∈ l → f x = f y → x = y.
Proof.
  induction l as [|a l IH]; [by intros _ ?%elem_of_nil|].
  rewrite fmap_cons, NoDup_cons. intros [Ha Hnd].
  intros [->|Hx]%elem_of_cons [->|Hy]%elem_of_cons Heq; [done| | |by apply IH].
  - destruct Ha. rewrite Heq. by apply list_elem_of_fmap_2.
  - destruct Ha. rewrite <-Heq. by apply list_elem_of_fmap_2.
Qed.

(** ** The materialized list *)

Lemma materialize_unfold fuel ws we vevents out :
  materialize fuel ws we vevents = Some out ↔
  ∃ allEvents, forEach_vevent fuel ws we vevents [] = Some allEvents
    ∧ out = array_sort by_start (deduplicate allEvents).
Proof.
  unfold materialize. destruct (forEach_vevent _ _ _ _ _) as [allEvents|]; simpl.
  - split; [intros [= <-]; eauto|]. by intros (? & [= <-] & ->).
  - split; [done|]. by intros (? & ? & _).
Qed.

Lemma materialize_origin fuel ws we vevents out :
  materialize fuel ws we vevents = Some out →
  Forall (λ ev, ∃ event, event ∈ vevents ∧ made_from ws we event ev) out.
Proof.
  intros (allEvents & Hall & ->)%materialize_unfold.
  apply forEach_vevent_origin in Hall as (new & -> & Hnew); simpl in *.
  apply array_sort_Forall. rewrite deduplicate_scan.
  rewrite Forall_forall in Hnew |- *. intros ev Hev.
  apply Hnew. by apply (dedup_from_sub [] new).
Qed.

Lemma made_from_start s e event ev :
  made_from (ValidDate s) (ValidDate e) event ev →
  ∃ t, start ev = ValidDate t ∧ s ≤ t ≤ e.
Proof.
  unfold made_from. destruct (ICAL.isRecurring event).
  - intros (i & occurrence & _ & Hin & ->). by apply in_window_inv.
  - intros [Hin ->]. by apply in_window_inv.
Qed.

(** ** Window bound *)

Lemma made_from_window ws we event ev :
  made_from ws we event ev →
  ∃ t s e, start ev = ValidDate t ∧ ws = ValidDate s ∧ we = ValidDate e ∧ s ≤ t ≤ e.
Proof.
  intros Hmade.
  assert (∃ d, date_ge d ws && date_le d we = true ∧ start ev = d) as (d & Hin & ->).
  { unfold made_from in Hmade. destruct (ICAL.isRecurring event).
    - destruct Hmade as (? & occurrence & _ & ? & ->). by exists occurrence.
    - destruct Hmade as [? ->]. by eexists. }
  destruct d as [t|], ws as [s|], we as [e|]; try done.
  - apply in_window_inv in Hin as (t' & [= <-] & ?). by exists t, s, e.
  - unfold date_le in Hin; simpl in Hin. by rewrite andb_false_r in Hin.
Qed.

(** C1. Every occurrence that the recurrence expansion of [parseICSData]
    pushes, and every event of the list it materializes in the end, starts
    at a valid time [t] with [s <= t <= e], where [s] and [e] are the ends
    of the window; nothing that starts outside the window is in the list. *)
Theorem window_bound fuel ws we vevents out :
  materialize fuel ws we vevents = Some out →
  ∃ allEvents,
    forEach_vevent fuel ws we vevents [] = Some allEvents
    ∧ Forall (λ ev, ∃ t s e,
        start ev = ValidDate t ∧ ws = ValidDate s ∧ we = ValidDate e ∧ s ≤ t ≤ e)
        allEvents
    ∧ Forall (λ ev, ∃ t s e,
        start ev = ValidDate t ∧ ws = ValidDate s ∧ we = ValidDate e ∧ s ≤ t ≤ e)
        out.
Proof.
  intros Hout.
  pose proof (materialize_origin _ _ _ _ _ Hout) as Horigin.
  apply materialize_unfold in Hout as (allEvents & Hall & ->).
  exists allEvents. split; [done|]. split.
  - apply forEach_vevent_origin in Hall as (new & -> & Hnew); simpl.
    eapply Forall_impl; [exact Hnew|].
    intros ev (event & _ & ?). by eapply made_from_window.
  - eapply Forall_impl; [exact Horigin|].
    intros ev (event & _ & ?). by eapply made_from_window.
Qed.

Lemma window_bound_witness :
  ∃ allEvents,
    forEach_vevent 200 (ValidDate jun01) (ValidDate jun03)
      [standup; single "b" "Standup" jun03] [] = Some allEvents
    ∧ Forall (λ ev, ∃ t s e,
        start ev = ValidDate t ∧ ValidDate jun01 = ValidDate s
        ∧ ValidDate jun03 = ValidDate e ∧ s ≤ t ≤ e) allEvents
    ∧ Forall (λ ev, ∃ t s e,
        start ev = ValidDate t ∧ ValidDate jun01 = ValidDate s
        ∧ ValidDate jun03 = ValidDate e ∧ s ≤ t ≤ e)
        [occurrence_event standup ["Ann"; "Bob"; "Cy"] (ValidDate jun01);
         occurrence_event standup ["Ann"; "Bob"; "Cy"] (ValidDate (jun01 + msPerDay));
         occurrence_event standup ["Ann"; "Bob"; "Cy"] (ValidDate jun03)].
Proof.
  apply (window_bound 200 _ _ [standup; single "b" "Standup" jun03]).
  vm_compute; reflexivity.
Defined.

(** ** Deduplication by title and start *)







(** ** Uids *)

Lemma materialize_keys_NoDup fuel ws we vevents out :
  materialize fuel ws we vevents = Some out → NoDup (event_key <$> out).
Proof.
  intros (allEvents & _ & ->)%materialize_unfold.
  rewrite array_sort_perm, deduplicate_scan. apply dedup_from_NoDup.
Qed.

Lemma made_from_uid ws we event ev :
  made_from ws we event ev →
  uid ev = if ICAL.isRecurring event
           then ICAL.uid event +:+ "-" +:+ number_to_string (getTime (start ev))
           else ICAL.uid event.
Proof.
  unfold made_from. destruct (ICAL.isRecurring event).
  - by intros (? & ? & _ & _ & ->).
  - by intros [_ ->].
Qed.

(** Within one feed with distinct uids, events with equal uids are equal. *)
Lemma made_from_uid_inj s e vevents ex ey x y :
  0 ≤ s → NoDup (ICAL.uid <$> vevents) → uids_apart vevents →
  ex ∈ vevents → ey ∈ vevents →
  made_from (ValidDate s) (ValidDate e) ex x →
  made_from (ValidDate s) (ValidDate e) ey y →
  uid x = uid y → x = y.
Proof.
  intros Hs Hnd Hapart Hex Hey Hx Hy Huid.
  pose proof (made_from_start _ _ _ _ Hx) as (tx & Htx & ?).
  pose proof (made_from_start _ _ _ _ Hy) as (ty & Hty & ?).
  rewrite (made_from_uid _ _ _ _ Hx), (made_from_uid _ _ _ _ Hy) in Huid.
  rewrite Htx, Hty in Huid; simpl in Huid.
  unfold made_from in Hx, Hy.
  destruct (ICAL.isRecurring ex) eqn:Hrx, (ICAL.isRecurring ey) eqn:Hry.
  - apply dashed_inj in Huid as [Hu ->]; [|lia..].
    assert (ex = ey) as <- by (by eapply NoDup_fmap_eq).
    destruct Hx as (_ & ox & _ & _ & ->), Hy as (_ & oy & _ & _ & ->).
    simpl in Htx, Hty. by rewrite Htx, Hty.
  - by destruct (Hapart ey ex tx).
  - by destruct (Hapart ex ey ty).
  - assert (ex = ey) as <- by (by eapply NoDup_fmap_eq).
    destruct Hx as [_ ->], Hy as [_ ->]. done.
Qed.

(** C3, as the code has it. In the list [parseICSData] produces, any two
    distinct entries differ in summary or in start; a recurring occurrence
    carries the uid [baseUid-occurrenceEpochMillis] and a single event the
    feed uid unchanged; uids are pairwise distinct when the window starts at
    or after the epoch, the feed's uids are pairwise distinct and no single
    event's uid has the form of an occurrence uid of the feed. *)
Theorem uid_unique_amended fuel s e vevents out :
  materialize fuel (ValidDate s) (ValidDate e) vevents = Some out →
  (∀ i j a b, i ≠ j → out !! i = Some a → out !! j = Some b →
      summary a ≠ summary b ∨ start a ≠ start b)
  ∧ Forall (λ ev, ∃ event, event ∈ vevents ∧
      uid ev = if ICAL.isRecurring event
               then ICAL.uid event +:+ "-" +:+ number_to_string (getTime (start ev))
               else ICAL.uid event) out
  ∧ (0 ≤ s → NoDup (ICAL.uid <$> vevents) → uids_apart vevents →
      NoDup (uid <$> out)).
Proof.
  intros Hout.
  pose proof (materialize_keys_NoDup _ _ _ _ _ Hout) as Hkeys.
  pose proof (materialize_origin _ _ _ _ _ Hout) as Horigin.
  split; [|split].
  - intros i j a b Hij Ha Hb.
    destruct (decide (summary a = summary b)) as [Hsum|]; [|by left].
    right. intros Hst. apply Hij.
    eapply NoDup_lookup; [done|..].
    + rewrite list_lookup_fmap, Ha. done.
    + rewrite list_lookup_fmap, Hb. simpl. unfold event_key. by rewrite Hsum, Hst.
  - eapply Forall_impl; [exact Horigin|]. intros ev (event & ? & Hmade).
    exists event. split; [done|]. by eapply made_from_uid.
  - intros Hs Hnd Hapart.
    eapply NoDup_fmap_through; [done|].
    rewrite Forall_forall in Horigin.
    intros x y (ex & ? & ?)%Horigin (ey & ? & ?)%Horigin Huid.
    f_equal. by apply (made_from_uid_inj s e vevents ex ey).
Qed.

Lemma uid_unique_amended_witness :
  (∀ i j a b, i ≠ j →
      [occurrence_event standup ["Ann"; "Bob"; "Cy"] (ValidDate jun01);
       occurrence_event standup ["Ann"; "Bob"; "Cy"] (ValidDate (jun01 + msPerDay));
       single_event (single "b" "Review" jun03) [];
       occurrence_event standup ["Ann"; "Bob"; "Cy"] (ValidDate jun03)] !! i = Some a →
      [occurrence_event standup ["Ann"; "Bob"; "Cy"] (ValidDate jun01);
       occurrence_event standup ["Ann"; "Bob"; "Cy"] (ValidDate (jun01 + msPerDay));
       single_event (single "b" "Review" jun03) [];
       occurrence_event standup ["Ann"; "Bob"; "Cy"] (ValidDate jun03)] !! j = Some b →
      summary a ≠ summary b ∨ start a ≠ start b)
  ∧ NoDup ["standup-1748736000000"; "standup-1748822400000"; "b";
           "standup-1748908800000"].
Proof.
  destruct (uid_unique_amended 200 jun01 jun03 [standup; single "b" "Review" jun03] _
              eq_refl) as (Hslots & _ & Huids).
  split; [exact Hslots|].
  apply Huids.
  - vm_compute; discriminate.
  - simpl. apply NoDup_cons. split; [|apply NoDup_singleton].
    intros Hin%list_elem_of_singleton. discriminate Hin.
  - intros x y t Hx Hy Hrx Hry.
    apply list_elem_of_In in Hx, Hy. simpl in Hx, Hy.
    destruct Hx as [<-|[<-|[]]]; [discriminate Hrx|].
    destruct Hy as [<-|[<-|[]]]; [|discriminate Hry].
    simpl. discriminate.
Defined.

(** C3 as stated fails: two single events of one feed that share the uid
    [a] and differ in title are both kept. *)
Lemma uid_unique_counterexample :
  ∃ out,
    materialize 1 (ValidDate jun01) (ValidDate jun03)
      [single "a" "Review" jun03; single "a" "Retro" jun03] = Some out
    ∧ ¬ NoDup (uid <$> out).
Proof.
  eexists. split; [vm_compute; reflexivity|].
  simpl. rewrite NoDup_cons. intros [Hnotin _]. apply Hnotin. left.
Qed.

(** ** End not before start *)

Lemma made_from_times ws we event ev :
  made_from ws we event ev →
  if ICAL.isRecurring event
  then end_ ev = new_Date (number_add (getTime (start ev))
                             (ICAL.durationSeconds event * 1000))
  else start ev = ICAL.startDate event ∧ end_ ev = ICAL.endDate event.
Proof.
  unfold made_from. destruct (ICAL.isRecurring event).
  - by intros (? & ? & _ & _ & ->).
  - by intros [_ ->].
Qed.

(** C4, as the code has it. An occurrence of a recurring event ends at its
    start plus the duration of the base event, and a single event keeps the
    decoded start and end as they are; so every entry of the list
    [parseICSData] produces has [end >= start] when the window starts at a
    representable time, every recurring descriptor has a non-negative
    duration that keeps its occurrence ends representable, and no single
    descriptor ends before it starts. *)
Theorem end_after_start_amended fuel s e vevents out :
  materialize fuel (ValidDate s) (ValidDate e) vevents = Some out →
  Forall (λ ev, ∃ event, event ∈ vevents ∧
    if ICAL.isRecurring event
    then end_ ev = new_Date (number_add (getTime (start ev))
                               (ICAL.durationSeconds event * 1000))
    else start ev = ICAL.startDate event ∧ end_ ev = ICAL.endDate event) out
  ∧ (- maxTime ≤ s → Forall (forward_times e) vevents →
      Forall (λ ev, date_ge (end_ ev) (start ev) = true) out).
Proof.
  intros Horigin%materialize_origin. split.
  - eapply Forall_impl; [exact Horigin|]. intros ev (event & ? & Hmade).
    exists event. split; [done|]. by eapply made_from_times.
  - intros Hs Hfw. rewrite Forall_forall in Hfw.
    eapply Forall_impl; [exact Horigin|]. intros ev (event & Hin & Hmade).
    pose proof (made_from_start _ _ _ _ Hmade) as (t & Ht & ?).
    pose proof (made_from_times _ _ _ _ Hmade) as Htimes.
    specialize (Hfw _ Hin). unfold forward_times in Hfw.
    destruct (ICAL.isRecurring event).
    + destruct Hfw as [Hdur Hrep].
      rewrite Htimes, Ht. simpl. rewrite TimeClip_valid by lia.
      apply date_ge_valid. lia.
    + destruct Htimes as [-> ->]. done.
Qed.

Lemma end_after_start_amended_witness :
  Forall (λ ev, date_ge (end_ ev) (start ev) = true)
    [occurrence_event standup ["Ann"; "Bob"; "Cy"] (ValidDate jun01);
     occurrence_event standup ["Ann"; "Bob"; "Cy"] (ValidDate (jun01 + msPerDay));
     single_event (single "b" "Review" jun03) [];
     occurrence_event standup ["Ann"; "Bob"; "Cy"] (ValidDate jun03)].
Proof.
  destruct (end_after_start_amended 200 jun01 jun03
              [standup; single "b" "Review" jun03] _ eq_refl) as [_ Hge].
  apply Hge.
  - vm_compute; discriminate.
  - repeat constructor; vm_compute; congruence.
Defined.

(** C4 as stated fails in both branches: a single event decoded with its
    end five milliseconds before its start is materialized as it is, and
    every occurrence of a recurring event whose duration is minus one minute
    ends a minute before it starts. *)
Lemma end_after_start_counterexample :
  (∃ out ev,
    materialize 1 (ValidDate jun01) (ValidDate jun03)
      [single "a" "Review" (jun01 + msPerDay - 5)] = Some out
    ∧ ev ∈ out
    ∧ start ev = ValidDate (jun01 + msPerDay)
    ∧ end_ ev = ValidDate (jun01 + msPerDay - 5)
    ∧ date_ge (end_ ev) (start ev) = false)
  ∧ (∃ out ev,
    materialize 4 (ValidDate jun01) (ValidDate jun03) [rewinding] = Some out
    ∧ ev ∈ out
    ∧ start ev = ValidDate jun01
    ∧ end_ ev = ValidDate (jun01 - msPerMinute)
    ∧ date_ge (end_ ev) (start ev) = false).
Proof.
  split; eexists _, _; (split; [vm_compute; reflexivity|]);
    (split; [left|]); by vm_compute.
Qed.

(** ** Termination of the expansion loop *)

Lemma expand_loop_stop fuel ws we event atts i acc :
  stops_at we event i = true →
  expand_loop (S fuel) ws we event atts i acc = Some acc.
Proof.
  unfold stops_at; simpl. destruct (ICAL.occurrences event i); [|done].
  by intros ->.
Qed.

Lemma pushed_S ws we event atts i n :
  pushed ws we event atts i (S n) =
  match ICAL.occurrences event i with
  | Some d =>
    if date_ge d ws && date_le d we
    then occurrence_event event atts d :: pushed ws we event atts (S i) n
    else pushed ws we event atts (S i) n
  | None => pushed ws we event atts (S i) n
  end.
Proof.
  unfold pushed; simpl. destruct (ICAL.occurrences event i) as [d|]; simpl; [|done].
  by destruct (_ && _).
Qed.

(** As long as no call stops the loop, each iteration pushes what [pushed]
    lists and uses one unit of fuel. *)
Lemma expand_loop_run n fuel ws we event atts i acc :
  (∀ j, (i ≤ j < i + n)%nat → stops_at we event j = false) →
  expand_loop (n + fuel) ws we event atts i acc =
  expand_loop fuel ws we event atts (i + n) (acc ++ pushed ws we event atts i n).
Proof.
  revert i acc. induction n as [|n IH]; intros i acc Hrun.
  - unfold pushed; simpl. by rewrite Nat.add_0_r, app_nil_r.
  - assert (stops_at we event i = false) as Hi by (apply Hrun; lia).
    rewrite pushed_S. unfold stops_at in Hi. simpl.
    destruct (ICAL.occurrences event i) as [d|]; [|done]. rewrite Hi.
    rewrite <-Nat.add_succ_comm.
    destruct (_ && _); rewrite IH by (intros; apply Hrun; lia); [|done].
    by rewrite <-app_assoc.
Qed.

Lemma first_stop_search (P : nat → bool) n :
  (∃ k, (k ≤ n)%nat ∧ P k = true ∧ ∀ j, (j < k)%nat → P j = false)
  ∨ (∀ j, (j ≤ n)%nat → P j = false).
Proof.
  induction n as [|n [(k & ? & ? & ?)|Hnone]].
  - destruct (P 0%nat) eqn:H0.
    + left. exists 0%nat. split_and!; [done..|]. lia.
    + right. intros j ?. by replace j with 0%nat by lia.
  - left. exists k. split_and!; [lia|done..].
  - destruct (P (S n)) eqn:HS.
    + left. exists (S n). split_and!; [done..|]. intros j ?. apply Hnone. lia.
    + right. intros j Hj. destruct (decide (j = S n)) as [->|]; [done|].
      apply Hnone. lia.
Qed.

(** While the loop runs, the candidates of an increasing rule advance by at
    least a millisecond per call and stay within the window's end. *)
Lemma increasing_advance e event t0 n :
  increasing event →
  ICAL.occurrences event 0 = Some (ValidDate t0) →
  (∀ j, (j ≤ n)%nat → stops_at (ValidDate e) event j = false) →
  ∃ t, ICAL.occurrences event n = Some (ValidDate t) ∧ t0 + Z.of_nat n ≤ t ≤ e.
Proof.
  intros Hinc H0 Hrun. induction n as [|n IH].
  - exists t0. split; [done|]. split; [lia|].
    specialize (Hrun 0%nat (Nat.le_refl _)). unfold stops_at in Hrun.
    rewrite H0 in Hrun. apply not_true_iff_false in Hrun.
    rewrite date_gt_valid in Hrun. lia.
  - destruct IH as (t & Hn & ?); [intros; apply Hrun; lia|].
    pose proof (Hrun (S n) (Nat.le_refl _)) as HS. unfold stops_at in HS.
    destruct (ICAL.occurrences event (S n)) as [d|] eqn:Hd; [|done].
    pose proof (Hinc n (S n) _ _ (Nat.lt_succ_diag_r n) Hn Hd) as Hlt.
    destruct d as [t'|]; [|done]. apply date_lt_valid in Hlt.
    exists t'. split; [done|].
    apply not_true_iff_false in HS. rewrite date_gt_valid in HS. lia.
Qed.

Lemma increasing_stops e event :
  increasing event →
  ∃ k, stops_at (ValidDate e) event k = true
    ∧ ∀ j, (j < k)%nat → stops_at (ValidDate e) event j = false.
Proof.
  intros Hinc.
  destruct (ICAL.occurrences event 0) as [[t0|]|] eqn:H0.
  - destruct (first_stop_search (stops_at (ValidDate e) event)
                (S (Z.to_nat (e - t0)))) as [(k & _ & ? & ?)|Hrun]; [by exists k|].
    destruct (increasing_advance e event t0 _ Hinc H0 Hrun) as (t & _ & ?). lia.
  - destruct (ICAL.occurrences event 1) as [d|] eqn:H1.
    + by pose proof (Hinc 0%nat 1%nat _ _ Nat.lt_0_1 H0 H1).
    + exists 1%nat. unfold stops_at. rewrite H1. split; [done|].
      intros j ?. replace j with 0%nat by lia. by rewrite H0.
  - exists 0%nat. unfold stops_at. rewrite H0. split; [done|]. lia.
Qed.

(** From the first stopping call on, more fuel changes nothing. *)
Lemma expand_loop_halts k fuel ws we event atts acc :
  stops_at we event k = true →
  (∀ j, (j < k)%nat → stops_at we event j = false) →
  (k < fuel)%nat →
  expand_loop fuel ws we event atts 0 acc = Some (acc ++ pushed ws we event atts 0 k).
Proof.
  intros Hstop Hrun Hfuel.
  replace fuel with (k + S (fuel - k - 1))%nat by lia.
  rewrite expand_loop_run by (intros j ?; apply Hrun; lia).
  by apply expand_loop_stop.
Qed.

(** A rule that ends or passes every time reaches a call at which the
    loop stops, whatever the end of the window. *)
Lemma passing_stops e event :
  ends_or_passes event →
  ∃ k, stops_at (ValidDate e) event k = true
    ∧ ∀ j, (j < k)%nat → stops_at (ValidDate e) event j = false.
Proof.
  intros Hpass. destruct (Hpass e) as (n & Hn).
  destruct (first_stop_search (stops_at (ValidDate e) event) n)
    as [(k & _ & ? & ?)|Hrun]; [by exists k|].
  specialize (Hrun n (Nat.le_refl _)). unfold stops_at in Hrun.
  destruct (ICAL.occurrences event n); congruence.
Qed.


Lemma daily_rule_increasing event first :
  ICAL.occurrences event = daily_rule first → increasing event.
Proof.
  intros Hrule i j a b Hij. rewrite Hrule. unfold daily_rule.
  intros [= <-] [= <-]. apply date_lt_valid. unfold msPerDay. lia.
Qed.

(** A rule whose starts increase strictly passes every time. *)
Lemma increasing_passes event : increasing event → ends_or_passes event.
Proof.
  intros Hinc bound. destruct (increasing_stops bound event Hinc) as (k & Hk & _).
  exists k. unfold stops_at in Hk. by destruct (ICAL.occurrences event k).
Qed.

(** So does every rule that generates no start more than [m] times. *)
Lemma bounded_repeats_pass event m :
  (∀ i a b, ICAL.occurrences event i = Some a →
     ICAL.occurrences event (i + S m) = Some b → date_lt a b = true) →
  ends_or_passes event.
Proof.
  intros Hadv bound.
  destruct (ICAL.occurrences event 0) as [[t0|]|] eqn:H0; cycle 1.
  - destruct (ICAL.occurrences event (0 + S m)) as [b|] eqn:Hm.
    + by pose proof (Hadv 0%nat _ _ H0 Hm).
    + exists (0 + S m)%nat. by rewrite Hm.
  - exists 0%nat. by rewrite H0.
  - assert (∀ k, (∃ n, ICAL.occurrences event n = None)
               ∨ ∃ t, ICAL.occurrences event (k * S m) = Some (ValidDate t)
                      ∧ t0 + Z.of_nat k ≤ t) as Hk.
    { induction k as [|k [?|(t & Hk & ?)]]; [right|by left|].
      - exists t0. split; [done|lia].
      - destruct (ICAL.occurrences event (k * S m + S m)) as [b|] eqn:Hnext.
        + pose proof (Hadv _ _ _ Hk Hnext) as Hlt. destruct b as [t'|]; [|done].
          apply date_lt_valid in Hlt. right. exists t'.
          replace (S k * S m)%nat with (k * S m + S m)%nat by lia.
          split; [done|lia].
        + left. by eexists. }
    destruct (Hk (Z.to_nat (Z.max 0 (bound - t0 + 1)))) as [[n Hn]|(t & Ht & ?)].
    + exists n. by rewrite Hn.
    + eexists. rewrite Ht. apply date_gt_valid. lia.
Qed.




(** The rule that yields every start twice is not increasing; its loop
    stops at the seventh call, having pushed the six candidates of the
    three days of the window. *)
Example paired_rule_expansion :
  date_lt (ValidDate jun01) (ValidDate jun01) = false
  ∧ ICAL.occurrences rounds 0 = ICAL.occurrences rounds 1
  ∧ stops_at (ValidDate jun03) rounds 6 = true
  ∧ length <$> expand_loop 7 (ValidDate jun01) (ValidDate jun03) rounds [] 0 []
    = Some 6%nat.
Proof. by vm_compute. Qed.

(** With every recurring event of the feed on a rule that ends or passes
    every time, the whole materialization terminates: from some amount of
    fuel on it returns, and always the same list. *)
Lemma forEach_vevent_terminates ws e vevents :
  Forall (λ event, ICAL.isRecurring event = true → ends_or_passes event) vevents →
  ∃ n new, ∀ fuel acc, (n ≤ fuel)%nat →
    forEach_vevent fuel ws (ValidDate e) vevents acc = Some (acc ++ new).
Proof.
  induction 1 as [|event rest Hinc _ (n & new & IH)].
  - exists 0%nat, []. intros fuel acc _. simpl. by rewrite app_nil_r.
  - assert (∃ n1 new1, ∀ fuel acc, (n1 ≤ fuel)%nat →
      process_vevent fuel ws (ValidDate e) acc event = Some (acc ++ new1))
      as (n1 & new1 & Hp).
    { unfold process_vevent. destruct (ICAL.isRecurring event).
      - destruct (passing_stops e event (Hinc eq_refl)) as (k & Hstop & Hrun).
        eexists (S k), _. intros fuel acc ?. apply expand_loop_halts; [done..|lia].
      - exists 0%nat. destruct (_ && _); eexists; intros fuel acc _; [done|].
        by rewrite app_nil_r. }
    exists (n `max` n1)%nat, (new1 ++ new). intros fuel acc ?. simpl.
    rewrite Hp by lia. simpl. rewrite IH by lia. by rewrite app_assoc.
Qed.

Lemma materialize_terminates ws e vevents :
  Forall (λ event, ICAL.isRecurring event = true → ends_or_passes event) vevents →
  ∃ n out, ∀ fuel, (n ≤ fuel)%nat →
    materialize fuel ws (ValidDate e) vevents = Some out.
Proof.
  intros (n & new & Hall)%(forEach_vevent_terminates ws e).
  exists n. eexists. intros fuel ?. unfold materialize.
  rewrite Hall by done. done.
Qed.

(** ** The day query *)

Lemma getEventsForDate_elem tz pl date ev :
  ev ∈ getEventsForDate tz pl date ↔
  ev ∈ events pl
  ∧ overlaps_day tz (hideAllDayEvents (settings pl))
      (setHours tz date 0 0 0 0) (setHours tz date 23 59 59 999) ev = true.
Proof.
  unfold getEventsForDate. rewrite array_sort_elem.
  by rewrite !list_elem_of_In, List.filter_In.
Qed.

(** The bounds of the local day that contains the instant [q]. *)
Lemma day_bounds tz q day :
  Z.abs tz ≤ msPerDay → 0 ≤ day → day * msPerDay + 2 * msPerDay ≤ maxTime →
  day * msPerDay - tz ≤ q < day * msPerDay + msPerDay - tz →
  setHours tz (ValidDate q) 0 0 0 0 = ValidDate (day * msPerDay - tz)
  ∧ setHours tz (ValidDate q) 23 59 59 999
    = ValidDate (day * msPerDay + (msPerDay - 1) - tz).
Proof.
  intros Htz Hday Hmax Hq. unfold setHours; simpl.
  assert (Day (q + tz) = day) as ->.
  { unfold Day. symmetry. apply (Z.div_unique _ _ _ (q + tz - day * msPerDay)).
    - unfold msPerDay in *. lia.
    - lia. }
  unfold MakeDate, MakeTime.
  rewrite !TimeClip_valid;
    unfold msPerDay, msPerHour, msPerMinute, msPerSecond, maxTime in *;
    [split; f_equal; lia|lia..].
Qed.

(** C7, as the code has it. An event classified all-day is in the result
    of [getEventsForDate] exactly when the [hideAllDayEvents] setting is
    off, the event is in the list and it meets the day-overlap rule with its
    end reduced by one millisecond; so, with the setting off, the all-day
    event from 2025-06-10T00:00 to 2025-06-11T00:00 local time is in the
    result for every query instant of 2025-06-10 and for none of
    2025-06-11. *)
Theorem all_day_overlap_amended tz pl date ev :
  isAllDayEvent tz ev = true →
  (ev ∈ getEventsForDate tz pl date ↔
     hideAllDayEvents (settings pl) = false
     ∧ ev ∈ events pl
     ∧ matches (setHours tz date 0 0 0 0) (setHours tz date 23 59 59 999)
         (start ev) (new_Date (number_add (getTime (end_ ev)) (-1))) = true)
  ∧ (∀ q, hideAllDayEvents (settings pl) = false →
       Z.abs tz ≤ msPerDay → date = ValidDate q →
       start ev = ValidDate (jun10 - tz) → end_ ev = ValidDate (jun11 - tz) →
       ev ∈ events pl →
       (jun10 - tz ≤ q < jun11 - tz → ev ∈ getEventsForDate tz pl date)
       ∧ (jun11 - tz ≤ q < jun12 - tz → ev ∉ getEventsForDate tz pl date)).
Proof.
  intros Hall.
  assert (ev ∈ getEventsForDate tz pl date ↔
     hideAllDayEvents (settings pl) = false
     ∧ ev ∈ events pl
     ∧ matches (setHours tz date 0 0 0 0) (setHours tz date 23 59 59 999)
         (start ev) (new_Date (number_add (getTime (end_ ev)) (-1))) = true) as Hiff.
  { rewrite getEventsForDate_elem. unfold overlaps_day. rewrite Hall.
    destruct (hideAllDayEvents (settings pl)); simpl.
    - split; [by intros [_ ?]|by intros [? _]].
    - split; [by intros [??]|by intros (_ & ? & ?)]. }
  split; [exact Hiff|].
  intros q Hshow Htz -> Hstart Hend Hin. rewrite Hiff, Hstart, Hend. simpl.
  unfold jun10, jun11, jun12 in *. split; intros Hq.
  - split_and!; [done..|].
    destruct (day_bounds tz q 20249) as [-> ->]; [done|lia|done|unfold msPerDay in *; lia|].
    rewrite TimeClip_valid by (unfold msPerDay, maxTime in *; lia).
    unfold matches. apply orb_true_iff; left. apply orb_true_iff; left.
    rewrite andb_true_iff, date_ge_valid, date_le_valid. unfold msPerDay. lia.
  - intros (_ & _ & Hm). revert Hm.
    destruct (day_bounds tz q 20250) as [-> ->]; [done|lia|done|unfold msPerDay in *; lia|].
    rewrite TimeClip_valid by (unfold msPerDay, maxTime in *; lia).
    unfold matches.
    rewrite !orb_true_iff, !andb_true_iff, !date_ge_valid, !date_le_valid,
      date_lt_valid, date_gt_valid.
    unfold msPerDay. lia.
Qed.

Lemma all_day_overlap_amended_witness :
  (holiday 7200000 ∈ getEventsForDate 7200000 (mkPlugin showing [holiday 7200000])
                       (ValidDate (jun10 + 12 * msPerHour))
   ↔ hideAllDayEvents showing = false
     ∧ holiday 7200000 ∈ [holiday 7200000]
     ∧ matches (setHours 7200000 (ValidDate (jun10 + 12 * msPerHour)) 0 0 0 0)
         (setHours 7200000 (ValidDate (jun10 + 12 * msPerHour)) 23 59 59 999)
         (ValidDate (jun10 - 7200000)) (ValidDate (jun11 - 7200000 - 1)) = true)
  ∧ holiday 7200000 ∈ getEventsForDate 7200000 (mkPlugin showing [holiday 7200000])
                        (ValidDate (jun10 + 12 * msPerHour))
  ∧ holiday 7200000 ∉ getEventsForDate 7200000 (mkPlugin showing [holiday 7200000])
                        (ValidDate (jun11 + 12 * msPerHour)).
Proof.
  destruct (all_day_overlap_amended 7200000 (mkPlugin showing [holiday 7200000])
              (ValidDate (jun10 + 12 * msPerHour)) (holiday 7200000) eq_refl)
    as [Hiff Hday].
  destruct (all_day_overlap_amended 7200000 (mkPlugin showing [holiday 7200000])
              (ValidDate (jun11 + 12 * msPerHour)) (holiday 7200000) eq_refl)
    as [_ Hnext].
  split_and!; [exact Hiff| |].
  - apply (Hday (jun10 + 12 * msPerHour)); try reflexivity.
    + vm_compute; discriminate.
    + left.
    + vm_compute. split; [discriminate|reflexivity].
  - apply (Hnext (jun11 + 12 * msPerHour)); try reflexivity.
    + vm_compute; discriminate.
    + left.
    + vm_compute. split; [discriminate|reflexivity].
Defined.

(** C7 as stated fails: with [hideAllDayEvents] set, the all-day event of
    2025-06-10 meets the reduced-end overlap rule for that day and is still
    not in the result. *)
Lemma all_day_overlap_counterexample :
  isAllDayEvent 0 (holiday 0) = true
  ∧ matches (setHours 0 (ValidDate jun10) 0 0 0 0)
      (setHours 0 (ValidDate jun10) 23 59 59 999)
      (start (holiday 0)) (new_Date (number_add (getTime (end_ (holiday 0))) (-1))) = true
  ∧ holiday 0 ∉ getEventsForDate 0 (mkPlugin hiding [holiday 0]) (ValidDate jun10).
Proof.
  split_and!; [by vm_compute..|].
  intros Hin. by apply elem_of_nil in Hin.
Qed.

(** A timed event that runs over midnight is shown on both days, after the
    all-day events of the day. *)
Example timed_event_on_both_days :
  getEventsForDate 0 (mkPlugin showing [late_call; holiday 0]) (ValidDate jun10)
  = [holiday 0; late_call]
  ∧ getEventsForDate 0 (mkPlugin showing [late_call; holiday 0]) (ValidDate jun11)
    = [late_call].
Proof. by vm_compute. Qed.

(** ** The event store *)

Lemma notices_app l1 l2 : notices (l1 ++ l2) = notices l1 ++ notices l2.
Proof. unfold notices. apply omap_app. Qed.

Ltac run_unfold :=
  unfold try_catch, or_throw, or_diverge, when, throw, emit, get_settings,
    get_events, set_events, loadData, saveData, mbind, Run_bind, mret, Run_ret.

Lemma mapM_fmap_id {A B} (f : A → B) (items : list (option A)) :
  mapM (fmap f) items = (λ l : list A, f <$> l) <$> mapM id items.
Proof.
  induction items as [|[item|] items IH]; [done| |done].
  simpl. rewrite IH. by destruct (mapM id items).
Qed.

Lemma map_revive_usable host d :
  match disk_record d !! "cachedEvents" with
  | Some v => if json_truthy v then map_revive host v else None
  | None => None
  end = (λ items : list CachedEvent, revive host <$> items) <$> usable_cache d.
Proof.
  unfold usable_cache. destruct (disk_record d !! "cachedEvents") as [v|]; [|done].
  destruct v as [|b|n|s|items|]; simpl; try by repeat case_match.
  apply mapM_fmap_id.
Qed.

(** What [loadCachedEvents] does in any world: it returns, leaves settings
    and data file alone, and replaces the events by the revived cache when
    the data file offers one. *)
Lemma loadCachedEvents_run host w :
  ∃ w', loadCachedEvents host w = Returned () w'
    ∧ disk w' = disk w
    ∧ settings (plugin w') = settings (plugin w)
    ∧ events (plugin w') =
        match usable_cache (disk w) with
        | Some items => revive host <$> items
        | None => events (plugin w)
        end.
Proof.
  pose proof (map_revive_usable host (disk w)) as Hcache.
  unfold loadCachedEvents. run_unfold.
  destruct w as [pl d eff]; simpl in *.
  destruct d as [| |data]; simpl in *.
  - eexists; split_and!; done.
  - eexists; split_and!; done.
  - destruct (data !! "cachedEvents") as [v|] eqn:Hv; simpl in *.
    + destruct (json_truthy v); simpl in *.
      * destruct (map_revive host v) as [evs|]; simpl in *;
          destruct (usable_cache (Data data)); simplify_eq/=;
          eexists; split_and!; done.
      * destruct (usable_cache (Data data)); simplify_eq/=.
        eexists; split_and!; done.
    + destruct (usable_cache (Data data)); simplify_eq/=.
      eexists; split_and!; done.
Qed.

Lemma usable_cache_Some d items :
  usable_cache d = Some items ↔
  ∃ data, d = Data data ∧ data !! "cachedEvents" = Some (JEvents (Some <$> items)).
Proof.
  assert (∀ l : list (option CachedEvent), mapM id l = Some items ↔ l = Some <$> items)
    as Hall.
  { intros l. revert items. induction l as [|[x|] l IH]; intros items; simpl.
    - split; [by intros [= <-]|by destruct items].
    - destruct (mapM id l) as [xs|] eqn:Hl; simpl.
      + split.
        * intros [= <-]. rewrite fmap_cons. f_equal. by apply IH.
        * destruct items as [|y ys]; [done|]. rewrite fmap_cons.
          intros [= -> Hys]. apply IH in Hys. by injection Hys as ->.
      + split; [done|]. destruct items as [|y ys]; [done|]. rewrite fmap_cons.
        intros [= _ Hys]. by apply IH in Hys.
    - split; [done|by destruct items]. }
  unfold usable_cache. destruct d as [| |data]; simpl.
  - rewrite lookup_empty. split; [done|by intros (? & ? & _)].
  - rewrite lookup_empty. split; [done|by intros (? & ? & _)].
  - split.
    + destruct (data !! "cachedEvents") as [[| | | |l|]|] eqn:Hl; try done.
      intros Hitems. apply Hall in Hitems as ->. by exists data.
    + intros (data' & [= <-] & ->). by apply Hall.
Qed.

(** C9, as the code has it. [loadCachedEvents] always returns to its
    caller, never with an exception. At startup the in-memory list is left
    empty when the data file is missing, cannot be parsed, has no
    [cachedEvents] or holds under it something else than an array of event
    objects (a [null] element included); an array of event objects is
    loaded as it is, one entry for each element, whatever its date strings
    hold. An unparseable data file makes [loadSettings], which [onload]
    calls before, throw. *)
Theorem loadCachedEvents_amended host st d :
  (∀ w, ∃ w', loadCachedEvents host w = Returned () w')
  ∧ (∃ w', loadCachedEvents host (startup st d) = Returned () w'
       ∧ events (plugin w') =
           match usable_cache d with
           | Some items => revive host <$> items
           | None => []
           end)
  ∧ (∀ items, usable_cache d = Some items ↔
       ∃ data, d = Data data
         ∧ data !! "cachedEvents" = Some (JEvents (Some <$> items)))
  ∧ loadSettings (startup st Unreadable) = Thrown (startup st Unreadable).
Proof.
  split_and!.
  - intros w. destruct (loadCachedEvents_run host w) as (w' & ? & _). by exists w'.
  - destruct (loadCachedEvents_run host (startup st d)) as (w' & ? & _ & _ & ?).
    by exists w'.
  - intros items. apply usable_cache_Some.
  - done.
Qed.

(** C9 as stated fails. A cache whose one event has garbled dates is not
    reduced to an empty list: the event is loaded, with invalid dates, and
    no error is logged. And an unparseable data file is a failure at
    startup: [loadSettings] throws before [loadCachedEvents] is called. *)
Lemma loadCachedEvents_counterexample :
  loadCachedEvents (sample_host None) (startup showing garbled_cache)
  = Returned ()
      {| plugin :=
           {| settings := showing;
              events := [{| uid := "call"; summary := "Late call"; description := "";
                            location := ""; start := InvalidDate; end_ := InvalidDate;
                            attendees := ["Ann"] |}] |};
         disk := garbled_cache;
         effects := [ConsoleLog "Loaded 1 cached events"; RefreshViews] |}
  ∧ loadSettings (startup showing Unreadable) = Thrown (startup showing Unreadable).
Proof. split; by vm_compute. Qed.

(** ** saveEvents changes the cached events only *)

(** What [saveEvents] does in any world. *)
Lemma saveEvents_run host w :
  ∃ w', saveEvents host w = Returned () w'
    ∧ plugin w' = plugin w
    ∧ notices (effects w') = notices (effects w)
    ∧ (disk w' = disk w
       ∨ ∃ cachedEvents,
           disk w' = Data (<["cachedEvents" := cachedEvents]> (disk_record (disk w)))).
Proof.
  unfold saveEvents. run_unfold. destruct w as [pl d eff]; simpl.
  destruct d as [| |data]; simpl;
    destruct (mapM serialize (events pl)) as [cached|]; simpl;
    destruct (disk_write_ok host); simpl;
    eexists; (split; [done|]); simpl; rewrite ?notices_app; simpl;
    rewrite ?app_nil_r; eauto.
Qed.

(** C10. [saveEvents] always returns; it leaves the plugin's state alone;
    the data file is either untouched or holds the record that was read
    with [cachedEvents] replaced; so every other field of the record, the
    five settings among them, is as before. *)
Theorem saveEvents_frame host w :
  ∃ w', saveEvents host w = Returned () w'
    ∧ plugin w' = plugin w
    ∧ (disk w' = disk w
       ∨ ∃ cachedEvents,
           disk w' = Data (<["cachedEvents" := cachedEvents]> (disk_record (disk w))))
    ∧ delete "cachedEvents" (disk_record (disk w'))
      = delete "cachedEvents" (disk_record (disk w))
    ∧ Forall (λ key, disk_record (disk w') !! key = disk_record (disk w) !! key)
        ["icsUrl"; "templatePath"; "notesFolder"; "trimTeamsLinks";
         "hideAllDayEvents"].
Proof.
  destruct (saveEvents_run host w) as (w' & Hrun & Hpl & _ & Hdisk).
  exists w'. split_and!; [done..| |].
  - destruct Hdisk as [->|[v ->]]; [done|]. simpl. by rewrite delete_insert_eq.
  - destruct Hdisk as [->|[v ->]]; [by apply Forall_true|]. simpl.
    repeat constructor; by rewrite lookup_insert_ne.
Qed.

(** ** Notifications and state in the refresh pipeline *)

Lemma same_state_refl w : same_state w w.
Proof. done. Qed.

Section alike.
Context {A B : Type}.

Lemma alike_bind (m1 m2 : Run A) (f1 f2 : A → Run B) :
  alike m1 m2 → (∀ a, alike (f1 a) (f2 a)) → alike (m1 ≫= f1) (m2 ≫= f2).
Proof.
  intros Hm Hf w1 w2 Hw. specialize (Hm w1 w2 Hw).
  unfold mbind, Run_bind.
  destruct (m1 w1), (m2 w2); simpl in *; try done.
  destruct Hm as [-> ?]. by apply Hf.
Qed.

Lemma alike_try_catch (b1 b2 h1 h2 : Run A) :
  alike b1 b2 → alike h1 h2 → alike (try_catch b1 h1) (try_catch b2 h2).
Proof.
  intros Hb Hh w1 w2 Hw. specialize (Hb w1 w2 Hw). unfold try_catch.
  destruct (b1 w1), (b2 w2); simpl in *; try done. by apply Hh.
Qed.

Lemma alike_pure (m : Run A) :
  (∀ w1 w2, same_state w1 w2 → agree (m w1) (m w2)) → alike m m.
Proof. done. Qed.

Lemma alike_ret (a : A) : alike (mret a) (mret a).
Proof. by intros w1 w2 ?. Qed.

Lemma alike_throw : alike (@throw A) throw.
Proof. by intros w1 w2 ?. Qed.

Lemma alike_or_throw (r : option A) : alike (or_throw r) (or_throw r).
Proof. destruct r; [apply alike_ret|apply alike_throw]. Qed.

Lemma alike_or_diverge (r : option A) : alike (or_diverge r) (or_diverge r).
Proof. destruct r; [apply alike_ret|]. by intros w1 w2 ?. Qed.
End alike.

Lemma alike_when_emit b1 b2 e1 e2 : alike (when b1 (emit e1)) (when b2 (emit e2)).
Proof. by destruct b1, b2; intros w1 w2 [??]. Qed.

Lemma alike_emit e1 e2 : alike (emit e1) (emit e2).
Proof. apply (alike_when_emit true true). Qed.

Lemma alike_get_settings : alike get_settings get_settings.
Proof. intros w1 w2 Hw; simpl. by rewrite (proj1 Hw). Qed.

Lemma alike_get_events : alike get_events get_events.
Proof. intros w1 w2 Hw; simpl. by rewrite (proj1 Hw). Qed.

Lemma alike_set_events evs : alike (set_events evs) (set_events evs).
Proof. intros w1 w2 [Hp Hd]; simpl. rewrite Hp. by repeat split. Qed.

Lemma alike_loadData : alike loadData loadData.
Proof.
  intros w1 w2 Hw. unfold loadData. rewrite (proj2 Hw). by destruct (disk w2).
Qed.

Lemma alike_saveData host data : alike (saveData host data) (saveData host data).
Proof.
  intros w1 w2 [Hp Hd]. unfold saveData.
  destruct (disk_write_ok host); simpl; by repeat split.
Qed.

Lemma alike_log_each (f : CalendarEvent → Effect) evs :
  alike (mapM (λ event, emit (f event)) evs) (mapM (λ event, emit (f event)) evs).
Proof.
  induction evs as [|ev evs IH]; [apply alike_ret|].
  simpl. apply alike_bind; [apply alike_emit|]. intros [].
  apply alike_bind; [done|]. intros k. apply alike_ret.
Qed.

Lemma alike_saveEvents host : alike (saveEvents host) (saveEvents host).
Proof.
  apply alike_try_catch; [|apply alike_emit].
  apply alike_bind; [apply alike_loadData|]. intros loaded.
  apply alike_bind; [apply alike_get_events|]. intros evs.
  apply alike_bind; [apply alike_or_throw|]. intros cached.
  apply alike_bind; [apply alike_saveData|]. intros _. apply alike_emit.
Qed.

Lemma alike_parseICSData host fuel icsData :
  alike (parseICSData host fuel icsData) (parseICSData host fuel icsData).
Proof.
  apply alike_try_catch.
  - apply alike_bind; [apply alike_or_throw|]. intros vevents.
    apply alike_bind; [apply alike_emit|]. intros _.
    destruct (existsb ICAL.throws vevents).
    + apply alike_bind; [apply alike_or_diverge|]. intros _. apply alike_throw.
    + apply alike_bind; [apply alike_or_diverge|]. intros evs.
      apply alike_bind; [apply alike_set_events|]. intros _.
      apply alike_bind; [apply alike_saveEvents|]. intros _. apply alike_emit.
  - apply alike_bind; [apply alike_emit|]. intros _. apply alike_emit.
Qed.

(** A manual and a background refresh differ in what they show only: from
    worlds with the same plugin state and data file they end alike, with
    the same event list and the same data file. *)
Lemma fetchCalendarEvents_alike host fuel :
  alike (fetchCalendarEvents host fuel true) (fetchCalendarEvents host fuel false).
Proof.
  apply alike_bind; [apply alike_get_settings|]. intros st.
  destruct (negb (truthy (icsUrl st))); [apply alike_when_emit|].
  apply alike_try_catch.
  - apply alike_bind; [apply alike_when_emit|]. intros _.
    apply alike_bind; [apply alike_or_throw|]. intros response.
    apply alike_bind.
    { case_bool_decide; [apply alike_throw|apply alike_ret]. }
    intros _.
    apply alike_bind; [apply alike_parseICSData|]. intros _.
    apply alike_bind; [apply alike_get_events|]. intros evs.
    apply alike_bind; [apply alike_when_emit|]. intros _.
    apply alike_bind; [apply alike_emit|]. intros _.
    apply alike_bind; [apply alike_log_each|]. intros _. apply alike_ret.
  - apply alike_bind; [apply alike_emit|]. intros _. apply alike_when_emit.
Qed.

(** ** What a background refresh shows *)

Lemma log_each_run (f : CalendarEvent → string) evs w :
  ∃ k w', mapM (λ event, emit (ConsoleLog (f event))) evs w = Returned k w'
    ∧ plugin w' = plugin w ∧ disk w' = disk w
    ∧ notices (effects w') = notices (effects w).
Proof.
  revert w. induction evs as [|ev evs IH]; intros w.
  - by exists [], w.
  - simpl. unfold mbind at 1, Run_bind at 1, emit at 1.
    unfold mbind at 1, Run_bind at 1.
    destruct (IH {| plugin := plugin w; disk := disk w;
                    effects := effects w ++ [ConsoleLog (f ev)] |})
      as (k & w' & -> & ? & ? & Hn).
    eexists _, w'. split; [done|]. simpl in *. split_and!; [done..|].
    rewrite Hn, notices_app; simpl. by rewrite app_nil_r.
Qed.

(** Once the feed text is parsed and its events can be read,
    [parseICSData] shows nothing and does not throw. *)
Lemma parseICSData_parsed host fuel icsData vevents w :
  ICAL_parse host icsData = Some vevents →
  existsb ICAL.throws vevents = false →
  match parseICSData host fuel icsData w with
  | Returned _ w' => notices (effects w') = notices (effects w)
  | Thrown _ => False
  | OutOfFuel => True
  end.
Proof.
  intros Hparse Hread. unfold parseICSData. run_unfold. rewrite Hparse; simpl.
  rewrite Hread.
  destruct (materialize _ _ _ _) as [evs|]; simpl; [|done].
  match goal with |- context [saveEvents host ?w1] =>
    destruct (saveEvents_run host w1) as (w' & -> & _ & Hn & _) end.
  simpl. rewrite notices_app, Hn; simpl. rewrite notices_app; simpl.
  by rewrite !app_nil_r.
Qed.

(** When [ICAL.parse] rejects the feed text, [parseICSData] logs the error
    and shows a notification, whoever asked for the refresh. *)
Lemma parseICSData_rejected host fuel icsData w :
  ICAL_parse host icsData = None →
  parseICSData host fuel icsData w =
  Returned () {| plugin := plugin w; disk := disk w;
                 effects := (effects w ++ [ConsoleError "Error parsing ICS data:"])
                            ++ [Notice "Error parsing calendar data"] |}.
Proof. intros Hparse. unfold parseICSData. run_unfold. by rewrite Hparse. Qed.

(** The same holds when reading an event of the parsed feed throws; what
    was gathered from the events before it is dropped. *)
Lemma parseICSData_unreadable host fuel icsData w :
  unreadable_feed host icsData = true →
  match parseICSData host fuel icsData w with
  | Returned _ w' =>
    plugin w' = plugin w ∧ disk w' = disk w
    ∧ notices (effects w') = notices (effects w) ++ ["Error parsing calendar data"]
  | Thrown _ => False
  | OutOfFuel => True
  end.
Proof.
  unfold unreadable_feed. intros Hfeed.
  destruct (ICAL_parse host icsData) as [vevents|] eqn:Hparse.
  - unfold parseICSData. run_unfold. rewrite Hparse; simpl. rewrite Hfeed.
    destruct (forEach_vevent _ _ _ _ _); simpl; [|done].
    split_and!; [done..|]. rewrite !notices_app. simpl. by rewrite !app_nil_r.
  - rewrite (parseICSData_rejected host fuel icsData w Hparse). simpl.
    split_and!; [done..|]. rewrite !notices_app. simpl. by rewrite !app_nil_r.
Qed.

(** What [parseICSData] shows, and that it does not throw. *)
Lemma parseICSData_notices host fuel icsData w :
  match parseICSData host fuel icsData w with
  | Returned _ w' =>
    notices (effects w') =
    notices (effects w) ++
      (if unreadable_feed host icsData then ["Error parsing calendar data"] else [])
  | Thrown _ => False
  | OutOfFuel => True
  end.
Proof.
  destruct (unreadable_feed host icsData) eqn:Hfeed.
  - pose proof (parseICSData_unreadable host fuel icsData w Hfeed) as Hp.
    destruct (parseICSData host fuel icsData w); [|done..]. by destruct Hp as (_ & _ & ?).
  - unfold unreadable_feed in Hfeed.
    destruct (ICAL_parse host icsData) as [vevents|] eqn:Hparse; [|done].
    pose proof (parseICSData_parsed host fuel icsData vevents w Hparse Hfeed) as Hp.
    destruct (parseICSData host fuel icsData w); [|done..]. by rewrite app_nil_r.
Qed.

(** A background refresh shows nothing, except for the notification of
    [parseICSData] when the feed text is rejected. *)
Lemma background_notices host fuel w :
  match fetchCalendarEvents host fuel false w with
  | Returned _ w' | Thrown w' =>
    notices (effects w') =
    notices (effects w) ++
      (if parse_fails host (settings (plugin w))
       then ["Error parsing calendar data"] else [])
  | OutOfFuel => True
  end.
Proof.
  unfold fetchCalendarEvents, parse_fails.
  unfold mbind at 1, Run_bind at 1, get_settings at 1.
  destruct (truthy (icsUrl (settings (plugin w)))); simpl; [|by rewrite app_nil_r].
  unfold try_catch, mbind at 1, Run_bind at 1; simpl.
  unfold mbind at 1, Run_bind at 1.
  destruct (requestUrl host _) as [[status text]|]; simpl.
  2: { rewrite notices_app; simpl. by rewrite !app_nil_r. }
  unfold mbind at 1, Run_bind at 1.
  case_bool_decide as Hstatus; simpl.
  { rewrite bool_decide_eq_false_2 by done. simpl.
    rewrite notices_app; simpl. by rewrite !app_nil_r. }
  rewrite bool_decide_eq_true_2 by (by destruct (decide (status = 200))).
  unfold mbind at 1, Run_bind at 1.
  pose proof (parseICSData_notices host fuel text w) as Hp.
  destruct (parseICSData host fuel text w) as [[] w1|w1|]; [|done..].
  unfold mbind at 1, Run_bind at 1, get_events at 1.
  unfold mbind at 1, Run_bind at 1; simpl.
  unfold mbind at 1, Run_bind at 1; simpl.
  unfold mbind at 1, Run_bind at 1.
  match goal with |- context [mapM _ ?evs ?w2] =>
    destruct (log_each_run (λ event, "- " +:+ summary event) evs w2)
      as (k & w' & -> & _ & _ & Hn) end.
  simpl in *. rewrite Hn, notices_app, Hp; simpl. by rewrite !app_nil_r.
Qed.

(** C5, where the code departs from it. When the feed is fetched and
    [ICAL.parse] rejects its text, a background refresh (not manual) returns
    with plugin state and data file unchanged and has shown the notification
    "Error parsing calendar data". *)
Theorem background_parse_error_notice host fuel w text :
  truthy (icsUrl (settings (plugin w))) = true →
  requestUrl host (icsUrl (settings (plugin w))) = Some (200, text) →
  ICAL_parse host text = None →
  ∃ w', fetchCalendarEvents host fuel false w = Returned () w'
    ∧ plugin w' = plugin w ∧ disk w' = disk w
    ∧ notices (effects w') = notices (effects w) ++ ["Error parsing calendar data"].
Proof.
  intros Hurl Hreq Hparse. unfold fetchCalendarEvents.
  unfold mbind at 1, Run_bind at 1, get_settings at 1.
  rewrite Hurl; simpl.
  unfold try_catch, mbind at 1, Run_bind at 1; simpl.
  unfold mbind at 1, Run_bind at 1. rewrite Hreq; simpl.
  unfold mbind at 1, Run_bind at 1; simpl.
  unfold mbind at 1, Run_bind at 1.
  rewrite (parseICSData_rejected host fuel text w Hparse).
  unfold mbind at 1, Run_bind at 1, get_events at 1.
  unfold mbind at 1, Run_bind at 1; simpl.
  unfold mbind at 1, Run_bind at 1; simpl.
  unfold mbind at 1, Run_bind at 1.
  match goal with |- context [mapM _ ?evs ?w2] =>
    destruct (log_each_run (λ event, "- " +:+ summary event) evs w2)
      as (k & w' & -> & Hpl & Hd & Hn) end.
  simpl in *. exists w'. split_and!; [done..|].
  rewrite Hn, !notices_app; simpl. by rewrite !app_nil_r.
Qed.

Lemma background_parse_error_notice_witness :
  ∃ w', fetchCalendarEvents (sample_host None) 0 false (startup showing NoData)
        = Returned () w'
    ∧ plugin w' = plugin (startup showing NoData)
    ∧ disk w' = disk (startup showing NoData)
    ∧ notices (effects w') =
      notices (effects (startup showing NoData)) ++ ["Error parsing calendar data"].
Proof.
  apply (background_parse_error_notice (sample_host None) 0 (startup showing NoData)
           "BEGIN:VCALENDAR"); reflexivity.
Defined.

(** A background refresh that succeeds: the daily event is expanded over the
    ten weeks around the host's clock, cached, and nothing is shown. *)
Example background_refresh_succeeds :
  ∃ w', fetchCalendarEvents (sample_host (Some [standup])) 400 false
          (startup showing NoData) = Returned () w'
    ∧ length (events (plugin w')) = 71%nat
    ∧ length <$> usable_cache (disk w') = Some 71%nat
    ∧ notices (effects w') = [].
Proof. eexists. split; [by vm_compute|]. by vm_compute. Qed.

(** ** Calendar fields of a time value *)

Lemma year_of_day_spec d :
  DayFromYear (year_of_day d) ≤ d < DayFromYear (year_of_day d + 1).
Proof.
  unfold year_of_day. cbv zeta.
  repeat case_bool_decide; unfold DayFromYear in *; Z.div_mod_to_equations; lia.
Qed.

Lemma DayFromYear_succ y : DayFromYear (y + 1) = DayFromYear y + 365 + leap_days y.
Proof.
  unfold leap_days, DaysInYear, DayFromYear.
  repeat case_bool_decide; Z.div_mod_to_equations; lia.
Qed.

Lemma leap_days_range y : 0 ≤ leap_days y ≤ 1.
Proof. unfold leap_days. case_bool_decide; lia. Qed.

Lemma DayWithinYear_range t :
  0 ≤ DayWithinYear t < 365 + InLeapYear t.
Proof.
  unfold DayWithinYear, InLeapYear, YearFromTime.
  pose proof (year_of_day_spec (Day t)) as Hy.
  rewrite DayFromYear_succ in Hy. lia.
Qed.

Lemma year_range t :
  Z.abs t ≤ maxTime → -271821 ≤ YearFromTime t ≤ 275760.
Proof.
  intros Ht. unfold YearFromTime.
  pose proof (year_of_day_spec (Day t)) as Hy.
  assert (-100000000 ≤ Day t ≤ 100000000) as Hd.
  { unfold Day, msPerDay, maxTime in *. Z.div_mod_to_equations. lia. }
  revert Hy. generalize (year_of_day (Day t)). intros y.
  unfold DayFromYear. Z.div_mod_to_equations. lia.
Qed.

(** Month and day of the month locate the day within its year. *)
Lemma month_date_spec t :
  0 ≤ MonthFromTime t ≤ 11
  ∧ 1 ≤ DateFromTime t ≤ DaysInMonth (YearFromTime t) (MonthFromTime t)
  ∧ month_offset (InLeapYear t) (MonthFromTime t) + DateFromTime t - 1
    = DayWithinYear t.
Proof.
  pose proof (DayWithinYear_range t) as Hd.
  pose proof (leap_days_range (YearFromTime t)) as Hl.
  unfold DaysInMonth, DateFromTime, MonthFromTime. fold (InLeapYear t) in *.
  repeat case_bool_decide; simpl; lia.
Qed.

Lemma MakeDay_fields t :
  MakeDay (YearFromTime t) (MonthFromTime t) (DateFromTime t) = Day t.
Proof.
  destruct (month_date_spec t) as (Hm & _ & Hoff).
  unfold MakeDay. cbv zeta.
  rewrite Z.div_small, Z.mod_small, Z.add_0_r by lia.
  fold (InLeapYear t). unfold DayWithinYear in Hoff. lia.
Qed.

Lemma MakeTime_fields t :
  MakeTime (HourFromTime t) (MinFromTime t) (SecFromTime t) (msFromTime t)
  = TimeWithinDay t.
Proof.
  unfold MakeTime, HourFromTime, MinFromTime, SecFromTime, msFromTime,
    TimeWithinDay, msPerDay, msPerHour, msPerMinute, msPerSecond.
  Z.div_mod_to_equations. lia.
Qed.

Lemma MakeDate_fields t :
  MakeDate (MakeDay (YearFromTime t) (MonthFromTime t) (DateFromTime t))
    (MakeTime (HourFromTime t) (MinFromTime t) (SecFromTime t) (msFromTime t))
  = t.
Proof.
  rewrite MakeDay_fields, MakeTime_fields.
  unfold MakeDate, Day, TimeWithinDay, msPerDay. Z.div_mod_to_equations. lia.
Qed.

Lemma time_fields_range t :
  0 ≤ HourFromTime t ≤ 23 ∧ 0 ≤ MinFromTime t ≤ 59
  ∧ 0 ≤ SecFromTime t ≤ 59 ∧ 0 ≤ msFromTime t ≤ 999.
Proof.
  unfold HourFromTime, MinFromTime, SecFromTime, msFromTime, msPerSecond.
  Z.div_mod_to_equations. lia.
Qed.

(** ** Reading back what [toISOString] writes *)

Lemma digit_cases d :
  0 ≤ d ≤ 9 →
  d = 0 ∨ d = 1 ∨ d = 2 ∨ d = 3 ∨ d = 4 ∨ d = 5 ∨ d = 6 ∨ d = 7 ∨ d = 8 ∨ d = 9.
Proof. lia. Qed.

Lemma digit_value_char d : 0 ≤ d ≤ 9 → digit_value (digit_char d) = Some d.
Proof. intros Hd%digit_cases. by repeat destruct Hd as [->|Hd]; [..|subst d]. Qed.

Lemma read_pad_digits w k acc v rest :
  0 ≤ v < 10 ^ Z.of_nat w →
  read_digits (w + k) acc (pad_digits w v rest)
  = read_digits k (acc * 10 ^ Z.of_nat w + v) rest.
Proof.
  revert k v rest. induction w as [|w IH]; intros k v rest Hv.
  - simpl in *. f_equal. lia.
  - rewrite Nat2Z.inj_succ, Z.pow_succ_r in Hv by lia.
    simpl pad_digits. replace (S w + k)%nat with (w + S k)%nat by lia. rewrite IH.
    + simpl. rewrite digit_value_char by (Z.div_mod_to_equations; lia). simpl.
      f_equal. rewrite Nat2Z.inj_succ, Z.pow_succ_r by lia.
      Z.div_mod_to_equations. lia.
    + Z.div_mod_to_equations. lia.
Qed.

Lemma read_padded w v rest :
  0 ≤ v < 10 ^ Z.of_nat w →
  read_digits w 0 (pad_digits w v rest) = Some (v, rest).
Proof.
  intros Hv. rewrite <-(Nat.add_0_r w) at 1. rewrite read_pad_digits by done.
  by rewrite Z.mul_0_l.
Qed.

Lemma read_year_digit d s :
  0 ≤ d ≤ 9 →
  read_year (String (digit_char d) s) = read_digits 4 0 (String (digit_char d) s).
Proof. intros Hd%digit_cases. by repeat destruct Hd as [->|Hd]; [..|subst d]. Qed.

Lemma read_year_minus s :
  read_year (String "-" s) =
  '(y, rest) ← read_digits 6 0 s; if decide (y = 0) then None else Some (- y, rest).
Proof. done. Qed.

Lemma read_year_plus s : read_year (String "+" s) = read_digits 6 0 s.
Proof. done. Qed.

Lemma read_iso_year y rest :
  -999999 ≤ y ≤ 999999 → read_year (iso_year y rest) = Some (y, rest).
Proof.
  intros Hy. unfold iso_year. repeat case_bool_decide.
  - rewrite <-(read_padded 4 y rest) by lia.
    simpl pad_digits. apply read_year_digit. Z.div_mod_to_equations. lia.
  - rewrite read_year_minus, read_padded by lia. simpl.
    case_decide; [lia|]. do 2 f_equal. lia.
  - rewrite read_year_plus. apply read_padded. lia.
Qed.

Lemma read_char_same c s : read_char c (String c s) = Some s.
Proof. simpl. by rewrite decide_True. Qed.

Lemma parse_iso_string t :
  Z.abs t ≤ maxTime → parse_iso (iso_string t) = Some t.
Proof.
  intros Ht.
  pose proof (year_range t Ht) as Hy.
  destruct (month_date_spec t) as (Hm & Hd & _).
  destruct (time_fields_range t) as (Hh & Hmi & Hs & Hms).
  assert (DaysInMonth (YearFromTime t) (MonthFromTime t) ≤ 31) as Hdim.
  { unfold DaysInMonth. pose proof (leap_days_range (YearFromTime t)).
    assert (MonthFromTime t ∈ [0; 1; 2; 3; 4; 5; 6; 7; 8; 9; 10; 11]) as Hcases.
    { rewrite !elem_of_cons. lia. }
    rewrite !elem_of_cons in Hcases.
    repeat destruct Hcases as [->|Hcases]; simpl; try lia.
    by apply elem_of_nil in Hcases. }
  unfold parse_iso, iso_string.
  rewrite read_iso_year by lia.
  repeat (cbn [mbind option_bind];
          first [rewrite read_char_same | rewrite read_padded by lia]).
  cbn [mbind option_bind].
  replace (MonthFromTime t + 1 - 1) with (MonthFromTime t) by lia.
  rewrite bool_decide_eq_true_2 by (split_and!; [done|lia..]).
  by rewrite MakeDate_fields.
Qed.

(** A representable date is read back from its ISO string as it was. *)
Lemma Date_parse_toISOString fallback t :
  Z.abs t ≤ maxTime →
  Date_parse fallback <$> toISOString (ValidDate t) = Some (ValidDate t).
Proof.
  intros Ht. simpl. unfold Date_parse.
  by rewrite parse_iso_string, TimeClip_valid.
Qed.

(** ** Saving and loading *)

Lemma serialize_revive host event :
  valid_times event → revive host <$> serialize event = Some event.
Proof.
  intros (s & e & Hs & He & ? & ?). unfold serialize. rewrite Hs, He.
  pose proof (Date_parse_toISOString (legacy_parse host) s) as Hrs.
  pose proof (Date_parse_toISOString (legacy_parse host) e) as Hre.
  simpl in *. unfold revive; simpl.
  injection (Hrs ltac:(done)) as ->. injection (Hre ltac:(done)) as ->.
  destruct event; simpl in *. by subst.
Qed.

Lemma serialize_all host evs :
  Forall valid_times evs →
  ∃ cached, mapM serialize evs = Some cached ∧ revive host <$> cached = evs.
Proof.
  induction 1 as [|event evs Hev _ (cached & Hcached & Hrev)].
  - by exists [].
  - apply (serialize_revive host) in Hev.
    destruct (serialize event) as [c|] eqn:Hc; [|done].
    exists (c :: cached). rewrite fmap_cons, Hrev.
    simpl. rewrite Hc, Hcached; simpl.
    split; [done|]. by injection Hev as ->.
Qed.

Lemma usable_cache_saved data (cached : list CachedEvent) :
  usable_cache (Data (<["cachedEvents" := JEvents (Some <$> cached)]> data))
  = Some cached.
Proof.
  unfold usable_cache; simpl. rewrite lookup_insert_eq.
  induction cached as [|c cached IH]; [done|].
  rewrite fmap_cons. simpl. by rewrite IH.
Qed.

Lemma saveEvents_written host w cached :
  disk_write_ok host = true → disk w ≠ Unreadable →
  mapM serialize (events (plugin w)) = Some cached →
  ∃ w', saveEvents host w = Returned () w'
    ∧ plugin w' = plugin w
    ∧ disk w' = Data (<["cachedEvents" := JEvents (Some <$> cached)]>
                        (disk_record (disk w))).
Proof.
  intros Hok Hdisk Hcached. unfold saveEvents. run_unfold.
  destruct w as [pl d eff]; simpl in *.
  destruct d as [| |data]; [|done|]; simpl; rewrite Hcached; simpl;
    rewrite Hok; simpl; eexists; split_and!; done.
Qed.

(** C8. When the data file is absent or readable and can be written, and
    every event of the in-memory list has valid, representable start and end
    times, then [saveEvents] followed by [loadCachedEvents], in the same
    session or after a restart with an empty list, yields the very same
    list: the same entries in the same order, every field equal, the times
    equal to the millisecond. *)
Theorem save_load_round_trip host w :
  disk_write_ok host = true → disk w ≠ Unreadable →
  Forall valid_times (events (plugin w)) →
  ∃ w1 w2 w3,
    saveEvents host w = Returned () w1
    ∧ loadCachedEvents host w1 = Returned () w2
    ∧ events (plugin w2) = events (plugin w)
    ∧ loadCachedEvents host (restart w1) = Returned () w3
    ∧ events (plugin w3) = events (plugin w).
Proof.
  intros Hok Hdisk Hvalid.
  destruct (serialize_all host _ Hvalid) as (cached & Hcached & Hrev).
  destruct (saveEvents_written host w cached Hok Hdisk Hcached)
    as (w1 & Hsave & Hpl & Hd).
  destruct (loadCachedEvents_run host w1) as (w2 & Hload2 & _ & _ & Hev2).
  destruct (loadCachedEvents_run host (restart w1)) as (w3 & Hload3 & _ & _ & Hev3).
  exists w1, w2, w3. simpl in Hev3.
  rewrite Hd, usable_cache_saved in Hev2, Hev3.
  split_and!; [done..|congruence|done|congruence].
Qed.

Example serialize_holiday :
  serialize (holiday 7200000)
  = Some {| c_uid := "holiday"; c_summary := "Holiday"; c_description := "";
            c_location := "";
            c_start := "2025-06-09T22:00:00.000Z";
            c_end := "2025-06-10T22:00:00.000Z";
            c_attendees := [] |}.
Proof. by vm_compute. Qed.

Lemma save_load_round_trip_witness :
  ∃ w1 w2 w3,
    saveEvents (sample_host None) two_events = Returned () w1
    ∧ loadCachedEvents (sample_host None) w1 = Returned () w2
    ∧ events (plugin w2) = events (plugin two_events)
    ∧ loadCachedEvents (sample_host None) (restart w1) = Returned () w3
    ∧ events (plugin w3) = events (plugin two_events).
Proof.
  apply (save_load_round_trip (sample_host None) two_events).
  - reflexivity.
  - discriminate.
  - apply Forall_cons. split.
    { exists (jun10 - 7200000), (jun11 - 7200000).
      split_and!; [reflexivity..|vm_compute; discriminate|vm_compute; discriminate]. }
    apply Forall_cons. split; [|apply Forall_nil_2].
    exists jun10, (jun10 + msPerHour).
    split_and!; [reflexivity..|vm_compute; discriminate|vm_compute; discriminate].
Defined.

(** * Further properties of the code *)

(** ** The sort of [Array.prototype.sort] *)

Section array_sort_order.
Context {A : Type} (cmp : A → A → Z) (P : A → Prop).
Hypothesis cmp_total : ∀ x y, P x → P y → cmp x y ≤ 0 ∨ cmp y x ≤ 0.
Hypothesis cmp_trans :
  ∀ x y z, P x → P y → P z → cmp x y ≤ 0 → cmp y z ≤ 0 → cmp x z ≤ 0.

Lemma sort_insert_sorted x l :
  P x → Forall P l →
  StronglySorted (λ a b, cmp a b ≤ 0) l →
  StronglySorted (λ a b, cmp a b ≤ 0) (sort_insert cmp x l).
Proof.
  intros Hx HP Hl. induction l as [|y l IH]; simpl.
  - repeat constructor.
  - apply Forall_cons in HP as [Hy HP].
    apply StronglySorted_cons in Hl as [Hyl Hl].
    case_bool_decide as Hxy.
    + apply StronglySorted_cons. split; [|by apply StronglySorted_cons].
      constructor; [done|].
      rewrite Forall_forall in Hyl, HP |- *. intros z Hz.
      apply (cmp_trans x y z); auto.
    + apply StronglySorted_cons. split; [|by apply IH].
      rewrite sort_insert_perm. constructor; [|done].
      destruct (cmp_total x y Hx Hy); [done|lia].
Qed.

Lemma array_sort_sorted l :
  Forall P l → StronglySorted (λ a b, cmp a b ≤ 0) (array_sort cmp l).
Proof.
  induction 1 as [|x l Hx Hl IH]; simpl; [constructor|].
  apply sort_insert_sorted; [done| |done].
  by rewrite array_sort_Forall.
Qed.
End array_sort_order.

(** Elements that the comparator does not tell apart keep their order. *)
Lemma sort_insert_stable {A} (cmp : A → A → Z) (f : A → bool) x l :
  (∀ a b, f a = true → f b = true → cmp a b ≤ 0) →
  List.filter f (sort_insert cmp x l) = List.filter f (x :: l).
Proof.
  intros Htie. induction l as [|y l IH]; [done|].
  simpl sort_insert. case_bool_decide as Hxy; [done|].
  simpl in *. rewrite IH.
  destruct (f x) eqn:Hfx, (f y) eqn:Hfy; try done.
  destruct Hxy. by apply Htie.
Qed.

Lemma array_sort_stable {A} (cmp : A → A → Z) (f : A → bool) l :
  (∀ a b, f a = true → f b = true → cmp a b ≤ 0) →
  List.filter f (array_sort cmp l) = List.filter f l.
Proof.
  intros Htie. induction l as [|x l IH]; [done|].
  simpl array_sort. rewrite sort_insert_stable by done.
  simpl. by rewrite IH.
Qed.

Lemma StronglySorted_lookup {A} (R : A → A → Prop) l i j a b :
  StronglySorted R l → (i < j)%nat → l !! i = Some a → l !! j = Some b → R a b.
Proof.
  intros Hl. revert i j. induction Hl as [|x l Hl IH Hx]; intros i j Hij Ha Hb.
  - by rewrite lookup_nil in Ha.
  - destruct i as [|i], j as [|j]; try lia; simpl in *.
    + injection Ha as ->. rewrite Forall_forall in Hx. apply Hx.
      by eapply list_elem_of_lookup_2.
    + apply (IH i j); [lia|done..].
Qed.

(** ** The materialized list is in start order *)

Lemma by_start_le a b ta tb :
  start a = ValidDate ta → start b = ValidDate tb → by_start a b ≤ 0 ↔ ta ≤ tb.
Proof. unfold by_start. intros -> ->. simpl. lia. Qed.

Lemma materialize_valid_starts fuel ws we vevents out :
  materialize fuel ws we vevents = Some out →
  Forall (λ ev, ∃ t, start ev = ValidDate t) out.
Proof.
  intros Horigin%materialize_origin.
  eapply Forall_impl; [exact Horigin|].
  intros ev (event & _ & (t & ? & ? & ? & _)%made_from_window). by exists t.
Qed.

(** X1. The list [parseICSData] produces is in ascending order of start:
    of two entries, the earlier one in the list does not start later. *)
Theorem materialize_sorted fuel ws we vevents out i j a b :
  materialize fuel ws we vevents = Some out →
  (i ≤ j)%nat → out !! i = Some a → out !! j = Some b →
  date_le (start a) (start b) = true.
Proof.
  intros Hout Hij Ha Hb.
  pose proof (materialize_valid_starts _ _ _ _ _ Hout) as Hvalid.
  rewrite Forall_forall in Hvalid.
  destruct (Hvalid a) as (ta & Hta); [by eapply list_elem_of_lookup_2|].
  destruct (Hvalid b) as (tb & Htb); [by eapply list_elem_of_lookup_2|].
  rewrite Hta, Htb. apply date_le_valid.
  destruct (decide (i = j)) as [->|Hne].
  { rewrite Ha in Hb. injection Hb as <-. rewrite Hta in Htb. by injection Htb as <-. }
  apply materialize_unfold in Hout as (allEvents & Hall & ->).
  assert (StronglySorted (λ a b, by_start a b ≤ 0)
            (array_sort by_start (deduplicate allEvents))) as Hsorted.
  { apply (array_sort_sorted by_start (λ ev, ∃ t, start ev = ValidDate t)).
    - intros x y [tx Hx] [ty Hy].
      rewrite (by_start_le x y tx ty), (by_start_le y x ty tx) by done. lia.
    - intros x y z [tx Hx] [ty Hy] [tz Hz].
      rewrite (by_start_le x y tx ty), (by_start_le y z ty tz),
        (by_start_le x z tx tz) by done. lia.
    - apply array_sort_Forall with (cmp := by_start).
      by apply Forall_forall. }
  apply (by_start_le a b ta tb Hta Htb).
  apply (StronglySorted_lookup (λ a b, by_start a b ≤ 0) _ i j a b Hsorted);
    [lia|done..].
Qed.

Lemma materialize_sorted_witness :
  date_le (start (occurrence_event standup ["Ann"; "Bob"; "Cy"] (ValidDate jun01)))
          (start (single_event (single "b" "Review" jun03) [])) = true.
Proof.
  eapply (materialize_sorted 200 (ValidDate jun01) (ValidDate jun03)
            [single "b" "Review" jun03; standup] _ 0 1).
  - vm_compute; reflexivity.
  - lia.
  - reflexivity.
  - reflexivity.
Defined.

(** X2. The sort is stable: entries of the list [parseICSData] produces that
    start at the same time stand in the order in which they were pushed. *)
Theorem materialize_stable fuel ws we vevents allEvents out d :
  forEach_vevent fuel ws we vevents [] = Some allEvents →
  materialize fuel ws we vevents = Some out →
  List.filter (λ ev, bool_decide (start ev = d)) out
  = List.filter (λ ev, bool_decide (start ev = d)) (deduplicate allEvents).
Proof.
  intros Hall (all' & Hall' & ->)%materialize_unfold.
  rewrite Hall in Hall'. injection Hall' as <-.
  apply array_sort_stable. intros a b Ha%bool_decide_eq_true Hb%bool_decide_eq_true.
  unfold by_start. rewrite Ha, Hb. destruct d; simpl; lia.
Qed.

Lemma materialize_stable_witness :
  List.filter (λ ev, bool_decide (start ev = ValidDate (jun01 + msPerDay)))
    [occurrence_event standup ["Ann"; "Bob"; "Cy"] (ValidDate jun01);
     single_event (single "b" "Review" jun03) [];
     occurrence_event standup ["Ann"; "Bob"; "Cy"] (ValidDate (jun01 + msPerDay));
     single_event (single "a" "Retro" jun03) [];
     occurrence_event standup ["Ann"; "Bob"; "Cy"] (ValidDate jun03)]
  = [single_event (single "b" "Review" jun03) [];
     occurrence_event standup ["Ann"; "Bob"; "Cy"] (ValidDate (jun01 + msPerDay));
     single_event (single "a" "Retro" jun03) []].
Proof.
  eapply (materialize_stable 200 (ValidDate jun01) (ValidDate jun03)
            [single "b" "Review" jun03; standup; single "a" "Retro" jun03]
            [single_event (single "b" "Review" jun03) [];
             occurrence_event standup ["Ann"; "Bob"; "Cy"] (ValidDate jun01);
             occurrence_event standup ["Ann"; "Bob"; "Cy"] (ValidDate (jun01 + msPerDay));
             occurrence_event standup ["Ann"; "Bob"; "Cy"] (ValidDate jun03);
             single_event (single "a" "Retro" jun03) []]);
    vm_compute; reflexivity.
Defined.

(** ** The early break of the expansion loses nothing for ordered rules *)

(** A loop that returns has met a first stopping call. *)
Lemma expand_loop_returned fuel ws we event atts i acc out :
  expand_loop fuel ws we event atts i acc = Some out →
  ∃ n, stops_at we event (i + n) = true
    ∧ (∀ j, (i ≤ j < i + n)%nat → stops_at we event j = false)
    ∧ out = acc ++ pushed ws we event atts i n.
Proof.
  revert i acc. induction fuel as [|fuel IH]; intros i acc; [done|].
  destruct (stops_at we event i) eqn:Hstop.
  - rewrite expand_loop_stop by done. intros [= <-].
    exists 0%nat. rewrite Nat.add_0_r. split_and!; [done|lia|].
    unfold pushed; simpl. by rewrite app_nil_r.
  - intros Hrun. pose proof Hstop as Hstop'.
    unfold stops_at in Hstop. simpl in Hrun.
    destruct (ICAL.occurrences event i) as [d|] eqn:Hd; [|done].
    rewrite Hstop in Hrun.
    assert (∃ acc', expand_loop fuel ws we event atts (S i) acc' = Some out
              ∧ acc' = acc ++ pushed ws we event atts i 1) as (acc' & Hrun' & ->).
    { unfold pushed; simpl. rewrite Hd; simpl.
      destruct (_ && _); eexists; (split; [exact Hrun|]); simpl; [done|].
      by rewrite app_nil_r. }
    apply IH in Hrun' as (n & Hn & Hbefore & ->).
    exists (S n). rewrite <-Nat.add_succ_comm. split_and!; [done| |].
    + intros j Hj. destruct (decide (j = i)) as [->|]; [done|]. apply Hbefore. lia.
    + rewrite <-app_assoc. f_equal. rewrite (pushed_S _ _ _ _ i n).
      unfold pushed at 1; simpl. rewrite Hd; simpl.
      by destruct (_ && _).
Qed.

Lemma pushed_elem ws we event atts n i d :
  (i < n)%nat → ICAL.occurrences event i = Some d →
  date_ge d ws && date_le d we = true →
  occurrence_event event atts d ∈ pushed ws we event atts 0 n.
Proof.
  intros Hi Hd Hin. unfold pushed. apply list_elem_of_fmap_2.
  apply list_elem_of_In, List.filter_In. split; [|done].
  apply list_elem_of_In, list_elem_of_omap. exists i. split; [|done].
  apply elem_of_seq. lia.
Qed.

(** X3. For a rule that generates its candidates in non-decreasing time
    order, the break at the first candidate past the window loses nothing:
    when the loop returns, every candidate of the rule that lies in the
    window (and is reached without the rule ending before) has been
    pushed. *)
Theorem expansion_complete fuel ws we event atts acc out i d :
  non_decreasing event →
  expand_loop fuel ws we event atts 0 acc = Some out →
  (∀ j, (j < i)%nat → is_Some (ICAL.occurrences event j)) →
  ICAL.occurrences event i = Some d →
  date_ge d ws && date_le d we = true →
  occurrence_event event atts d ∈ out.
Proof.
  intros Hord Hrun Hreach Hd Hin.
  apply expand_loop_returned in Hrun as (n & Hstop & _ & ->). simpl in Hstop.
  apply elem_of_app. right. apply (pushed_elem _ _ _ _ _ i); [|done..].
  destruct (decide (i < n)%nat) as [|Hge]; [done|]. exfalso.
  unfold stops_at in Hstop.
  destruct (ICAL.occurrences event n) as [dn|] eqn:Hn.
  - assert (date_le dn d = true) as Hle by (apply (Hord n i); [lia|done..]).
    apply andb_true_iff in Hin as [_ Hin].
    destruct dn as [tn|], d as [t|], we as [e|]; try done.
    apply date_gt_valid in Hstop. apply date_le_valid in Hle, Hin. lia.
  - destruct (decide (n = i)) as [->|]; [congruence|].
    destruct (Hreach n) as [? ?]; [lia|congruence].
Qed.

Lemma expansion_complete_witness :
  occurrence_event standup [] (ValidDate (jun01 + msPerDay))
  ∈ [occurrence_event standup [] (ValidDate jun01);
     occurrence_event standup [] (ValidDate (jun01 + msPerDay));
     occurrence_event standup [] (ValidDate jun03)].
Proof.
  apply (expansion_complete 200 (ValidDate jun01) (ValidDate jun03) standup [] []
           _ 152 (ValidDate (jun01 + msPerDay))).
  - intros i j a b Hij [= <-] [= <-]. apply date_le_valid. unfold msPerDay. lia.
  - vm_compute; reflexivity.
  - intros j _. by eexists.
  - reflexivity.
  - vm_compute; reflexivity.
Defined.

(** The order matters: once a candidate past the window has been met, the
    candidates behind it are never looked at. *)
Example unordered_rule_loses_occurrence :
  ICAL.occurrences unordered_rule 1 = Some (ValidDate jun01)
  ∧ ∀ fuel, expand_loop (S fuel) (ValidDate jun01) (ValidDate jun03)
              unordered_rule [] 0 [] = Some [].
Proof. split; [done|]. intros fuel. by vm_compute. Qed.

(** ** Defaults and attendees of materialized events *)

Lemma or_default_nonempty v dflt : dflt ≠ "" → or_default v dflt ≠ "".
Proof.
  intros Hd. unfold or_default, truthy. destruct v as [s|]; [|done].
  case_bool_decide; simpl; done.
Qed.

(** X4. No event of the list [parseICSData] produces has an empty summary:
    it is the summary of its VEVENT, or [Untitled Event] when the VEVENT has
    none or an empty one; description and location are those of the VEVENT,
    or empty. *)
Theorem materialize_defaults fuel ws we vevents out :
  materialize fuel ws we vevents = Some out →
  Forall (λ ev, summary ev ≠ "" ∧ ∃ event, event ∈ vevents
    ∧ summary ev = match ICAL.summary event with
                   | Some s => if bool_decide (s = "") then "Untitled Event" else s
                   | None => "Untitled Event"
                   end
    ∧ description ev = default "" (ICAL.description event)
    ∧ location ev = default "" (ICAL.location event)) out.
Proof.
  intros Horigin%materialize_origin.
  eapply Forall_impl; [exact Horigin|]. intros ev (event & Hin & Hmade).
  assert (summary ev = or_default (ICAL.summary event) "Untitled Event"
          ∧ description ev = or_default (ICAL.description event) ""
          ∧ location ev = or_default (ICAL.location event) "") as (Hs & Hd & Hl).
  { unfold made_from in Hmade. destruct (ICAL.isRecurring event).
    - by destruct Hmade as (? & ? & _ & _ & ->).
    - by destruct Hmade as [_ ->]. }
  split; [rewrite Hs; by apply or_default_nonempty|].
  exists event. split; [done|]. rewrite Hs, Hd, Hl.
  unfold or_default, truthy. split_and!.
  - destruct (ICAL.summary event); [|done]. by case_bool_decide.
  - destruct (ICAL.description event); [|done]. by case_bool_decide.
  - destruct (ICAL.location event); [|done]. by case_bool_decide.
Qed.

Lemma materialize_defaults_witness :
  Forall (λ ev, summary ev ≠ "" ∧ ∃ event, event ∈ [single "u" "" jun03]
    ∧ summary ev = match ICAL.summary event with
                   | Some s => if bool_decide (s = "") then "Untitled Event" else s
                   | None => "Untitled Event"
                   end
    ∧ description ev = default "" (ICAL.description event)
    ∧ location ev = default "" (ICAL.location event))
    [{| uid := "u"; summary := "Untitled Event"; description := ""; location := "";
        start := ValidDate (jun01 + msPerDay); end_ := ValidDate jun03;
        attendees := [] |}].
Proof.
  apply (materialize_defaults 1 (ValidDate jun01) (ValidDate jun03)
           [single "u" "" jun03]).
  vm_compute; reflexivity.
Defined.

Lemma extract_attendees_from acc props :
  foldl push_cn acc props = acc ++ extract_attendees props.
Proof.
  unfold extract_attendees. revert acc.
  induction props as [|cn props IH]; intros acc; simpl; [by rewrite app_nil_r|].
  rewrite IH, (IH (push_cn [] cn)), app_assoc. f_equal.
  destruct cn as [|s|l]; simpl; [by rewrite app_nil_r| |done].
  destruct (truthy s); simpl; [done|by rewrite app_nil_r].
Qed.

Lemma extract_attendees_concat props :
  extract_attendees props =
  concat ((λ cn, match cn with
                 | ICAL.CnAbsent => []
                 | ICAL.CnText s => if bool_decide (s = "") then [] else [s]
                 | ICAL.CnList l => l
                 end) <$> props).
Proof.
  induction props as [|cn props IH]; [done|].
  unfold extract_attendees. simpl. rewrite extract_attendees_from, IH.
  f_equal. destruct cn as [|s|l]; simpl; [done| |done].
  unfold truthy. by case_bool_decide.
Qed.

(** X5. The attendees of every event [parseICSData] produces are exactly
    the display names (CN) of the ATTENDEE properties of its VEVENT, in
    feed order and each as often as it stands there: a single name once if
    it is not empty, the values of a multi-valued name in their order, and
    nothing for an attendee without name. *)
Theorem materialize_attendees fuel ws we vevents out :
  materialize fuel ws we vevents = Some out →
  Forall (λ ev, ∃ event, event ∈ vevents
    ∧ attendees ev =
      concat ((λ cn, match cn with
                     | ICAL.CnAbsent => []
                     | ICAL.CnText s => if bool_decide (s = "") then [] else [s]
                     | ICAL.CnList l => l
                     end) <$> ICAL.attendeeCn event)) out.
Proof.
  intros Horigin%materialize_origin.
  eapply Forall_impl; [exact Horigin|]. intros ev (event & Hin & Hmade).
  exists event. split; [done|]. rewrite <-extract_attendees_concat.
  unfold made_from in Hmade. destruct (ICAL.isRecurring event).
  - by destruct Hmade as (? & ? & _ & _ & ->).
  - by destruct Hmade as [_ ->].
Qed.

Lemma materialize_attendees_witness :
  Forall (λ ev, ∃ event, event ∈ [standup]
    ∧ attendees ev =
      concat ((λ cn, match cn with
                     | ICAL.CnAbsent => []
                     | ICAL.CnText s => if bool_decide (s = "") then [] else [s]
                     | ICAL.CnList l => l
                     end) <$> ICAL.attendeeCn event))
    [occurrence_event standup ["Ann"; "Bob"; "Cy"] (ValidDate jun01);
     occurrence_event standup ["Ann"; "Bob"; "Cy"] (ValidDate (jun01 + msPerDay));
     occurrence_event standup ["Ann"; "Bob"; "Cy"] (ValidDate jun03)].
Proof.
  apply (materialize_attendees 200 (ValidDate jun01) (ValidDate jun03) [standup]).
  vm_compute; reflexivity.
Defined.

(** ** The refresh pipeline as a whole *)

Lemma mapM_serialize_invalid evs ev :
  ev ∈ evs → start ev = InvalidDate ∨ end_ ev = InvalidDate →
  mapM serialize evs = None.
Proof.
  intros Hin Hbad. induction Hin as [ev evs|ev ev' evs _ IH]; simpl.
  - assert (serialize ev = None) as ->; [|done].
    unfold serialize. destruct Hbad as [Hs|He]; [by rewrite Hs|].
    rewrite He. by destruct (toISOString (start ev)).
  - rewrite IH by done. by destruct (serialize ev').
Qed.

(** X6. One event with an invalid start or end date in memory keeps
    [saveEvents] from writing anything: the error of [toISOString] is
    caught, the call returns, and the data file stays as it was. *)
Theorem saveEvents_invalid_date host w ev :
  ev ∈ events (plugin w) →
  start ev = InvalidDate ∨ end_ ev = InvalidDate →
  ∃ w', saveEvents host w = Returned () w'
    ∧ plugin w' = plugin w ∧ disk w' = disk w
    ∧ notices (effects w') = notices (effects w).
Proof.
  intros Hin Hbad. pose proof (mapM_serialize_invalid _ _ Hin Hbad) as Hser.
  unfold saveEvents. run_unfold. destruct w as [pl d eff]; simpl in *.
  destruct d as [| |data]; simpl; rewrite ?Hser; simpl;
    eexists; (split; [done|]); simpl; rewrite notices_app; simpl;
    by rewrite app_nil_r.
Qed.

(** What [parseICSData] does with a feed text that [ICAL.parse] accepts and
    whose events can be read, when the expansion loops end within the
    fuel. *)
Lemma parseICSData_materialized host fuel icsData vevents evs w :
  ICAL_parse host icsData = Some vevents →
  existsb ICAL.throws vevents = false →
  materialize fuel (fourWeeksAgo host) (sixWeeksLater host) vevents = Some evs →
  ∃ w1 w',
    saveEvents host
      {| plugin := {| settings := settings (plugin w); events := evs |};
         disk := disk w;
         effects := effects w ++ [ConsoleLog "Filtering events"] |}
    = Returned () w1
    ∧ parseICSData host fuel icsData w = Returned () w'
    ∧ plugin w' = {| settings := settings (plugin w); events := evs |}
    ∧ disk w' = disk w1
    ∧ notices (effects w') = notices (effects w).
Proof.
  intros Hparse Hread Hmat. unfold parseICSData. run_unfold. rewrite Hparse; simpl.
  rewrite Hread, Hmat; simpl.
  match goal with |- context [saveEvents host ?w0] =>
    destruct (saveEvents_run host w0) as (w1 & Hsave & Hpl & Hn & _) end.
  exists w1. eexists. split; [exact Hsave|]. rewrite Hsave. simpl.
  split; [done|]. simpl. split_and!; [done..|].
  rewrite notices_app, Hn; simpl. rewrite notices_app; simpl.
  by rewrite !app_nil_r.
Qed.

Lemma saveEvents_invalid_date_witness :
  ∃ w', saveEvents (sample_host None) with_endless = Returned () w'
    ∧ plugin w' = plugin with_endless ∧ disk w' = disk with_endless
    ∧ notices (effects w') = notices (effects with_endless).
Proof.
  apply (saveEvents_invalid_date (sample_host None) with_endless endless).
  - right. left.
  - right. reflexivity.
Defined.

(** The part of [fetchCalendarEvents] after [parseICSData]: the count is
    shown on a manual refresh, the titles are logged. *)
Lemma fetch_report_run isManual w :
  ∃ w',
    (evs ← get_events;
     when isManual
       (emit (Notice ("Loaded " +:+ pretty (length evs) +:+ " calendar events")));;
     emit (ConsoleLog "Calendar events loaded:");;
     mapM (λ event, emit (ConsoleLog ("- " +:+ summary event))) evs;;
     mret ()) w = Returned () w'
    ∧ plugin w' = plugin w ∧ disk w' = disk w
    ∧ notices (effects w') =
      notices (effects w) ++
      (if isManual
       then ["Loaded " +:+ pretty (length (events (plugin w))) +:+ " calendar events"]
       else []).
Proof.
  unfold mbind at 1, Run_bind at 1, get_events at 1.
  unfold mbind at 1, Run_bind at 1.
  assert (∃ w1, when isManual
    (emit (Notice ("Loaded " +:+ pretty (length (events (plugin w)))
                   +:+ " calendar events"))) w = Returned () w1
    ∧ plugin w1 = plugin w ∧ disk w1 = disk w
    ∧ notices (effects w1) = notices (effects w) ++
      (if isManual
       then ["Loaded " +:+ pretty (length (events (plugin w))) +:+ " calendar events"]
       else [])) as (w1 & -> & Hp1 & Hd1 & Hn1).
  { destruct isManual; simpl; eexists; (split; [done|]); simpl.
    - by rewrite notices_app.
    - by rewrite app_nil_r. }
  unfold mbind at 1, Run_bind at 1, emit at 1.
  unfold mbind at 1, Run_bind at 1.
  match goal with |- context [mapM _ ?evs ?w2] =>
    destruct (log_each_run (λ event, "- " +:+ summary event) evs w2)
      as (k & w' & -> & Hpl & Hd & Hn) end.
  simpl in *. exists w'. split; [done|]. split_and!; [congruence..|].
  rewrite Hn, notices_app, Hn1; simpl. by rewrite app_nil_r.
Qed.

(** How [fetchCalendarEvents] runs once the address is configured. *)
Lemma fetchCalendarEvents_configured host fuel isManual w :
  truthy (icsUrl (settings (plugin w))) = true →
  fetchCalendarEvents host fuel isManual w =
  try_catch
    (when isManual (emit (Notice "Fetching calendar events..."));;
     response ← or_throw (requestUrl host (icsUrl (settings (plugin w))));
     (if bool_decide (response.1 ≠ 200) then throw else mret ());;
     parseICSData host fuel response.2;;
     evs ← get_events;
     when isManual
       (emit (Notice ("Loaded " +:+ pretty (length evs) +:+ " calendar events")));;
     emit (ConsoleLog "Calendar events loaded:");;
     mapM (λ event, emit (ConsoleLog ("- " +:+ summary event))) evs;;
     mret ())
    (emit (ConsoleError "Error fetching calendar:");;
     when isManual
       (emit (Notice "Error fetching calendar events. Check console for details.")))
    w.
Proof.
  intros Hurl. unfold fetchCalendarEvents.
  unfold mbind at 1, Run_bind at 1, get_settings at 1. by rewrite Hurl.
Qed.

Lemma when_emit_run isManual e w :
  when isManual (emit e) w =
  Returned () {| plugin := plugin w; disk := disk w;
                 effects := effects w ++ (if isManual then [e] else []) |}.
Proof.
  destruct isManual; simpl; [done|].
  unfold mret, Run_ret. rewrite app_nil_r. by destruct w.
Qed.

(** X7. A refresh that cannot obtain a readable feed (no address
    configured, the request rejected, a status other than 200, or a text
    that [ICAL.parse] rejects) returns normally and leaves the events in
    memory, the settings and the data file as they were, manual or not. *)
Theorem refresh_failure_keeps_state host fuel isManual w :
  truthy (icsUrl (settings (plugin w))) = false
  ∨ match requestUrl host (icsUrl (settings (plugin w))) with
    | Some (status, text) => status ≠ 200 ∨ ICAL_parse host text = None
    | None => True
    end →
  ∃ w', fetchCalendarEvents host fuel isManual w = Returned () w'
    ∧ plugin w' = plugin w ∧ disk w' = disk w.
Proof.
  intros Hfail.
  destruct (truthy (icsUrl (settings (plugin w)))) eqn:Hurl.
  2: { unfold fetchCalendarEvents.
       unfold mbind at 1, Run_bind at 1, get_settings at 1. rewrite Hurl; simpl.
       rewrite when_emit_run. by eexists. }
  destruct Hfail as [?|Hfail]; [done|].
  rewrite fetchCalendarEvents_configured by done.
  unfold try_catch. unfold mbind at 1, Run_bind at 1. rewrite when_emit_run.
  unfold mbind at 1, Run_bind at 1.
  destruct (requestUrl host _) as [[status text]|]; simpl.
  2: { unfold mbind at 1, Run_bind at 1, emit at 1. rewrite when_emit_run.
       by eexists. }
  unfold mbind at 1, Run_bind at 1.
  case_bool_decide as Hstatus; simpl.
  { unfold mbind at 1, Run_bind at 1, emit at 1. rewrite when_emit_run.
    by eexists. }
  destruct Hfail as [?|Hparse]; [done|].
  unfold mbind at 1, Run_bind at 1.
  rewrite (parseICSData_rejected host fuel text _ Hparse).
  match goal with |- context [get_events ≫= _] =>
    match goal with |- context [match ?m ?w2 with _ => _ end] =>
      destruct (fetch_report_run isManual w2) as (w' & Hrun & Hpl & Hd & _)
    end end.
  simpl in *. rewrite Hrun. by exists w'.
Qed.

Lemma refresh_failure_keeps_state_witness :
  ∃ w', fetchCalendarEvents not_found_host 0 true two_events = Returned () w'
    ∧ plugin w' = plugin two_events ∧ disk w' = disk two_events.
Proof.
  apply (refresh_failure_keeps_state not_found_host 0 true two_events).
  right. simpl. left. discriminate.
Defined.

(** X8. What a manual refresh shows, case by case, and that it never
    throws. After "Fetching calendar events..." the user sees the error
    notice of a failed request, or the number of events in memory; when the
    feed text is rejected, or reading one of its events throws, the parse
    error is followed by "Loaded N calendar events" for the N events that
    were loaded before. *)
Theorem manual_refresh_notices host fuel w :
  match fetchCalendarEvents host fuel true w with
  | Returned _ w' =>
    notices (effects w') =
    notices (effects w) ++
    (if truthy (icsUrl (settings (plugin w))) then
       "Fetching calendar events..." ::
       match requestUrl host (icsUrl (settings (plugin w))) with
       | Some (status, text) =>
         if bool_decide (status ≠ 200)
         then ["Error fetching calendar events. Check console for details."]
         else
           if unreadable_feed host text
           then ["Error parsing calendar data";
                 "Loaded " +:+ pretty (length (events (plugin w))) +:+ " calendar events"]
           else
             ["Loaded " +:+ pretty (length (events (plugin w'))) +:+ " calendar events"]
       | None => ["Error fetching calendar events. Check console for details."]
       end
     else ["Please configure ICS URL in settings"])
  | Thrown _ => False
  | OutOfFuel => True
  end.
Proof.
  destruct (truthy (icsUrl (settings (plugin w)))) eqn:Hurl.
  2: { unfold fetchCalendarEvents.
       unfold mbind at 1, Run_bind at 1, get_settings at 1. rewrite Hurl; simpl.
       by rewrite notices_app. }
  rewrite fetchCalendarEvents_configured by done.
  unfold try_catch. unfold mbind at 1, Run_bind at 1. rewrite when_emit_run.
  unfold mbind at 1, Run_bind at 1.
  destruct (requestUrl host _) as [[status text]|]; simpl.
  2: { rewrite !notices_app; simpl. by rewrite app_nil_r, <-app_assoc. }
  unfold mbind at 1, Run_bind at 1.
  case_bool_decide as Hstatus; simpl.
  { rewrite !notices_app; simpl. by rewrite app_nil_r, <-app_assoc. }
  unfold mbind at 1, Run_bind at 1.
  destruct (unreadable_feed host text) eqn:Hfeed.
  - match goal with |- context [parseICSData host fuel text ?w0] =>
      pose proof (parseICSData_unreadable host fuel text w0 Hfeed) as Hp;
      destruct (parseICSData host fuel text w0) as [[] w1|w1|] end; [|done..].
    destruct Hp as (Hpl1 & _ & Hn1).
    destruct (fetch_report_run true w1) as (w' & Hrun & Hpl & Hd & Hn).
    simpl in *. rewrite Hrun, Hn, Hn1, notices_app, Hpl1; simpl.
    by rewrite <-!app_assoc.
  - match goal with |- context [parseICSData host fuel text ?w0] =>
      pose proof (parseICSData_notices host fuel text w0) as Hp;
      destruct (parseICSData host fuel text w0) as [[] w1|w1|] end; [|done..].
    rewrite Hfeed, app_nil_r in Hp.
    destruct (fetch_report_run true w1) as (w' & Hrun & Hpl & Hd & Hn).
    simpl in *. rewrite Hrun, Hn, Hp, notices_app, Hpl; simpl.
    by rewrite <-app_assoc.
Qed.

(** What a refresh shows after a rejected feed text when two events were
    loaded before. *)
Example manual_refresh_after_parse_error :
  ∃ w', fetchCalendarEvents (sample_host None) 0 true two_events = Returned () w'
    ∧ notices (effects w') =
      ["Fetching calendar events..."; "Error parsing calendar data";
       "Loaded 2 calendar events"].
Proof. eexists. split; by vm_compute. Qed.

Lemma fetch_success_run host fuel isManual w text vevents evs :
  truthy (icsUrl (settings (plugin w))) = true →
  requestUrl host (icsUrl (settings (plugin w))) = Some (200, text) →
  ICAL_parse host text = Some vevents →
  existsb ICAL.throws vevents = false →
  materialize fuel (fourWeeksAgo host) (sixWeeksLater host) vevents = Some evs →
  ∃ eff w1 w',
    saveEvents host
      {| plugin := {| settings := settings (plugin w); events := evs |};
         disk := disk w; effects := eff |} = Returned () w1
    ∧ fetchCalendarEvents host fuel isManual w = Returned () w'
    ∧ plugin w' = {| settings := settings (plugin w); events := evs |}
    ∧ disk w' = disk w1.
Proof.
  intros Hurl Hreq Hparse Hread Hmat.
  rewrite fetchCalendarEvents_configured by done.
  unfold try_catch. unfold mbind at 1, Run_bind at 1. rewrite when_emit_run.
  unfold mbind at 1, Run_bind at 1. rewrite Hreq; simpl.
  unfold mbind at 1, Run_bind at 1; simpl.
  unfold mbind at 1, Run_bind at 1.
  match goal with |- context [parseICSData host fuel text ?w0] =>
    destruct (parseICSData_materialized host fuel text vevents evs w0 Hparse Hread Hmat)
      as (w1 & w2 & Hsave & -> & Hpl2 & Hd2 & _) end.
  destruct (fetch_report_run isManual w2) as (w' & -> & Hpl & Hd & _).
  simpl in *. eexists _, w1, w'. split; [exact Hsave|].
  split_and!; [done|congruence..].
Qed.

(** X9. A refresh that obtains a feed that [ICAL.parse] accepts and whose
    events can all be read replaces the events in memory by the list
    materialized over the window of the host (four weeks before to six
    weeks after today's local date, whatever the zone), whether or not the
    cache can be written, and leaves the settings alone; in the data file
    nothing but the entry [cachedEvents] changes. *)
Theorem refresh_replaces_events host fuel isManual w text vevents evs :
  truthy (icsUrl (settings (plugin w))) = true →
  requestUrl host (icsUrl (settings (plugin w))) = Some (200, text) →
  ICAL_parse host text = Some vevents →
  existsb ICAL.throws vevents = false →
  materialize fuel (fourWeeksAgo host) (sixWeeksLater host) vevents = Some evs →
  ∃ w', fetchCalendarEvents host fuel isManual w = Returned () w'
    ∧ events (plugin w') = evs
    ∧ settings (plugin w') = settings (plugin w)
    ∧ delete "cachedEvents" (disk_record (disk w'))
      = delete "cachedEvents" (disk_record (disk w)).
Proof.
  intros Hurl Hreq Hparse Hread Hmat.
  destruct (fetch_success_run host fuel isManual w text vevents evs
              Hurl Hreq Hparse Hread Hmat) as (eff & w1 & w' & Hsave & Hrun & Hpl & Hd).
  exists w'. rewrite Hpl, Hd. split_and!; [done..|].
  match type of Hsave with saveEvents host ?w0 = _ =>
    destruct (saveEvents_run host w0) as (w1' & Hsave' & _ & _ & Hdisk) end.
  assert (w1' = w1) as -> by congruence.
  simpl in Hdisk. destruct Hdisk as [->|(c & ->)]; [done|].
  simpl. by rewrite delete_insert_eq.
Qed.

Lemma refresh_replaces_events_witness :
  ∃ w', fetchCalendarEvents (helsinki_host (Some november_feed)) 0 true two_events
        = Returned () w'
    ∧ events (plugin w') =
      [single_event
         (at_time "in" "Inside"
            (autumn_change + 17 * msPerDay + 8 * msPerHour + 30 * msPerMinute)) []]
    ∧ settings (plugin w') = settings (plugin two_events)
    ∧ delete "cachedEvents" (disk_record (disk w'))
      = delete "cachedEvents" (disk_record (disk two_events)).
Proof.
  apply (refresh_replaces_events (helsinki_host (Some november_feed)) 0 true
           two_events "BEGIN:VCALENDAR" november_feed);
    reflexivity.
Defined.

(** Across the end of summer time the window reaches an hour further than
    42 times 24 hours: it ends at today's local time of day. *)
Example window_across_clock_change :
  fourWeeksAgo (helsinki_host None)
  = ValidDate (now (helsinki_host None) - 28 * msPerDay)
  ∧ sixWeeksLater (helsinki_host None)
    = ValidDate (now (helsinki_host None) + 42 * msPerDay + msPerHour).
Proof. by vm_compute. Qed.

(** X10. When moreover the data file can be read and written and the
    events materialized over the window of the host have valid,
    representable start and end times, the cache written by the refresh
    brings back the same list after a restart (an empty list in memory,
    then [loadCachedEvents]). *)
Theorem refresh_survives_restart host fuel isManual w text vevents evs :
  truthy (icsUrl (settings (plugin w))) = true →
  requestUrl host (icsUrl (settings (plugin w))) = Some (200, text) →
  ICAL_parse host text = Some vevents →
  existsb ICAL.throws vevents = false →
  materialize fuel (fourWeeksAgo host) (sixWeeksLater host) vevents = Some evs →
  disk_write_ok host = true → disk w ≠ Unreadable →
  Forall valid_times evs →
  ∃ w' w'',
    fetchCalendarEvents host fuel isManual w = Returned () w'
    ∧ loadCachedEvents host (restart w') = Returned () w''
    ∧ plugin w'' = plugin w'
    ∧ events (plugin w'') = evs.
Proof.
  intros Hurl Hreq Hparse Hread Hmat Hok Hdisk Hvalid.
  destruct (fetch_success_run host fuel isManual w text vevents evs
              Hurl Hreq Hparse Hread Hmat) as (eff & w1 & w' & Hsave & Hrun & Hpl & Hd).
  destruct (serialize_all host _ Hvalid) as (cached & Hcached & Hrev).
  match type of Hsave with saveEvents host ?w0 = _ =>
    destruct (saveEvents_written host w0 cached Hok Hdisk Hcached)
      as (w1' & Hsave' & _ & Hd1) end.
  assert (w1' = w1) as -> by congruence.
  destruct (loadCachedEvents_run host (restart w')) as (w'' & Hload & _ & Hst & Hev).
  exists w', w''. split_and!; [done..| |].
  - simpl in Hev, Hst. rewrite Hd, Hd1, usable_cache_saved in Hev.
    destruct (plugin w'') as [st'' evs'']; simpl in *.
    rewrite Hpl. simpl. rewrite Hpl in Hst. simpl in Hst. congruence.
  - simpl in Hev. rewrite Hd, Hd1, usable_cache_saved in Hev. congruence.
Qed.

Lemma refresh_survives_restart_witness :
  ∃ w' w'',
    fetchCalendarEvents (helsinki_host (Some november_feed)) 0 false two_events
    = Returned () w'
    ∧ loadCachedEvents (helsinki_host (Some november_feed)) (restart w')
      = Returned () w''
    ∧ plugin w'' = plugin w'
    ∧ events (plugin w'') =
      [single_event
         (at_time "in" "Inside"
            (autumn_change + 17 * msPerDay + 8 * msPerHour + 30 * msPerMinute)) []].
Proof.
  apply (refresh_survives_restart (helsinki_host (Some november_feed)) 0 false
           two_events "BEGIN:VCALENDAR" november_feed).
  - reflexivity.
  - reflexivity.
  - reflexivity.
  - reflexivity.
  - reflexivity.
  - reflexivity.
  - discriminate.
  - apply Forall_cons. split; [|apply Forall_nil_2].
    exists (autumn_change + 17 * msPerDay + 8 * msPerHour + 30 * msPerMinute),
      (autumn_change + 17 * msPerDay + 8 * msPerHour + 30 * msPerMinute).
    split_and!; [reflexivity..|vm_compute; discriminate|vm_compute; discriminate].
Defined.

Lemma loadCachedEvents_notices host w w' :
  loadCachedEvents host w = Returned () w' →
  notices (effects w') = notices (effects w).
Proof.
  unfold loadCachedEvents. run_unfold. destruct w as [pl d eff]; simpl.
  destruct d as [| |data]; simpl.
  - by intros [= <-].
  - intros [= <-]. simpl. rewrite notices_app. simpl. by rewrite app_nil_r.
  - destruct (data !! "cachedEvents") as [v|]; simpl; [|by intros [= <-]].
    destruct (json_truthy v); simpl; [|by intros [= <-]].
    destruct (map_revive host v); simpl; intros [= <-]; simpl;
      rewrite !notices_app; simpl; by rewrite !app_nil_r.
Qed.

(** A background refresh whose request fails. *)
Lemma background_unreachable_run host fuel w :
  match requestUrl host (icsUrl (settings (plugin w))) with
  | Some (status, text) => status ≠ 200
  | None => True
  end →
  ∃ w', fetchCalendarEvents host fuel false w = Returned () w'
    ∧ plugin w' = plugin w ∧ disk w' = disk w
    ∧ notices (effects w') = notices (effects w).
Proof.
  intros Hreq.
  destruct (truthy (icsUrl (settings (plugin w)))) eqn:Hurl.
  2: { unfold fetchCalendarEvents.
       unfold mbind at 1, Run_bind at 1, get_settings at 1. rewrite Hurl; simpl.
       by eexists. }
  rewrite fetchCalendarEvents_configured by done.
  unfold try_catch. unfold mbind at 1, Run_bind at 1. rewrite when_emit_run.
  unfold mbind at 1, Run_bind at 1.
  destruct (requestUrl host _) as [[status text]|]; simpl.
  - unfold mbind at 1, Run_bind at 1.
    rewrite bool_decide_eq_true_2 by done. simpl.
    eexists. split; [done|]. simpl. split_and!; [done..|].
    rewrite !notices_app. simpl. by rewrite !app_nil_r.
  - eexists. split; [done|]. simpl. split_and!; [done..|].
    rewrite !notices_app. simpl. by rewrite !app_nil_r.
Qed.

(** X25. Starting without a reachable calendar server shows the cache:
    when [loadCachedEvents] is followed by a background refresh whose
    request is rejected or answered with a status other than 200, the
    events in memory are the cached ones (none without a usable cache), the
    data file is untouched and no notification is shown. *)
Theorem offline_start_shows_cache host fuel st d :
  match requestUrl host (icsUrl st) with
  | Some (status, text) => status ≠ 200
  | None => True
  end →
  ∃ w', (loadCachedEvents host;; fetchCalendarEvents host fuel false) (startup st d)
        = Returned () w'
    ∧ events (plugin w') =
      match usable_cache d with
      | Some items => revive host <$> items
      | None => []
      end
    ∧ disk w' = d
    ∧ notices (effects w') = [].
Proof.
  intros Hreq. unfold mbind at 1, Run_bind at 1.
  destruct (loadCachedEvents_run host (startup st d))
    as (w1 & Hload & Hd1 & Hst1 & Hev1).
  rewrite Hload. apply loadCachedEvents_notices in Hload.
  simpl in Hd1, Hst1, Hev1, Hload.
  destruct (background_unreachable_run host fuel w1) as (w' & Hrun & Hpl & Hd & Hn).
  { by rewrite Hst1. }
  exists w'. split; [done|]. rewrite Hpl, Hd, Hev1, Hd1. split_and!; [done..|].
  by rewrite Hn.
Qed.

Lemma offline_start_shows_cache_witness :
  ∃ w', (loadCachedEvents offline_host;; fetchCalendarEvents offline_host 0 false)
          (startup showing (disk cached_call)) = Returned () w'
    ∧ events (plugin w') =
      match usable_cache (disk cached_call) with
      | Some items => revive offline_host <$> items
      | None => []
      end
    ∧ disk w' = disk cached_call
    ∧ notices (effects w') = [].
Proof.
  apply (offline_start_shows_cache offline_host 0 showing (disk cached_call)).
  exact I.
Defined.

(** X26. One VEVENT that cannot be read spoils the whole refresh: when
    [ICAL.parse] accepts the feed but reading one of its events throws (a
    VEVENT without DTSTART), the events gathered before it are dropped, the
    events in memory, the settings and the data file stay as they were, and
    "Error parsing calendar data" is shown, also by a background refresh;
    a manual refresh goes on to show the count of the events loaded
    before. *)
Theorem unreadable_event_keeps_state host fuel isManual w text vevents gathered :
  truthy (icsUrl (settings (plugin w))) = true →
  requestUrl host (icsUrl (settings (plugin w))) = Some (200, text) →
  ICAL_parse host text = Some vevents →
  existsb ICAL.throws vevents = true →
  forEach_vevent fuel (fourWeeksAgo host) (sixWeeksLater host)
    (before_throw vevents) [] = Some gathered →
  ∃ w', fetchCalendarEvents host fuel isManual w = Returned () w'
    ∧ plugin w' = plugin w ∧ disk w' = disk w
    ∧ notices (effects w') =
      notices (effects w)
      ++ (if isManual then ["Fetching calendar events..."] else [])
      ++ ["Error parsing calendar data"]
      ++ (if isManual
          then ["Loaded " +:+ pretty (length (events (plugin w))) +:+ " calendar events"]
          else []).
Proof.
  intros Hurl Hreq Hparse Hthrows Hgathered.
  rewrite fetchCalendarEvents_configured by done.
  unfold try_catch. unfold mbind at 1, Run_bind at 1. rewrite when_emit_run.
  unfold mbind at 1, Run_bind at 1. rewrite Hreq; simpl.
  unfold mbind at 1, Run_bind at 1; simpl.
  unfold mbind at 1, Run_bind at 1.
  match goal with |- context [parseICSData host fuel text ?w0] =>
    assert (parseICSData host fuel text w0 =
            Returned () {| plugin := plugin w0; disk := disk w0;
              effects := ((effects w0 ++ [ConsoleLog "Filtering events"])
                          ++ [ConsoleError "Error parsing ICS data:"])
                         ++ [Notice "Error parsing calendar data"] |}) as ->
  end.
  { unfold parseICSData. run_unfold. rewrite Hparse; simpl.
    by rewrite Hthrows, Hgathered. }
  match goal with |- context [get_events ≫= _] =>
    match goal with |- context [match ?m ?w2 with _ => _ end] =>
      destruct (fetch_report_run isManual w2) as (w' & Hrun & Hpl & Hd & Hn)
    end end.
  simpl in *. rewrite Hrun. exists w'. split_and!; [done..|].
  rewrite Hn, !notices_app. simpl. rewrite <-!app_assoc.
  by destruct isManual.
Qed.

Lemma unreadable_event_keeps_state_witness :
  ∃ w', fetchCalendarEvents
          (sample_host (Some [single "a" "Review" jun03; no_dtstart; standup]))
          0 false two_events = Returned () w'
    ∧ plugin w' = plugin two_events ∧ disk w' = disk two_events
    ∧ notices (effects w') =
      notices (effects two_events)
      ++ (if false then ["Fetching calendar events..."] else [])
      ++ ["Error parsing calendar data"]
      ++ (if false
          then ["Loaded " +:+ pretty (length (events (plugin two_events)))
                +:+ " calendar events"]
          else []).
Proof.
  apply (unreadable_event_keeps_state
           (sample_host (Some [single "a" "Review" jun03; no_dtstart; standup]))
           0 false two_events "BEGIN:VCALENDAR"
           [single "a" "Review" jun03; no_dtstart; standup]
           [single_event (single "a" "Review" jun03) []]);
    reflexivity.
Defined.

(** ** The settings object *)

Lemma loadSettings_run w :
  loadSettings w =
  match disk w with
  | Unreadable => Thrown w
  | d => Returned (disk_record d ∪ DEFAULT_SETTINGS_object) w
  end.
Proof.
  unfold loadSettings, Object_assign. run_unfold.
  destruct (disk w); simpl; try done;
    by rewrite (left_id_L ∅ (∪)), ?(right_id_L ∅ (∪)).
Qed.

Lemma loaded_settings_complete w w' obj :
  loadSettings w = Returned obj w' → obj ∪ DEFAULT_SETTINGS_object = obj.
Proof.
  rewrite loadSettings_run. intros Hload.
  assert (obj = disk_record (disk w) ∪ DEFAULT_SETTINGS_object) as ->
    by (destruct (disk w); congruence).
  by rewrite <-(assoc_L (∪)), (idemp_L (∪)).
Qed.

Lemma insert_complete (obj dflt : gmap string JsonValue) key value :
  obj ∪ dflt = obj → <[key := value]> obj ∪ dflt = <[key := value]> obj.
Proof. intros Hobj. by rewrite <-insert_union_l, Hobj. Qed.

(** X11. A setting changed in the settings tab survives a restart: when the
    data file can be written, [loadSettings] afterwards returns the settings
    object as the handler left it, the changed property included. *)
Theorem changed_setting_is_reloaded host w0 w0' w settings_object key value :
  loadSettings w0 = Returned settings_object w0' →
  disk_write_ok host = true →
  ∃ w',
    onChange host key value settings_object w
    = Returned (<[key := value]> settings_object) w'
    ∧ plugin w' = plugin w
    ∧ loadSettings (restart w') = Returned (<[key := value]> settings_object) (restart w').
Proof.
  intros Hload Hok. apply loaded_settings_complete in Hload.
  unfold onChange, saveSettings. run_unfold. rewrite Hok.
  eexists. split; [done|]. split; [done|].
  rewrite loadSettings_run. simpl.
  by rewrite (insert_complete _ _ key value Hload).
Qed.

Lemma changed_setting_is_reloaded_witness :
  ∃ w',
    onChange (sample_host None) "hideAllDayEvents" (JBool true)
      (disk_record (disk two_events) ∪ DEFAULT_SETTINGS_object) cached_call
    = Returned (<["hideAllDayEvents" := JBool true]>
                  (disk_record (disk two_events) ∪ DEFAULT_SETTINGS_object)) w'
    ∧ plugin w' = plugin cached_call
    ∧ loadSettings (restart w')
      = Returned (<["hideAllDayEvents" := JBool true]>
                    (disk_record (disk two_events) ∪ DEFAULT_SETTINGS_object))
          (restart w').
Proof.
  apply (changed_setting_is_reloaded (sample_host None) two_events two_events
           cached_call).
  - reflexivity.
  - reflexivity.
Defined.

(** X12. The settings object carries along the [cachedEvents] entry that
    the data file held when the settings were loaded, and saving a setting
    writes it back: after a change in the settings tab the cache in the
    data file is the one of load time, whatever a refresh has saved since,
    and a restart brings back those older events (none when there was no
    cache then). *)
Theorem changed_setting_reverts_cache host w0 w0' w settings_object key value :
  loadSettings w0 = Returned settings_object w0' →
  disk_write_ok host = true →
  key ≠ "cachedEvents" →
  ∃ w' w'',
    onChange host key value settings_object w
    = Returned (<[key := value]> settings_object) w'
    ∧ usable_cache (disk w') = usable_cache (disk w0)
    ∧ loadCachedEvents host (restart w') = Returned () w''
    ∧ events (plugin w'') =
      match usable_cache (disk w0) with
      | Some items => revive host <$> items
      | None => []
      end.
Proof.
  intros Hload Hok Hkey. rewrite loadSettings_run in Hload.
  assert (settings_object = disk_record (disk w0) ∪ DEFAULT_SETTINGS_object) as ->
    by (destruct (disk w0); congruence).
  unfold onChange, saveSettings. run_unfold. rewrite Hok.
  match goal with |- context [Returned _ ?w1] =>
    destruct (loadCachedEvents_run host (restart w1)) as (w'' & Hl & _ & _ & Hev);
    assert (usable_cache (disk w1) = usable_cache (disk w0)) as Hcache end.
  { unfold usable_cache; simpl. rewrite lookup_insert_ne by done.
    rewrite lookup_union.
    assert (DEFAULT_SETTINGS_object !! "cachedEvents" = None) as -> by done.
    by rewrite (right_id_L None _). }
  eexists _, w''. split; [done|]. split; [done|]. split; [done|].
  rewrite Hev. simpl. simpl in Hcache. by rewrite Hcache.
Qed.

Lemma changed_setting_reverts_cache_witness :
  ∃ w' w'',
    onChange (sample_host None) "hideAllDayEvents" (JBool true)
      (disk_record (disk two_events) ∪ DEFAULT_SETTINGS_object) cached_call
    = Returned (<["hideAllDayEvents" := JBool true]>
                  (disk_record (disk two_events) ∪ DEFAULT_SETTINGS_object)) w'
    ∧ usable_cache (disk w') = usable_cache (disk two_events)
    ∧ loadCachedEvents (sample_host None) (restart w') = Returned () w''
    ∧ events (plugin w'') =
      match usable_cache (disk two_events) with
      | Some items => revive (sample_host None) <$> items
      | None => []
      end.
Proof.
  apply (changed_setting_reverts_cache (sample_host None) two_events two_events
           cached_call).
  - reflexivity.
  - reflexivity.
  - discriminate.
Defined.

(** The cache of one event is gone from the data file after the change. *)
Example changed_setting_drops_cache :
  usable_cache (disk cached_call) ≠ None
  ∧ ∃ w', onChange (sample_host None) "hideAllDayEvents" (JBool true)
            (disk_record (disk two_events) ∪ DEFAULT_SETTINGS_object) cached_call
          = Returned (<["hideAllDayEvents" := JBool true]>
                        (disk_record (disk two_events) ∪ DEFAULT_SETTINGS_object)) w'
    ∧ usable_cache (disk w') = None.
Proof. split; [done|]. eexists. split; [reflexivity|]. by vm_compute. Qed.

(** ** The days on which an event is shown *)

Ltac day_arith :=
  unfold Day, TimeWithinDay, HourFromTime, MinFromTime, MakeDate, MakeTime,
    msPerDay, msPerHour, msPerMinute, msPerSecond, maxTime in *;
  Z.div_mod_to_equations; lia.

Lemma setHours_midnight tz t :
  Z.abs tz ≤ msPerDay → Z.abs t + 2 * msPerDay ≤ maxTime →
  setHours tz (ValidDate t) 0 0 0 0 = ValidDate (Day (t + tz) * msPerDay - tz).
Proof.
  intros Htz Ht. unfold setHours; simpl.
  rewrite TimeClip_valid by day_arith. f_equal; day_arith.
Qed.

Lemma setHours_last_ms tz t :
  Z.abs tz ≤ msPerDay → Z.abs t + 2 * msPerDay ≤ maxTime →
  setHours tz (ValidDate t) 23 59 59 999
  = ValidDate (Day (t + tz) * msPerDay + (msPerDay - 1) - tz).
Proof.
  intros Htz Ht. unfold setHours; simpl.
  rewrite TimeClip_valid by day_arith. f_equal; day_arith.
Qed.

Lemma matches_days tz day s e :
  matches (ValidDate (day * msPerDay - tz))
    (ValidDate (day * msPerDay + (msPerDay - 1) - tz)) (ValidDate s) (ValidDate e)
  = true ↔
  if bool_decide (s ≤ e) then Day (s + tz) ≤ day ≤ Day (e + tz)
  else day = Day (s + tz) ∨ day = Day (e + tz).
Proof.
  unfold matches.
  rewrite !orb_true_iff, !andb_true_iff, !date_ge_valid, !date_le_valid,
    date_lt_valid, date_gt_valid.
  case_bool_decide; day_arith.
Qed.

(** X13. The days on which the day view shows an event. With valid start
    and end, an event is in the result for a date exactly when it is in
    the list, is not a hidden all-day event, and the local day of the date
    lies between the local day of its start and the local day of its last
    instant: its end, or one millisecond before for an all-day event. An
    event whose last instant lies before its start is shown on the days of
    those two instants only. *)
Theorem shown_on_days tz pl q ev s e :
  Z.abs tz ≤ msPerDay → Z.abs q + 2 * msPerDay ≤ maxTime →
  start ev = ValidDate s → end_ ev = ValidDate e → Z.abs e < maxTime →
  ev ∈ getEventsForDate tz pl (ValidDate q) ↔
    ev ∈ events pl
    ∧ hideAllDayEvents (settings pl) && isAllDayEvent tz ev = false
    ∧ let last := if isAllDayEvent tz ev then e - 1 else e in
      if bool_decide (s ≤ last)
      then Day (s + tz) ≤ Day (q + tz) ≤ Day (last + tz)
      else Day (q + tz) = Day (s + tz) ∨ Day (q + tz) = Day (last + tz).
Proof.
  intros Htz Hq Hs He Hemax.
  rewrite getEventsForDate_elem, setHours_midnight, setHours_last_ms by done.
  unfold overlaps_day. rewrite Hs, He. simpl.
  destruct (hideAllDayEvents (settings pl) && isAllDayEvent tz ev) eqn:Hhide.
  { split; [by intros [_ ?]|by intros (_ & ? & _)]. }
  destruct (isAllDayEvent tz ev).
  - rewrite TimeClip_valid by lia. rewrite matches_days. tauto.
  - rewrite matches_days. tauto.
Qed.

Lemma shown_on_days_witness :
  late_call ∈ getEventsForDate 0 (mkPlugin showing [late_call; holiday 0])
                (ValidDate (jun11 + 12 * msPerHour)) ↔
    late_call ∈ [late_call; holiday 0]
    ∧ hideAllDayEvents showing && isAllDayEvent 0 late_call = false
    ∧ let last := if isAllDayEvent 0 late_call
                  then jun11 + msPerHour - 1 else jun11 + msPerHour in
      if bool_decide (jun10 + 22 * msPerHour ≤ last)
      then Day (jun10 + 22 * msPerHour + 0) ≤ Day (jun11 + 12 * msPerHour + 0)
           ≤ Day (last + 0)
      else Day (jun11 + 12 * msPerHour + 0) = Day (jun10 + 22 * msPerHour + 0)
           ∨ Day (jun11 + 12 * msPerHour + 0) = Day (last + 0).
Proof.
  apply (shown_on_days 0 (mkPlugin showing [late_call; holiday 0])
           (jun11 + 12 * msPerHour) late_call
           (jun10 + 22 * msPerHour) (jun11 + msPerHour)).
  - vm_compute; discriminate.
  - vm_compute; discriminate.
  - reflexivity.
  - reflexivity.
  - reflexivity.
Defined.

(** An entry of no length at midnight counts as all-day and is shown on
    the day before as well; a timed event that ends at midnight sharp is
    shown on the day that begins then. *)
Example midnight_events :
  isAllDayEvent 0 midnight_mark = true
  ∧ getEventsForDate 0 (mkPlugin showing [midnight_mark])
      (ValidDate (jun10 - msPerDay)) = [midnight_mark]
  ∧ getEventsForDate 0 (mkPlugin showing [midnight_mark]) (ValidDate jun10)
    = [midnight_mark]
  ∧ getEventsForDate 0
      (mkPlugin showing
         [occurrence_event standup [] (ValidDate (jun11 - msPerHour))])
      (ValidDate jun11)
    = [occurrence_event standup [] (ValidDate (jun11 - msPerHour))].
Proof. by vm_compute. Qed.

(** ** The order of the day view *)

Lemma display_order_le tz a b ta tb :
  start a = ValidDate ta → start b = ValidDate tb →
  display_order tz a b ≤ 0 ↔
  (isAllDayEvent tz a = true ∧ isAllDayEvent tz b = false)
  ∨ (isAllDayEvent tz a = isAllDayEvent tz b ∧ ta ≤ tb).
Proof.
  intros Ha Hb. unfold display_order. rewrite Ha, Hb. simpl.
  destruct (isAllDayEvent tz a), (isAllDayEvent tz b); simpl;
    intuition (try discriminate; try lia).
Qed.

(** X14. The result of the day query lists the all-day events before the
    timed ones and, within each group, the events in ascending order of
    start, provided every loaded event has a valid start. *)
Theorem getEventsForDate_ordered tz pl date i j a b :
  Forall (λ ev, start ev ≠ InvalidDate) (events pl) →
  (i < j)%nat →
  getEventsForDate tz pl date !! i = Some a →
  getEventsForDate tz pl date !! j = Some b →
  (isAllDayEvent tz b = true → isAllDayEvent tz a = true)
  ∧ (isAllDayEvent tz a = isAllDayEvent tz b → date_le (start a) (start b) = true).
Proof.
  intros Hvalid Hij Ha Hb. unfold getEventsForDate in Ha, Hb.
  set (filtered := List.filter _ (events pl)) in *.
  assert (Forall (λ ev, ∃ t, start ev = ValidDate t) filtered) as Hstarts.
  { rewrite Forall_forall in Hvalid |- *. intros ev Hev.
    apply list_elem_of_In, List.filter_In in Hev as [Hev%list_elem_of_In _].
    specialize (Hvalid ev Hev). destruct (start ev); [by eexists|done]. }
  assert (StronglySorted (λ a b, display_order tz a b ≤ 0)
            (array_sort (display_order tz) filtered)) as Hsorted.
  { apply (array_sort_sorted (display_order tz)
             (λ ev, ∃ t, start ev = ValidDate t)); [| |done].
    - intros x y (tx & Hx) (ty & Hy).
      rewrite (display_order_le tz x y tx ty), (display_order_le tz y x ty tx) by done.
      destruct (isAllDayEvent tz x), (isAllDayEvent tz y);
        destruct (decide (tx ≤ ty)); intuition (try lia).
      all: right; split; [done|lia].
    - intros x y z (tx & Hx) (ty & Hy) (tz' & Hz).
      rewrite (display_order_le tz x y tx ty), (display_order_le tz y z ty tz'),
        (display_order_le tz x z tx tz') by done.
      destruct (isAllDayEvent tz x), (isAllDayEvent tz y), (isAllDayEvent tz z);
        intuition (try discriminate; try lia).
      all: right; split; [done|lia]. }
  pose proof (StronglySorted_lookup _ _ i j a b Hsorted Hij Ha Hb) as Hab.
  apply (array_sort_Forall (display_order tz)) in Hstarts.
  rewrite Forall_forall in Hstarts.
  destruct (Hstarts a) as (ta & Hta); [by eapply list_elem_of_lookup_2|].
  destruct (Hstarts b) as (tb & Htb); [by eapply list_elem_of_lookup_2|].
  rewrite (display_order_le tz a b ta tb) in Hab by done.
  rewrite Hta, Htb, date_le_valid.
  destruct (isAllDayEvent tz a), (isAllDayEvent tz b);
    intuition (try discriminate; try lia).
Qed.

Lemma getEventsForDate_ordered_witness :
  (isAllDayEvent 0 late_call = true → isAllDayEvent 0 (holiday 0) = true)
  ∧ (isAllDayEvent 0 (holiday 0) = isAllDayEvent 0 late_call →
     date_le (start (holiday 0)) (start late_call) = true).
Proof.
  apply (getEventsForDate_ordered 0 (mkPlugin showing [late_call; holiday 0])
           (ValidDate jun10) 0 1 (holiday 0) late_call).
  - apply Forall_cons. split; [discriminate|].
    apply Forall_cons. split; [discriminate|apply Forall_nil_2].
  - lia.
  - reflexivity.
  - reflexivity.
Defined.

(** ** All-day and multi-day events *)

(** X15. An event is classified all-day exactly when its start and its end
    are valid dates that both fall within the first minute after a local
    midnight; seconds and milliseconds are not looked at, nor is the
    length of the event. *)
Theorem isAllDayEvent_first_minute tz ev :
  isAllDayEvent tz ev = true ↔
  ∃ s e, start ev = ValidDate s ∧ end_ ev = ValidDate e
    ∧ TimeWithinDay (s + tz) < msPerMinute
    ∧ TimeWithinDay (e + tz) < msPerMinute.
Proof.
  unfold isAllDayEvent, getHours, getMinutes.
  destruct (start ev) as [s|], (end_ ev) as [e|]; simpl.
  - unfold number_eq. rewrite !andb_true_iff, !bool_decide_eq_true. split.
    + intros [[[Hsh Hsm] Heh] Hem]. exists s, e. split_and!; [done..| |]; day_arith.
    + intros (s' & e' & [= <-] & [= <-] & Hs & He). split_and!; day_arith.
  - split; [by rewrite !andb_false_r|by intros (? & ? & _ & ? & _)].
  - split; [done|by intros (? & ? & ? & _)].
  - split; [done|by intros (? & ? & ? & _)].
Qed.

Lemma quotient_gt_days (x : Z) :
  quotient_gt (number_div (Some x) (1000 * 60 * 60 * 24)) 1 = true ↔ msPerDay < x.
Proof.
  unfold quotient_gt, number_div; simpl.
  rewrite negb_true_iff, <-not_true_iff_false, QArith_base.Qle_bool_iff.
  unfold QArith_base.Qle; simpl. unfold msPerDay. lia.
Qed.

(** Under a constant offset the two readings of [isAllDayEvent] agree. *)
Lemma isAllDayEvent_in_constant tz ev :
  isAllDayEvent_in (λ _ _, tz) ev = isAllDayEvent tz ev.
Proof. reflexivity. Qed.

Lemma Local_setHours_midnight zone t :
  (∀ u b, Z.abs (zone u b) ≤ msPerDay) →
  Z.abs t + 3 * msPerDay ≤ maxTime →
  Local.setHours zone (ValidDate t) 0 0 0 0
  = ValidDate (Day (LocalTime zone t) * msPerDay - midnight_offset zone t).
Proof.
  intros Hzone Ht. unfold Local.setHours, midnight_offset, UTC, LocalTime; simpl.
  pose proof (Hzone t true) as H1.
  pose proof (Hzone (MakeDate (Day (t + zone t true)) (MakeTime 0 0 0 0)) false) as H2.
  replace (MakeDate (Day (t + zone t true)) (MakeTime 0 0 0 0))
    with (Day (t + zone t true) * msPerDay) in * by (unfold MakeDate, MakeTime; lia).
  generalize dependent (zone (Day (t + zone t true) * msPerDay) false).
  generalize dependent (zone t true). intros a Ha b Hb.
  rewrite TimeClip_valid by day_arith. done.
Qed.

(** X16. With valid dates, [isMultiDayEvent] compares the instants at which
    the local days of the start and of the end open, in any time zone: a
    timed event is multi-day when the day of its end opens later, an
    all-day event when it opens more than 24 hours later.  Where the zone
    has the same offset at both midnights this reads: a timed event is
    multi-day when its end falls on a later local day than its start, an
    all-day event when its end falls more than one local day after its
    start.  Where the clock is set back between them the distance grows by
    the change, so that an all-day event ending one local day after its
    start is multi-day too. *)
Theorem isMultiDayEvent_days zone ev s e :
  (∀ t b, Z.abs (zone t b) ≤ msPerDay) →
  Z.abs s + 3 * msPerDay ≤ maxTime → Z.abs e + 3 * msPerDay ≤ maxTime →
  start ev = ValidDate s → end_ ev = ValidDate e →
  (isMultiDayEvent zone ev = true ↔
   (if isAllDayEvent_in zone ev then msPerDay else 0)
   < (Day (LocalTime zone e) - Day (LocalTime zone s)) * msPerDay
     + (midnight_offset zone s - midnight_offset zone e))
  ∧ (midnight_offset zone s = midnight_offset zone e →
     isMultiDayEvent zone ev = true ↔
     Day (LocalTime zone s) + (if isAllDayEvent_in zone ev then 1 else 0)
     < Day (LocalTime zone e))
  ∧ (isAllDayEvent_in zone ev = true →
     Day (LocalTime zone e) = Day (LocalTime zone s) + 1 →
     isMultiDayEvent zone ev = true ↔ midnight_offset zone e < midnight_offset zone s).
Proof.
  intros Hzone Hs He Hstart Hend.
  assert (isMultiDayEvent zone ev = true ↔
          (if isAllDayEvent_in zone ev then msPerDay else 0)
          < (Day (LocalTime zone e) - Day (LocalTime zone s)) * msPerDay
            + (midnight_offset zone s - midnight_offset zone e)) as Hgeneral.
  { unfold isMultiDayEvent.
    rewrite Hstart, Hend, !Local_setHours_midnight by done.
    destruct (isAllDayEvent_in zone ev).
    - change (number_minus (getTime (ValidDate ?a)) (getTime (ValidDate ?b)))
        with (Some (a - b)).
      rewrite quotient_gt_days. lia.
    - simpl. rewrite bool_decide_eq_true. lia. }
  split_and!; [done| |].
  - intros Hsame. rewrite Hgeneral, Hsame.
    destruct (isAllDayEvent_in zone ev); unfold msPerDay; lia.
  - intros Hall Hnext. rewrite Hgeneral, Hall, Hnext. lia.
Qed.

Lemma helsinki_bounded t b : Z.abs (helsinki t b) ≤ msPerDay.
Proof. unfold helsinki. destruct b; repeat case_bool_decide; by vm_compute. Qed.

Lemma isMultiDayEvent_days_witness :
  (isMultiDayEvent helsinki long_sunday = true ↔
   (if isAllDayEvent_in helsinki long_sunday then msPerDay else 0)
   < (Day (LocalTime helsinki (autumn_change + 21 * msPerHour))
      - Day (LocalTime helsinki (autumn_change - 4 * msPerHour))) * msPerDay
     + (midnight_offset helsinki (autumn_change - 4 * msPerHour)
        - midnight_offset helsinki (autumn_change + 21 * msPerHour)))
  ∧ (midnight_offset helsinki (autumn_change - 4 * msPerHour)
     = midnight_offset helsinki (autumn_change + 21 * msPerHour) →
     isMultiDayEvent helsinki long_sunday = true ↔
     Day (LocalTime helsinki (autumn_change - 4 * msPerHour))
     + (if isAllDayEvent_in helsinki long_sunday then 1 else 0)
     < Day (LocalTime helsinki (autumn_change + 21 * msPerHour)))
  ∧ (isAllDayEvent_in helsinki long_sunday = true →
     Day (LocalTime helsinki (autumn_change + 21 * msPerHour))
     = Day (LocalTime helsinki (autumn_change - 4 * msPerHour)) + 1 →
     isMultiDayEvent helsinki long_sunday = true ↔
     midnight_offset helsinki (autumn_change + 21 * msPerHour)
     < midnight_offset helsinki (autumn_change - 4 * msPerHour)).
Proof.
  apply (isMultiDayEvent_days helsinki long_sunday
           (autumn_change - 4 * msPerHour) (autumn_change + 21 * msPerHour)).
  - apply helsinki_bounded.
  - vm_compute; discriminate.
  - vm_compute; discriminate.
  - reflexivity.
  - reflexivity.
Defined.

(** The all-day event of the 25-hour Sunday on which Helsinki sets its
    clocks back ends one local day after it starts and is multi-day; the
    same entry a week later is not. *)
Example long_sunday_is_multi_day :
  isAllDayEvent_in helsinki long_sunday = true
  ∧ Day (LocalTime helsinki (autumn_change + 21 * msPerHour))
    = Day (LocalTime helsinki (autumn_change - 4 * msPerHour)) + 1
  ∧ isMultiDayEvent helsinki long_sunday = true
  ∧ isMultiDayEvent helsinki
      {| uid := "sunday"; summary := "Sunday"; description := ""; location := "";
         start := ValidDate (autumn_change + 7 * msPerDay - 3 * msPerHour);
         end_ := ValidDate (autumn_change + 8 * msPerDay - 3 * msPerHour);
         attendees := [] |} = false.
Proof. by vm_compute. Qed.

(** A whole-day entry whose end carries seconds is shown on two days and
    still is not multi-day. *)
Example loose_day_label :
  isAllDayEvent 0 loose_day = true
  ∧ isMultiDayEvent (λ _ _, 0) loose_day = false
  ∧ getEventsForDate 0 (mkPlugin showing [loose_day]) (ValidDate jun10) = [loose_day]
  ∧ getEventsForDate 0 (mkPlugin showing [loose_day]) (ValidDate jun11) = [loose_day].
Proof. by vm_compute. Qed.

(** ** The name of the note file *)

Lemma all_chars_app P s1 s2 :
  all_chars P (s1 +:+ s2) = all_chars P s1 && all_chars P s2.
Proof. induction s1 as [|c s1 IH]; simpl; [done|]. by rewrite IH, andb_assoc. Qed.

Lemma all_chars_weaken (P Q : ascii → bool) s :
  (∀ c, P c = true → Q c = true) → all_chars P s = true → all_chars Q s = true.
Proof.
  intros HPQ. induction s as [|c s IH]; simpl; [done|].
  rewrite !andb_true_iff. intros [? ?]. auto.
Qed.

Lemma pretty_N_go_numeric x s :
  all_chars numeric (pretty_N_go x s) = all_chars numeric s.
Proof.
  revert s. induction (N.lt_wf_0 x) as [x _ IH]; intros s.
  assert (x = 0 ∨ 0 < x)%N as [->|?] by lia.
  - by rewrite pretty_N_go_0.
  - rewrite pretty_N_go_step by done.
    rewrite IH by (by apply N.div_lt). simpl.
    unfold pretty_N_char. by repeat case_match.
Qed.

Lemma pretty_N_numeric (n : N) : all_chars numeric (pretty n) = true.
Proof.
  unfold pretty, pretty_N. case_decide; [done|]. by rewrite pretty_N_go_numeric.
Qed.

Lemma pretty_Z_numeric (z : Z) : all_chars numeric (pretty z) = true.
Proof.
  destruct z as [|p|p]; [done|apply (pretty_N_numeric (N.pos p))|].
  unfold pretty, pretty_Z. simpl. apply (pretty_N_numeric (N.pos p)).
Qed.

Lemma number_to_string_chars (P : ascii → bool) n :
  (∀ c, numeric c = true → P c = true) → P "N"%char = true → P "a"%char = true →
  all_chars P (number_to_string n) = true.
Proof.
  intros Hnum HN Ha. destruct n as [z|]; simpl.
  - apply (all_chars_weaken numeric); [done|apply pretty_Z_numeric].
  - by rewrite HN, Ha.
Qed.

Lemma fill_string_chars P n fill s :
  P fill = true → all_chars P (fill_string n fill s) = all_chars P s.
Proof. intros Hfill. induction n as [|n IH]; simpl; [done|]. by rewrite Hfill. Qed.

Lemma padStart_chars P n s :
  P "0"%char = true → all_chars P (padStart n "0" s) = all_chars P s.
Proof. intros. by apply fill_string_chars. Qed.

Lemma dateStr_chars (P : ascii → bool) tz event :
  (∀ c, numeric c = true → P c = true) → P "N"%char = true → P "a"%char = true →
  all_chars P (dateStr tz event) = true.
Proof.
  intros Hnum HN Ha. unfold dateStr.
  assert (P "0"%char = true) as H0 by (by apply Hnum).
  assert (P "-"%char = true) as Hdash by (by apply Hnum).
  rewrite !all_chars_app, !padStart_chars, !number_to_string_chars by done.
  simpl. by rewrite Hdash.
Qed.

Lemma sanitizeFilename_legal filename :
  all_chars (λ c, negb (illegal c)) (sanitizeFilename filename) = true.
Proof.
  induction filename as [|c s IH]; simpl; [done|].
  destruct (illegal c) eqn:Hc; simpl; [done|]. by rewrite Hc, IH.
Qed.

Lemma numeric_legal c : numeric c = true → negb (illegal c) = true.
Proof.
  unfold numeric, illegal. rewrite bool_decide_eq_true, negb_true_iff.
  intros Hc. apply bool_decide_eq_false. rewrite !elem_of_cons, elem_of_nil. lia.
Qed.

(** X17. Whatever the event, the file name of its note holds none of the
    characters that [sanitizeFilename] removes, also when the title is made
    of such characters only or the start is no date. *)
Theorem fileName_legal tz event :
  all_chars (λ c, negb (illegal c)) (fileName tz event) = true.
Proof.
  unfold fileName. rewrite !all_chars_app, sanitizeFilename_legal.
  rewrite dateStr_chars; [done|apply numeric_legal|done..].
Qed.

Lemma string_app_length s1 s2 :
  String.length (s1 +:+ s2) = (String.length s1 + String.length s2)%nat.
Proof. induction s1 as [|c s1 IH]; simpl; [done|]. by rewrite IH. Qed.

Lemma string_app_inj_length x1 x2 y1 y2 :
  String.length y1 = String.length y2 →
  x1 +:+ y1 = x2 +:+ y2 → x1 = x2 ∧ y1 = y2.
Proof.
  intros Hlen. revert x2. induction x1 as [|c1 x1 IH]; intros [|c2 x2] Heq; simpl in *.
  - done.
  - apply (f_equal String.length) in Heq.
    rewrite !string_app_length in Heq. simpl in Heq. lia.
  - apply (f_equal String.length) in Heq.
    rewrite !string_app_length in Heq. simpl in Heq. lia.
  - injection Heq as -> Heq. by destruct (IH _ Heq) as [-> ->].
Qed.

Lemma split_at_char c x y r1 r2 :
  without c x = true → without c y = true →
  x +:+ String c r1 = y +:+ String c r2 → x = y ∧ r1 = r2.
Proof.
  unfold without. revert y. induction x as [|c1 x IH]; intros [|c2 y]; simpl.
  - by intros _ _ [= ->].
  - rewrite andb_true_iff, negb_true_iff, bool_decide_eq_false.
    intros _ [Hc _] [= <- _]. done.
  - rewrite andb_true_iff, negb_true_iff, bool_decide_eq_false.
    intros [Hc _] _ [= -> _]. done.
  - rewrite !andb_true_iff. intros [_ Hx] [_ Hy] [= -> Heq].
    by destruct (IH _ Hx Hy Heq) as [-> ->].
Qed.

Lemma two_digits n :
  0 ≤ n ≤ 99 → padStart 2 "0" (pretty n) = pad_digits 2 n "".
Proof.
  intros Hn.
  assert (forallb (λ k : nat, bool_decide (padStart 2 "0" (pretty (Z.of_nat k))
                                             = pad_digits 2 (Z.of_nat k) ""))
            (seq 0 100) = true) as Hall by (by vm_compute).
  rewrite forallb_forall in Hall.
  specialize (Hall (Z.to_nat n)). rewrite Z2Nat.id in Hall by lia.
  eapply bool_decide_eq_true_1, Hall, in_seq. lia.
Qed.

Lemma pad_digits_inj w v1 v2 :
  0 ≤ v1 < 10 ^ Z.of_nat w → 0 ≤ v2 < 10 ^ Z.of_nat w →
  pad_digits w v1 "" = pad_digits w v2 "" → v1 = v2.
Proof.
  intros H1 H2 Heq. apply (f_equal (read_digits w 0)) in Heq.
  rewrite !read_padded in Heq by done. congruence.
Qed.

Lemma fields_of_day t1 t2 :
  Day t1 = Day t2 ↔
  YearFromTime t1 = YearFromTime t2 ∧ MonthFromTime t1 = MonthFromTime t2
  ∧ DateFromTime t1 = DateFromTime t2.
Proof.
  split.
  - intros Hday.
    assert (YearFromTime t1 = YearFromTime t2) as Hy
      by (unfold YearFromTime; by rewrite Hday).
    assert (DayWithinYear t1 = DayWithinYear t2) as Hd
      by (unfold DayWithinYear; by rewrite Hday, Hy).
    assert (MonthFromTime t1 = MonthFromTime t2) as Hm
      by (unfold MonthFromTime, InLeapYear; by rewrite Hd, Hy).
    split_and!; [done..|].
    unfold DateFromTime, InLeapYear. by rewrite Hm, Hd, Hy.
  - intros (Hy & Hm & Hd).
    rewrite <-(MakeDay_fields t1), <-(MakeDay_fields t2). by rewrite Hy, Hm, Hd.
Qed.

Lemma dateStr_valid tz event s :
  start event = ValidDate s →
  dateStr tz event =
  pretty (YearFromTime (s + tz)) +:+ "-"
  +:+ pad_digits 2 (MonthFromTime (s + tz) + 1) "" +:+ "-"
  +:+ pad_digits 2 (DateFromTime (s + tz)) "".
Proof.
  intros Hs. unfold dateStr. rewrite Hs. simpl.
  pose proof (month_date_spec (s + tz)) as (Hm & Hd & _).
  assert (DaysInMonth (YearFromTime (s + tz)) (MonthFromTime (s + tz)) ≤ 31) as Hdm.
  { pose proof (leap_days_range (YearFromTime (s + tz))).
    unfold DaysInMonth, month_offset.
    repeat case_match; lia. }
  by rewrite !two_digits by lia.
Qed.

Lemma dateStr_inj tz a b sa sb :
  start a = ValidDate sa → start b = ValidDate sb →
  dateStr tz a = dateStr tz b ↔ Day (sa + tz) = Day (sb + tz).
Proof.
  intros Ha Hb. rewrite (dateStr_valid tz a sa), (dateStr_valid tz b sb) by done.
  rewrite fields_of_day.
  pose proof (month_date_spec (sa + tz)) as (Hma & Hda & _).
  pose proof (month_date_spec (sb + tz)) as (Hmb & Hdb & _).
  assert (∀ t, DaysInMonth (YearFromTime t) (MonthFromTime t) ≤ 31) as Hdm.
  { intros t. pose proof (leap_days_range (YearFromTime t)).
    unfold DaysInMonth, month_offset. repeat case_match; lia. }
  pose proof (Hdm (sa + tz)). pose proof (Hdm (sb + tz)).
  assert (∀ v1 v2 r1 r2, 0 ≤ v1 < 100 → 0 ≤ v2 < 100 →
            pad_digits 2 v1 "" +:+ r1 = pad_digits 2 v2 "" +:+ r2 →
            v1 = v2 ∧ r1 = r2) as Hpad.
  { intros v1 v2 r1 r2 H1 H2 Heq.
    assert (String.length r1 = String.length r2) as Hlen.
    { apply (f_equal String.length) in Heq.
      rewrite !string_app_length in Heq. simpl in Heq. lia. }
    apply string_app_inj_length in Heq as [Hv ->]; [|done].
    split; [|done]. by apply (pad_digits_inj 2). }
  split.
  - intros Heq.
    apply string_app_inj_length in Heq as [Hy Heq]; [|done].
    apply (inj pretty) in Hy.
    apply (f_equal (λ s, match s with String _ r => r | EmptyString => s end)) in Heq.
    cbn [String.app] in Heq.
    apply Hpad in Heq as [Hm Heq]; [|lia..].
    apply (f_equal (λ s, match s with String _ r => r | EmptyString => s end)) in Heq.
    cbn [String.app] in Heq.
    apply (pad_digits_inj 2) in Heq; [|simpl; lia..].
    split_and!; [done|lia|done].
  - intros (-> & -> & ->). done.
Qed.

Lemma dateStr_without_space tz event : without " " (dateStr tz event) = true.
Proof.
  apply dateStr_chars; [|done..].
  intros c. unfold numeric. rewrite bool_decide_eq_true, negb_true_iff.
  intros Hc. apply bool_decide_eq_false. intros ->.
  unfold byte in Hc. simpl in Hc. lia.
Qed.

(** X18. Two events with valid starts get the same note file name exactly
    when they start on the same local day and their titles agree once the
    illegal characters are removed; the time of day and the other fields
    play no part. *)
Theorem fileName_collision tz a b sa sb :
  start a = ValidDate sa → start b = ValidDate sb →
  fileName tz a = fileName tz b ↔
  Day (sa + tz) = Day (sb + tz)
  ∧ sanitizeFilename (summary a) = sanitizeFilename (summary b).
Proof.
  intros Ha Hb. rewrite <-(dateStr_inj tz a b sa sb) by done.
  unfold fileName. split.
  - intros Heq.
    apply split_at_char in Heq as [Hdate Heq];
      [|apply dateStr_without_space..].
    split; [done|]. injection Heq as Heq.
    by apply string_app_inj_length in Heq as [-> _].
  - by intros [-> ->].
Qed.

Lemma fileName_collision_witness :
  fileName 0 review = fileName 0 review_again ↔
  Day (jun10 + 9 * msPerHour + 5 * msPerMinute + 0) = Day (jun10 + 15 * msPerHour + 0)
  ∧ sanitizeFilename (summary review) = sanitizeFilename (summary review_again).
Proof.
  apply (fileName_collision 0 review review_again
           (jun10 + 9 * msPerHour + 5 * msPerMinute) (jun10 + 15 * msPerHour));
    reflexivity.
Defined.

(** The two reviews of 2025-06-10 share one note. *)
Example reviews_share_a_note :
  fileName 0 review = "2025-06-10 - Q3Q4 plan.md"
  ∧ fileName 0 review_again = "2025-06-10 - Q3Q4 plan.md".
Proof. by vm_compute. Qed.

(** ** Creating a note *)

Ltac act_unfold :=
  unfold CalendarView.try_catch, CalendarView.throw, CalendarView.emit,
    CalendarView.getAbstractFileByPath, CalendarView.read,
    CalendarView.openLinkText, mbind, CalendarView.Act_bind, mret,
    CalendarView.Act_ret.

Lemma foldr_add_folder_keeps made files p f :
  files !! p = Some f → foldr CalendarView.add_folder files made !! p = Some f.
Proof.
  intros Hp. induction made as [|path made IH]; simpl; [done|].
  unfold CalendarView.add_folder at 1.
  destruct (foldr CalendarView.add_folder files made !! path) eqn:Hpath; [done|].
  rewrite lookup_insert_ne; [done|]. intros ->. congruence.
Qed.

Lemma foldr_add_folder_new made files p f :
  foldr CalendarView.add_folder files made !! p = Some f →
  files !! p = Some f ∨ f = CalendarView.TFolder.
Proof.
  induction made as [|path made IH]; simpl; [by left|].
  unfold CalendarView.add_folder at 1.
  destruct (foldr CalendarView.add_folder files made !! path) eqn:Hpath; [done|].
  destruct (decide (p = path)) as [->|Hne].
  - rewrite lookup_insert_eq. intros [= <-]. by right.
  - by rewrite lookup_insert_ne.
Qed.

Lemma ensure_folder_run host folderPath s :
  ∃ r s1,
    match CalendarView.vault s !! folderPath with
    | Some _ => mret ()
    | None => CalendarView.createFolder host folderPath
    end s = (r, s1)
    ∧ CalendarView.effects s1 = CalendarView.effects s
    ∧ (∀ p f, CalendarView.vault s !! p = Some f → CalendarView.vault s1 !! p = Some f)
    ∧ (∀ p f, CalendarView.vault s1 !! p = Some f →
         CalendarView.vault s !! p = Some f ∨ f = CalendarView.TFolder).
Proof.
  destruct (CalendarView.vault s !! folderPath) eqn:Hfolder.
  { exists (Some ()), s. split_and!; [done..|by left]. }
  unfold CalendarView.createFolder.
  destruct (CalendarView.vault s !! CalendarView.normalizePath host folderPath).
  { exists None, s. split_and!; [done..|by left]. }
  destruct (CalendarView.createFolder_makes host folderPath) as [made|].
  - eexists (Some ()), _. split; [done|]. simpl.
    split_and!; [done|by apply foldr_add_folder_keeps|by apply foldr_add_folder_new].
  - exists None, s. split_and!; [done..|by left].
Qed.

Lemma write_or_open_run host filePath name content s :
  ∃ r s',
    (existingFile ← CalendarView.getAbstractFileByPath filePath;
     match existingFile with
     | Some _ =>
       CalendarView.emit (CalendarView.Notice ("Note already exists: " +:+ name));;
       CalendarView.openLinkText host filePath
     | None =>
       CalendarView.create host filePath content;;
       CalendarView.emit (CalendarView.Notice ("Created note: " +:+ name));;
       CalendarView.openLinkText host filePath
     end) s = (r, s')
    ∧ (∀ p f, CalendarView.vault s !! p = Some f → CalendarView.vault s' !! p = Some f)
    ∧ (∀ p f, CalendarView.vault s' !! p = Some f →
         CalendarView.vault s !! p = Some f
         ∨ (p = CalendarView.normalizePath host filePath
            ∧ f = CalendarView.TFile content)).
Proof.
  act_unfold. destruct s as [files eff]; simpl.
  destruct (files !! filePath) eqn:Hnote; simpl.
  { destruct (CalendarView.openLinkText_ok host _); simpl;
      eexists _, _; (split; [done|]); simpl; auto. }
  unfold CalendarView.create; simpl.
  destruct (files !! CalendarView.normalizePath host filePath) eqn:Hnorm; simpl.
  { eexists _, _. split; [done|]. simpl. auto. }
  destruct (CalendarView.create_ok host _); simpl.
  2: { eexists _, _. split; [done|]. simpl. auto. }
  assert ((∀ p f, files !! p = Some f →
             <[CalendarView.normalizePath host filePath
               := CalendarView.TFile content]> files !! p = Some f)
          ∧ (∀ p f, <[CalendarView.normalizePath host filePath
                      := CalendarView.TFile content]> files !! p = Some f →
               files !! p = Some f
               ∨ (p = CalendarView.normalizePath host filePath
                  ∧ f = CalendarView.TFile content))) as [Hkeep Hnew].
  { split; intros p f.
    - intros Hp. rewrite lookup_insert_ne; [done|]. intros <-. congruence.
    - destruct (decide (p = CalendarView.normalizePath host filePath)) as [->|Hne].
      + rewrite lookup_insert_eq. intros [= <-]. by right.
      + rewrite lookup_insert_ne by done. by left. }
  destruct (CalendarView.openLinkText_ok host _); simpl;
    eexists _, _; (split; [done|]); simpl; done.
Qed.

(** X19. Creating a note never throws and never changes or removes
    anything the vault holds. All it can add is folders and one file: the
    note, under the notes folder and the file name of the event, with the
    content made from the template. *)
Theorem createNoteFromEvent_keeps_vault host tz st event s :
  ∃ s', CalendarView.createNoteFromEvent host tz st event s = (Some (), s')
    ∧ (∀ p f, CalendarView.vault s !! p = Some f → CalendarView.vault s' !! p = Some f)
    ∧ (∀ p f, CalendarView.vault s' !! p = Some f →
         CalendarView.vault s !! p = Some f
         ∨ f = CalendarView.TFolder
         ∨ (p = CalendarView.normalizePath host
                  (notesFolder st +:+ "/" +:+ fileName tz event)
            ∧ ∃ templateContent,
                CalendarView.vault s !! (templatePath st +:+ ".md")
                = Some (CalendarView.TFile templateContent)
                ∧ f = CalendarView.TFile (noteContent tz st event templateContent))).
Proof.
  unfold CalendarView.createNoteFromEvent. cbv zeta.
  unfold CalendarView.try_catch.
  unfold mbind at 1, CalendarView.Act_bind at 1.
  unfold CalendarView.getAbstractFileByPath at 1.
  destruct (CalendarView.vault s !! (templatePath st +:+ ".md"))
    as [[templateContent|]|] eqn:Htpl;
    [|by eexists; split_and!; [done|simpl; auto..]..].
  unfold mbind at 1, CalendarView.Act_bind at 1. unfold CalendarView.read.
  destruct (CalendarView.read_ok host _);
    [|by eexists; split_and!; [done|simpl; auto..]].
  unfold mret at 1, CalendarView.Act_ret at 1.
  unfold mbind at 1, CalendarView.Act_bind at 1, CalendarView.emit at 1.
  unfold mbind at 1, CalendarView.Act_bind at 1, CalendarView.emit at 1.
  unfold mbind at 1, CalendarView.Act_bind at 1, CalendarView.getAbstractFileByPath at 1.
  cbn [CalendarView.vault CalendarView.effects].
  unfold mbind at 1, CalendarView.Act_bind at 1.
  match goal with |- context [match _ with Some _ => mret () | None => _ end ?s0] =>
    destruct (ensure_folder_run host (notesFolder st) s0)
      as (r & s1 & Hrun & _ & Hkeep1 & Hnew1) end.
  simpl in Hrun, Hkeep1, Hnew1. rewrite Hrun.
  destruct r as [[]|].
  2: { eexists. split; [done|]. simpl. split; [done|].
       intros p f Hp. destruct (Hnew1 _ _ Hp); auto. }
  destruct (write_or_open_run host (notesFolder st +:+ "/" +:+ fileName tz event)
              (fileName tz event) (noteContent tz st event templateContent) s1)
    as (r & s' & -> & Hkeep & Hnew).
  assert (∀ p f, CalendarView.vault s' !! p = Some f →
    CalendarView.vault s !! p = Some f ∨ f = CalendarView.TFolder
    ∨ p = CalendarView.normalizePath host (notesFolder st +:+ "/" +:+ fileName tz event)
      ∧ (∃ templateContent0 : string,
           Some (CalendarView.TFile templateContent)
           = Some (CalendarView.TFile templateContent0)
           ∧ f = CalendarView.TFile (noteContent tz st event templateContent0)))
    as Hall.
  { intros p f Hp. destruct (Hnew _ _ Hp) as [Hp1|[-> ->]].
    - destruct (Hnew1 _ _ Hp1); auto.
    - right. right. split; [done|]. by exists templateContent. }
  destruct r as [[]|]; eexists; (split; [done|]); simpl; auto.
Qed.

Lemma shown_app l1 l2 : shown (l1 ++ l2) = shown l1 ++ shown l2.
Proof. unfold shown. apply omap_app. Qed.

Ltac note_steps :=
  unfold CalendarView.createNoteFromEvent; cbv zeta;
  unfold CalendarView.try_catch, CalendarView.create, CalendarView.read;
  act_unfold; cbn [CalendarView.vault CalendarView.effects].

Ltac note_simpl := cbv beta; cbn [CalendarView.vault CalendarView.effects].

(** The note is written when the template can be read, the notes folder
    exists and nothing is in the way. *)
Lemma note_absent_run host tz st event templateContent s :
  CalendarView.vault s !! (templatePath st +:+ ".md")
  = Some (CalendarView.TFile templateContent) →
  CalendarView.read_ok host (templatePath st +:+ ".md") = true →
  is_Some (CalendarView.vault s !! notesFolder st) →
  CalendarView.normalizePath host (notesFolder st +:+ "/" +:+ fileName tz event)
  = notesFolder st +:+ "/" +:+ fileName tz event →
  CalendarView.vault s !! (notesFolder st +:+ "/" +:+ fileName tz event) = None →
  CalendarView.create_ok host (notesFolder st +:+ "/" +:+ fileName tz event) = true →
  ∃ s1,
    CalendarView.createNoteFromEvent host tz st event s = (Some (), s1)
    ∧ CalendarView.vault s1
      = <[notesFolder st +:+ "/" +:+ fileName tz event
          := CalendarView.TFile (noteContent tz st event templateContent)]>
          (CalendarView.vault s)
    ∧ shown (CalendarView.effects s1) =
      shown (CalendarView.effects s)
      ++ ["Created note: " +:+ fileName tz event]
      ++ (if CalendarView.openLinkText_ok host
               (notesFolder st +:+ "/" +:+ fileName tz event)
          then [] else ["Error creating note. Check console for details."]).
Proof.
  intros Htpl Hread [folder Hfolder] Hnorm Hnote Hcreate.
  destruct (CalendarView.openLinkText_ok host _) eqn:Hopen;
    note_steps; rewrite Htpl, Hread; note_simpl; rewrite Hfolder; note_simpl;
    rewrite Hnote; note_simpl; rewrite Hnorm, Hnote, Hcreate; note_simpl;
    rewrite Hopen; note_simpl;
    eexists; (split; [done|]); note_simpl; (split; [done|]);
    rewrite !shown_app; simpl; by rewrite ?app_nil_r, <-?app_assoc.
Qed.

(** Nothing is written when the note is there already. *)
Lemma note_present_run host tz st event templateContent note s :
  CalendarView.vault s !! (templatePath st +:+ ".md")
  = Some (CalendarView.TFile templateContent) →
  CalendarView.read_ok host (templatePath st +:+ ".md") = true →
  is_Some (CalendarView.vault s !! notesFolder st) →
  CalendarView.vault s !! (notesFolder st +:+ "/" +:+ fileName tz event) = Some note →
  ∃ s1,
    CalendarView.createNoteFromEvent host tz st event s = (Some (), s1)
    ∧ CalendarView.vault s1 = CalendarView.vault s
    ∧ shown (CalendarView.effects s1) =
      shown (CalendarView.effects s)
      ++ ["Note already exists: " +:+ fileName tz event]
      ++ (if CalendarView.openLinkText_ok host
               (notesFolder st +:+ "/" +:+ fileName tz event)
          then [] else ["Error creating note. Check console for details."]).
Proof.
  intros Htpl Hread [folder Hfolder] Hnote.
  destruct (CalendarView.openLinkText_ok host _) eqn:Hopen;
    note_steps; rewrite Htpl, Hread; note_simpl; rewrite Hfolder; note_simpl;
    rewrite Hnote; note_simpl; rewrite Hopen; note_simpl;
    eexists; (split; [done|]); note_simpl; (split; [done|]);
    rewrite !shown_app; simpl; by rewrite ?app_nil_r, <-?app_assoc.
Qed.

(** X20. Pressing "Create Note" a second time does not write: once the
    note of an event has been created, creating a note for any event with
    the same file name leaves the vault as it is, the first note included,
    and shows "Note already exists". Here the template can be read, the
    notes folder exists, the path of the note is stored as given, and the
    note can be written the first time. *)
Theorem createNoteFromEvent_twice host tz st a b templateContent s :
  CalendarView.vault s !! (templatePath st +:+ ".md")
  = Some (CalendarView.TFile templateContent) →
  CalendarView.read_ok host (templatePath st +:+ ".md") = true →
  is_Some (CalendarView.vault s !! notesFolder st) →
  CalendarView.normalizePath host (notesFolder st +:+ "/" +:+ fileName tz a)
  = notesFolder st +:+ "/" +:+ fileName tz a →
  CalendarView.vault s !! (notesFolder st +:+ "/" +:+ fileName tz a) = None →
  CalendarView.create_ok host (notesFolder st +:+ "/" +:+ fileName tz a) = true →
  fileName tz b = fileName tz a →
  ∃ s1 s2,
    CalendarView.createNoteFromEvent host tz st a s = (Some (), s1)
    ∧ CalendarView.vault s1
      = <[notesFolder st +:+ "/" +:+ fileName tz a
          := CalendarView.TFile (noteContent tz st a templateContent)]>
          (CalendarView.vault s)
    ∧ CalendarView.createNoteFromEvent host tz st b s1 = (Some (), s2)
    ∧ CalendarView.vault s2 = CalendarView.vault s1
    ∧ "Note already exists: " +:+ fileName tz a ∈ shown (CalendarView.effects s2).
Proof.
  intros Htpl Hread Hfolder Hnorm Hnote Hcreate Hname.
  destruct (note_absent_run host tz st a templateContent s)
    as (s1 & Hrun1 & Hv1 & _); [done..|].
  destruct (note_present_run host tz st b templateContent
              (CalendarView.TFile (noteContent tz st a templateContent)) s1)
    as (s2 & Hrun2 & Hv2 & Hshown2).
  - rewrite Hv1, lookup_insert_ne; [done|].
    intros Heq. rewrite <-Heq in Htpl. congruence.
  - done.
  - destruct Hfolder as [folder Hfolder].
    rewrite Hv1, lookup_insert_ne; [by eexists|].
    intros Heq. rewrite <-Heq in Hfolder. congruence.
  - by rewrite Hname, Hv1, lookup_insert_eq.
  - exists s1, s2. split_and!; [done..|].
    rewrite Hshown2, Hname. set_solver.
Qed.

Lemma createNoteFromEvent_twice_witness :
  ∃ s1 s2,
    CalendarView.createNoteFromEvent plain_obsidian 0 showing review fresh_vault
    = (Some (), s1)
    ∧ CalendarView.vault s1
      = <[notesFolder showing +:+ "/" +:+ fileName 0 review
          := CalendarView.TFile (noteContent 0 showing review meeting_template)]>
          (CalendarView.vault fresh_vault)
    ∧ CalendarView.createNoteFromEvent plain_obsidian 0 showing review_again s1
      = (Some (), s2)
    ∧ CalendarView.vault s2 = CalendarView.vault s1
    ∧ "Note already exists: " +:+ fileName 0 review
      ∈ shown (CalendarView.effects s2).
Proof.
  apply (createNoteFromEvent_twice plain_obsidian 0 showing review review_again
           meeting_template fresh_vault).
  - reflexivity.
  - reflexivity.
  - by eexists.
  - reflexivity.
  - reflexivity.
  - reflexivity.
  - reflexivity.
Defined.

(** X21. Without a template that can be read nothing is created: the
    vault stays as it is and the one notification shown is "Template not
    found" with the path looked up (the setting followed by [.md]) when
    nothing is stored under that path, and the general error when the path
    is a folder or the file cannot be read. *)
Theorem createNoteFromEvent_without_template host tz st event s :
  match CalendarView.vault s !! (templatePath st +:+ ".md") with
  | Some (CalendarView.TFile _) =>
    CalendarView.read_ok host (templatePath st +:+ ".md") = false
  | _ => True
  end →
  ∃ s', CalendarView.createNoteFromEvent host tz st event s = (Some (), s')
    ∧ CalendarView.vault s' = CalendarView.vault s
    ∧ shown (CalendarView.effects s') =
      shown (CalendarView.effects s)
      ++ [match CalendarView.vault s !! (templatePath st +:+ ".md") with
          | None => "Template not found: " +:+ templatePath st +:+ ".md"
          | Some _ => "Error creating note. Check console for details."
          end].
Proof.
  intros Htpl. note_steps.
  destruct (CalendarView.vault s !! (templatePath st +:+ ".md")) as [[c|]|];
    rewrite ?Htpl; note_simpl;
    eexists; (split; [done|]); note_simpl; (split; [done|]);
    rewrite !shown_app; simpl; by rewrite ?app_nil_r.
Qed.

Lemma createNoteFromEvent_without_template_witness :
  ∃ s', CalendarView.createNoteFromEvent plain_obsidian 0 showing review empty_vault
        = (Some (), s')
    ∧ CalendarView.vault s' = CalendarView.vault empty_vault
    ∧ shown (CalendarView.effects s') =
      shown (CalendarView.effects empty_vault)
      ++ [match CalendarView.vault empty_vault !! (templatePath showing +:+ ".md") with
          | None => "Template not found: " +:+ templatePath showing +:+ ".md"
          | Some _ => "Error creating note. Check console for details."
          end].
Proof.
  apply (createNoteFromEvent_without_template plain_obsidian 0 showing review
           empty_vault).
  exact I.
Defined.

(** ** The content of the note *)

Lemma prefix_app m s : String.prefix m s = true → ∃ rest, s = m +:+ rest.
Proof.
  revert s. induction m as [|c m IH]; intros s.
  - intros _. by exists s.
  - destruct s as [|c' s]; [done|]. simpl.
    destruct (Ascii.ascii_dec c c') as [->|]; [|done].
    intros (rest & ->)%IH. by exists rest.
Qed.

Lemma before_first_app marker s kept :
  before_first marker s = Some kept → ∃ rest, s = kept +:+ marker +:+ rest.
Proof.
  revert kept. induction s as [|c s IH]; intros kept.
  - destruct marker; [|done]. intros [= <-]. by exists "".
  - cbn [before_first]. destruct (String.prefix marker (String c s)) eqn:Hp.
    + intros [= <-]. by apply prefix_app in Hp.
    + destruct (before_first marker s) as [k|]; [|done].
      intros [= <-]. destruct (IH k eq_refl) as (rest & ->). by exists rest.
Qed.

Lemma string_length_ind (P : string → Prop) :
  (∀ s, (∀ r, (String.length r < String.length s)%nat → P r) → P s) → ∀ s, P s.
Proof.
  intros Hstep s. remember (String.length s) as n eqn:Hn.
  revert s Hn. induction (lt_wf n) as [n _ IH]; intros s ->.
  apply Hstep. intros r Hr. by apply (IH (String.length r)).
Qed.

(** [trimStart] takes no underscore away. *)
Lemma trimStart_underscore s :
  without "_" (trimStart s) = true → without "_" s = true.
Proof.
  induction s as [s IH] using string_length_ind.
  destruct s as [|c1 r1]; [done|]. simpl trimStart.
  destruct (space1 c1) eqn:H1.
  { intros Hr%IH; [|simpl; lia]. unfold without in *. simpl. rewrite Hr.
    unfold space1 in H1. apply bool_decide_eq_true in H1.
    rewrite andb_true_r. apply negb_true_iff, bool_decide_eq_false.
    intros ->. unfold byte in H1. simpl in H1. lia. }
  destruct r1 as [|c2 r2]; [done|].
  destruct (space2 c1 c2) eqn:H2.
  { intros Hr%IH; [|simpl; lia]. unfold without in *. simpl. rewrite Hr.
    unfold space2 in H2. apply bool_decide_eq_true in H2.
    rewrite andb_true_r, andb_true_iff, !negb_true_iff, !bool_decide_eq_false.
    split; intros ->; unfold byte in H2; simpl in H2; lia. }
  destruct r2 as [|c3 r3]; [done|].
  destruct (space3 c1 c2 c3) eqn:H3; [|done].
  intros Hr%IH; [|simpl; lia]. unfold without in *. simpl. rewrite Hr.
  unfold space3 in H3. apply bool_decide_eq_true in H3.
  rewrite andb_true_r, !andb_true_iff, !negb_true_iff, !bool_decide_eq_false.
  split_and!; intros ->; unfold byte in H3; simpl in H3; lia.
Qed.

Lemma trim_underscore s : trim s = "" → without "_" s = true.
Proof.
  unfold trim. intros Htrim. apply trimStart_underscore.
  destruct (trimStart s) as [|c r] eqn:Hs; [done|].
  cbn [trimEnd] in Htrim. case_bool_decide as Hempty; [|done].
  apply trimStart_underscore. by rewrite Hempty.
Qed.

Lemma marked_not_blank text kept :
  before_first teamsMarker text = Some kept →
  truthy text && truthy (trim text) = true.
Proof.
  intros (rest & ->)%before_first_app.
  assert (without "_" (kept +:+ teamsMarker +:+ rest) = false) as Hmark.
  { unfold without. rewrite !all_chars_app.
    by rewrite andb_false_r. }
  apply andb_true_iff. split.
  - unfold truthy. apply negb_true_iff, bool_decide_eq_false. intros Heq.
    by rewrite Heq in Hmark.
  - unfold truthy. apply negb_true_iff, bool_decide_eq_false.
    intros Hblank%trim_underscore. congruence.
Qed.

(** X22. With [trimTeamsLinks] on, nothing of the description from the
    Teams separator line on reaches the note: two events that start at the
    same time with the same attendees, and whose descriptions agree up to
    the first separator, get the same note content from any template. *)
Theorem noteContent_ignores_footer tz st a b templateContent kept :
  trimTeamsLinks st = true →
  start a = start b → attendees a = attendees b →
  before_first teamsMarker (description a) = Some kept →
  before_first teamsMarker (description b) = Some kept →
  noteContent tz st a templateContent = noteContent tz st b templateContent.
Proof.
  intros Htrim Hstart Hatt Ha Hb. unfold noteContent, dateStr, timeStr.
  rewrite Htrim, Ha, Hb, Hstart, Hatt.
  by rewrite (marked_not_blank _ _ Ha), (marked_not_blank _ _ Hb).
Qed.

Lemma noteContent_ignores_footer_witness :
  noteContent 0 showing (with_description review (teams_invite "Join the meeting"))
    meeting_template
  = noteContent 0 showing
      (with_description review (teams_invite "Meeting ID: 123 456")) meeting_template.
Proof.
  apply (noteContent_ignores_footer 0 showing _ _ meeting_template
           ("Agenda:" +:+ String LF ("1. Budget" +:+ String LF (String LF ""))));
    reflexivity.
Defined.

Lemma before_first_none_cons marker c s :
  before_first marker (String c s) = None →
  String.prefix marker (String c s) = false ∧ before_first marker s = None.
Proof.
  cbn [before_first]. destruct (String.prefix marker (String c s)); [done|].
  by destruct (before_first marker s).
Qed.

Lemma replace_scan_absent key replacement scan before s :
  before_first key s = None → scan ≠ Replaced →
  replace_scan key replacement scan before s = s.
Proof.
  revert scan before. induction s as [|c s IH]; intros scan before Hkey Hscan;
    [done|].
  apply before_first_none_cons in Hkey as [Hprefix Hkey].
  cbn [replace_scan].
  destruct scan as [| | |[|more]]; try done.
  all: destruct (terminator_length (String c s)) as [|[|more']];
    rewrite ?Hprefix; f_equal; apply IH; try done; by destruct more.
Qed.

Lemma replace_lines_absent key replacement s :
  before_first key s = None → replace_lines key replacement s = s.
Proof. intros. by apply replace_scan_absent. Qed.

(** X23. A template that mentions none of [date:], [time:],
    [attendees:] and [description:] is copied as it is: for an event whose
    description is empty or blank the note content is the template, byte
    for byte. *)
Theorem noteContent_plain_template tz st event templateContent :
  before_first "date:" templateContent = None →
  before_first "time:" templateContent = None →
  before_first "attendees:" templateContent = None →
  before_first "description:" templateContent = None →
  trim (description event) = "" →
  noteContent tz st event templateContent = templateContent.
Proof.
  intros Hdate Htime Hatt Hdesc Hblank. unfold noteContent.
  rewrite Hblank, andb_false_r.
  rewrite (replace_lines_absent "date:") by done.
  rewrite (replace_lines_absent "time:") by done.
  case_bool_decide; rewrite (replace_lines_absent "attendees:") by done;
    by rewrite (replace_lines_absent "description:").
Qed.

Lemma noteContent_plain_template_witness :
  noteContent 0 showing review ("# Notes" +:+ String LF "Decisions") =
  "# Notes" +:+ String LF "Decisions".
Proof.
  apply (noteContent_plain_template 0 showing review
           ("# Notes" +:+ String LF "Decisions")); reflexivity.
Defined.

Lemma join_split s : join (String LF "") (split LF s) = s.
Proof.
  unfold join. induction s as [|c s IH]; [done|]. cbn [split].
  case_bool_decide as Hc.
  - subst c. cbn [String.concat]. destruct (split LF s) as [|line lines] eqn:Hs.
    + by destruct s; [|simpl in Hs; repeat case_match].
    + rewrite IH. done.
  - destruct (split LF s) as [|line lines] eqn:Hs.
    + by destruct s; [|simpl in Hs; repeat case_match].
    + rewrite <-IH. by destruct lines.
Qed.

(** X24. A description that is not blank and is not cut at a Teams
    separator (the setting is off, or there is none) is added in full at
    the end of the note, under the heading "Meeting invite", each of its
    lines behind a quotation mark [>]; joining its lines gives the
    description back. What stands before is the note of the same event
    without description. *)
Theorem noteContent_quotes_description tz st event templateContent :
  trim (description event) ≠ "" →
  trimTeamsLinks st = false ∨ before_first teamsMarker (description event) = None →
  noteContent tz st event templateContent =
  noteContent tz st (with_description event "") templateContent
  +:+ String LF (String LF ("## Meeting invite" +:+ String LF (String LF
        (join (String LF "")
           ((λ line, "> " +:+ line) <$> split LF (description event))))))
  ∧ join (String LF "") (split LF (description event)) = description event.
Proof.
  intros Hblank Hkeep. split; [|apply join_split].
  unfold noteContent, dateStr, timeStr. cbn [description start attendees with_description].
  assert (description event ≠ "") as Hne by (by intros Heq; rewrite Heq in Hblank).
  assert (truthy (description event) = true) as Hd
    by (unfold truthy; by rewrite bool_decide_eq_false_2).
  assert (truthy (trim (description event)) = true) as Ht
    by (unfold truthy; by rewrite bool_decide_eq_false_2).
  rewrite Hd, Ht. cbn [andb truthy].
  assert ((if trimTeamsLinks st
           then match before_first teamsMarker (description event) with
                | Some kept => trim kept
                | None => description event
                end
           else description event) = description event) as ->.
  { destruct Hkeep as [->| ->]; [done|]. by destruct (trimTeamsLinks st). }
  rewrite Hd. reflexivity.
Qed.

Lemma noteContent_quotes_description_witness :
  noteContent 0 hiding
    (with_description review ("Agenda:" +:+ String LF "1. Budget")) meeting_template =
  noteContent 0 hiding
    (with_description (with_description review ("Agenda:" +:+ String LF "1. Budget")) "")
    meeting_template
  +:+ String LF (String LF ("## Meeting invite" +:+ String LF (String LF
        (join (String LF "")
           ((λ line, "> " +:+ line)
              <$> split LF (description
                    (with_description review ("Agenda:" +:+ String LF "1. Budget"))))))))
  ∧ join (String LF "")
      (split LF (description
         (with_description review ("Agenda:" +:+ String LF "1. Budget"))))
    = description (with_description review ("Agenda:" +:+ String LF "1. Budget")).
Proof.
  apply (noteContent_quotes_description 0 hiding
           (with_description review ("Agenda:" +:+ String LF "1. Budget"))
           meeting_template).
  - vm_compute. discriminate.
  - right. reflexivity.
Defined.

(** The note of the review from the meeting template: the four fields are
    filled in, the description line is blanked, the other lines are kept. *)
Example review_note :
  noteContent 0 showing review meeting_template =
  join (String LF "")
    ["---"; "date: 2025-06-10"; "time: 09:05"; "attendees:";
     "  - " +:+ String double_quote "[[Ann]]" +:+ String double_quote "";
     "  - " +:+ String double_quote "[[Bob]]" +:+ String double_quote "";
     ""; "---"; "# Notes"].
Proof. by vm_compute. Qed.

(** A dollar sign in the name of an attendee is read as a replacement
    pattern: [$&] brings in the line that is replaced. *)
Example attendee_with_dollar :
  replace_lines "attendees:"
    ("attendees:" +:+ String LF ("  - [[A$&B]]"))
    ("attendees: none" +:+ String LF "---")
  = "attendees:" +:+ String LF ("  - [[Aattendees: noneB]]" +:+ String LF "---").
Proof. by vm_compute. Qed.
